(** * SAE-V: top-k accumulation, batched forward pass, example assembly
      and activation rendering

    Shallow embedding of
      - [src/vit_sae_analysis/dashboard_fns.py]
          ([get_all_model_activations], [get_sae_activations],
           [save_highest_activating_images], [get_new_top_k],
           [get_feature_data]);
      - [src/saev/app.py] ([add_highlights], [make_sae_activation]).

    Conventions.
      - A float scalar that only flows through comparisons and sums is an
        exact rational [Qc] (canonical rationals, Leibniz equality); rounding
        is not modelled.  The result of a tensor division is an [fval], which
        adds the IEEE special values produced by a zero divisor.
      - A 2-D tensor is a list of rows; axis 0 is the outer list.
      - A Python exception is a [Raise] in the [result] monad. *)

From Stdlib Require Import List Arith Lia Bool ZArith.
From Stdlib Require Import QArith Qcanon.
From Stdlib Require Import Permutation Sorted.
Import ListNotations.

Set Implicit Arguments.

Close Scope Qc_scope.
Close Scope Q_scope.
Open Scope nat_scope.

(** ** Exceptions *)

Inductive exn : Type :=
| AssertionError
| ZeroDivisionError
| RuntimeError
| IndexError
| ValueError
| OverflowError
| FileNotFoundError.

Inductive result (A : Type) : Type :=
| Ok (a : A)
| Raise (e : exn).

Arguments Ok {A} a.
Arguments Raise {A} e.

Definition bind {A B : Type} (m : result A) (f : A -> result B) : result B :=
  match m with
  | Ok a => f a
  | Raise e => Raise e
  end.

Notation "x <- m ;; k" := (bind m (fun x => k))
  (at level 61, m at next level, right associativity).
Notation "' p <- m ;; k" := (bind m (fun x => let p := x in k))
  (at level 61, p pattern, m at next level, right associativity).

Definition is_ok {A : Type} (m : result A) : bool :=
  match m with Ok _ => true | Raise _ => false end.

(** [mapM f l]: run [f] on every element, left to right, stopping at the
    first exception. *)
Fixpoint mapM {A B : Type} (f : A -> result B) (l : list A) : result (list B) :=
  match l with
  | [] => Ok []
  | a :: t => b <- f a ;; bs <- mapM f t ;; Ok (b :: bs)
  end.

(** ** Scalars *)

Definition Qcleb (x y : Qc) : bool := Qle_bool (this x) (this y).
Definition Qcltb (x y : Qc) : bool := negb (Qcleb y x).
Definition Qceqb (x y : Qc) : bool := Qeq_bool (this x) (this y).

Definition Qc_of_nat (n : nat) : Qc := Q2Qc (inject_Z (Z.of_nat n)).

(** The value a float tensor holds after a division. *)
Inductive fval : Type :=
| Fin (q : Qc)
| PosInf
| NegInf
| NaN.

(** IEEE division of two finite floats, without rounding. *)
Definition fdiv (a b : Qc) : fval :=
  if Qceqb b 0%Qc then
    if Qceqb a 0%Qc then NaN
    else if Qcltb 0%Qc a then PosInf else NegInf
  else Fin (a / b)%Qc.


(** ** Python slices on lists (non-negative bounds) *)

(** [l[a:b]] *)
Definition py_slice {A : Type} (a b : nat) (l : list A) : list A :=
  firstn (b - a) (skipn a l).

(** [l[-r:]] for [r > 0] *)
Definition py_tail {A : Type} (r : nat) (l : list A) : list A :=
  skipn (length l - r) l.

(** ** Tensor primitives (torch) *)

Definition tensor2 (A : Type) : Type := list (list A).

(** [torch.zeros([d, k])] *)
Definition zeros2 {A : Type} (z : A) (d k : nat) : tensor2 A :=
  repeat (repeat z k) d.

(** [torch.cat([a, b], dim=1)]: the row counts must agree. *)
Fixpoint cat1 {A : Type} (a b : tensor2 A) : result (tensor2 A) :=
  match a, b with
  | [], [] => Ok []
  | ra :: ta, rb :: tb => t <- cat1 ta tb ;; Ok ((ra ++ rb) :: t)
  | _, _ => Raise RuntimeError
  end.

(** [torch.cat(parts, dim=0)]: an empty list of tensors is refused with
    [ValueError] ("expected a non-empty list of Tensors"). *)
Definition cat0 {A : Type} (parts : list (list A)) : result (list A) :=
  match parts with
  | [] => Raise ValueError
  | _ => Ok (concat parts)
  end.

(** *** torch.topk along the last axis

    The library promises the [k] largest entries of a row, largest first,
    with the position each one came from, and refuses a [k] larger than the
    row.  It is modelled as a partial selection: [k] rounds, each removing
    the first maximal entry of what is left. *)

Fixpoint extract_max (l : list (Qc * nat)) : option ((Qc * nat) * list (Qc * nat)) :=
  match l with
  | [] => None
  | x :: t =>
      match extract_max t with
      | None => Some (x, [])
      | Some (m, r) =>
          if Qcleb (fst m) (fst x) then Some (x, t) else Some (m, x :: r)
      end
  end.

Fixpoint select (k : nat) (l : list (Qc * nat)) : list (Qc * nat) :=
  match k with
  | O => []
  | S k' =>
      match extract_max l with
      | None => []
      | Some (m, r) => m :: select k' r
      end
  end.

Definition positions {A : Type} (row : list A) : list nat := seq 0 (length row).

Definition topk_row (k : nat) (row : list Qc) : result (list Qc * list nat) :=
  if length row <? k then Raise RuntimeError
  else Ok (List.split (select k (combine row (positions row)))).

(** [topk(t, k=k, dim=1)] *)
Definition topk (t : tensor2 Qc) (k : nat) : result (tensor2 Qc * tensor2 nat) :=
  rows <- mapM (topk_row k) t ;; Ok (List.split rows).

(** [torch.gather(t, 1, idx)]: [out[i][j] = t[i][idx[i][j]]]. *)
Definition gather_row {A : Type} (row : list A) (idx : list nat) : result (list A) :=
  mapM (fun j => match nth_error row j with
                 | Some a => Ok a
                 | None => Raise RuntimeError
                 end) idx.

Fixpoint gather1 {A : Type} (t : tensor2 A) (idx : tensor2 nat) : result (tensor2 A) :=
  match t, idx with
  | [], [] => Ok []
  | r :: t', i :: idx' => r' <- gather_row r i ;; rest <- gather1 t' idx' ;; Ok (r' :: rest)
  | _, _ => Raise RuntimeError
  end.

(** ** dashboard_fns.get_new_top_k *)

Definition get_new_top_k (first_values : tensor2 Qc) (first_indices : tensor2 nat)
    (second_values : tensor2 Qc) (second_indices : tensor2 nat) (k : nat)
  : result (tensor2 Qc * tensor2 nat) :=
  total_values <- cat1 first_values second_values ;;
  total_indices <- cat1 first_indices second_indices ;;
  '(new_values, indices_of_indices) <- topk total_values k ;;
  new_indices <- gather1 total_indices indices_of_indices ;;
  Ok (new_values, new_indices).

(** *** Reference selection: sort the whole row, keep the first [k]

    This is the definition the specification words the merge against: the
    full union sorted by value, largest first, cut after [k] entries. *)

Fixpoint insert_desc (x : Qc) (l : list Qc) : list Qc :=
  match l with
  | [] => [x]
  | y :: t => if Qcleb y x then x :: l else y :: insert_desc x t
  end.

Fixpoint sort_desc (l : list Qc) : list Qc :=
  match l with
  | [] => []
  | x :: t => insert_desc x (sort_desc t)
  end.

Definition sorted_top (k : nat) (l : list Qc) : list Qc := firstn k (sort_desc l).

(** ** The top-k table and its invariant *)

Record topk_table : Type := mk_table {
  tbl_values : tensor2 Qc;
  tbl_indices : tensor2 nat
}.

(** [values[L, r1] >= values[L, r2]] whenever [r1 < r2]. *)
Definition descending (values : tensor2 Qc) : Prop :=
  forall (L r1 r2 : nat) (row : list Qc) (v1 v2 : Qc),
    nth_error values L = Some row ->
    r1 < r2 ->
    nth_error row r1 = Some v1 ->
    nth_error row r2 = Some v2 ->
    (v2 <= v1)%Qc.

(** Tables the accumulation can hold: the zero table, and whatever a merge
    with some candidate batch returns from such a table. *)
Inductive accumulated (d k : nat) : topk_table -> Prop :=
| acc_zero :
    accumulated d k (mk_table (zeros2 (0%Qc) d k) (zeros2 0%nat d k))
| acc_merge : forall t values indices new_values new_indices,
    accumulated d k t ->
    get_new_top_k (tbl_values t) (tbl_indices t) values indices k
      = Ok (new_values, new_indices) ->
    accumulated d k (mk_table new_values new_indices).

(** ** Reductions along axis 1 *)

Definition Qcsum (l : list Qc) : Qc := fold_right Qcplus 0%Qc l.

Definition count_pos (l : list Qc) : nat := length (filter (Qcltb 0%Qc) l).

(** [t.sum(dim=1)] *)
Definition sum1 (t : tensor2 Qc) : list Qc := map Qcsum t.

(** [(t > 0).sum(dim=1)] *)
Definition count_pos1 (t : tensor2 Qc) : list nat := map count_pos t.

(** In-place [a += b] on 1-D tensors of one size. *)
Fixpoint iadd (a b : list Qc) : result (list Qc) :=
  match a, b with
  | [], [] => Ok []
  | x :: a', y :: b' => r <- iadd a' b' ;; Ok ((x + y)%Qc :: r)
  | _, _ => Raise RuntimeError
  end.

(** In-place [a /= b] on 1-D float tensors of one size. *)
Fixpoint idiv (a b : list Qc) : result (list fval) :=
  match a, b with
  | [], [] => Ok []
  | x :: a', y :: b' => r <- idiv a' b' ;; Ok (fdiv x y :: r)
  | _, _ => Raise RuntimeError
  end.

(** [t.transpose(0, 1)] of a [batch x d] tensor; [d] is read off its first
    row. *)
Definition transpose (rows : tensor2 Qc) : tensor2 Qc :=
  map (fun j => map (fun r => nth j r 0%Qc) rows)
      (seq 0 (length (hd [] rows))).

(** ** dashboard_fns: batched forward passes and the accumulation job *)

Section Dashboard.

(** A dataset image; the two frozen networks, each seen through what it
    returns for one input row.  [vit] is [get_model_activations] (the
    class-token activation of the hooked block), [sae] is the hidden
    activation [hook_hidden_post] of the autoencoder.  A forward pass over
    a batch returns one row per input, in order. *)
Variable Image : Type.
Variable vit : Image -> list Qc.
Variable sae : list Qc -> list Qc.

Record datum : Type := mk_datum { image : Image; label : nat }.

Record config : Type := mk_config {
  d_sae : nat;
  max_batch_size_for_vit_forward_pass : nat
}.

(** The batches both drivers cut their input into: the full mini batches
    [xs[m*B : (m+1)*B]], then [xs[-remainder:]] when there is a
    remainder. *)
Definition mini_batches {A : Type} (max_batch_size : nat) (xs : list A)
  : list (list A) :=
  let number_of_mini_batches := length xs / max_batch_size in
  let remainder := length xs mod max_batch_size in
  map (fun mini_batch =>
         py_slice (mini_batch * max_batch_size)
                  ((mini_batch + 1) * max_batch_size) xs)
      (seq 0 number_of_mini_batches)
  ++ (if 0 <? remainder then [py_tail remainder xs] else []).

Definition get_all_model_activations (images : list Image) (cfg : config)
  : result (tensor2 Qc) :=
  let max_batch_size := max_batch_size_for_vit_forward_pass cfg in
  if max_batch_size =? 0 then Raise ZeroDivisionError
  else cat0 (map (map vit) (mini_batches max_batch_size images)).

Definition get_sae_activations (model_activations : tensor2 Qc) (cfg : config)
  : result (tensor2 Qc) :=
  let max_batch_size := max_batch_size_for_vit_forward_pass cfg in
  if max_batch_size =? 0 then Raise ZeroDivisionError
  else cat0 (map (map sae) (mini_batches max_batch_size model_activations)).

(** *** The files of the [dashboard] directory *)

Record png : Type := mk_png {
  png_neuron : nat;
  png_rank : nat;
  png_index : nat;
  png_value : Qc;
  png_image : Image
}.

Record store : Type := mk_store {
  max_activating_image_indices_pt : option (tensor2 nat);
  max_activating_image_values_pt : option (tensor2 Qc);
  max_activating_image_label_indices_pt : option (tensor2 nat);
  sae_sparsity_pt : option (list fval);
  sae_mean_acts_pt : option (list fval);
  png_files : list png
}.

(** [torch.load] *)
Definition load {A : Type} (file : option A) : result A :=
  match file with
  | Some t => Ok t
  | None => Raise FileNotFoundError
  end.

(** [dataset[int(index)]] *)
Definition dataset_get (dataset : list datum) (index : nat) : result datum :=
  match nth_error dataset index with
  | Some d => Ok d
  | None => Raise IndexError
  end.

(** *** save_highest_activating_images *)

(** The [(rank, index, value)] triples of one neuron whose value is
    positive. *)
Definition live_ranks (indices : list nat) (values : list Qc)
  : list (nat * (nat * Qc)) :=
  filter (fun e => Qcltb 0%Qc (snd (snd e)))
         (combine (seq 0 (length values)) (combine indices values)).

Definition save_neuron (dataset : list datum) (neuron : nat)
    (indices : list nat) (values : list Qc) : result (list png) :=
  mapM (fun e =>
          d <- dataset_get dataset (fst (snd e)) ;;
          Ok (mk_png neuron (fst e) (fst (snd e)) (snd (snd e)) (image d)))
       (live_ranks indices values).

Definition save_highest_activating_images
    (max_activating_image_indices : tensor2 nat)
    (max_activating_image_values : tensor2 Qc)
    (dataset : list datum) (s : store) : result store :=
  if list_eq_dec Nat.eq_dec (map (@length Qc) max_activating_image_values)
                            (map (@length nat) max_activating_image_indices)
  then
    saved <- mapM (fun e => save_neuron dataset (fst e) (fst (snd e)) (snd (snd e)))
                  (combine (seq 0 (length max_activating_image_values))
                           (combine max_activating_image_indices
                                    max_activating_image_values)) ;;
    Ok (mk_store (max_activating_image_indices_pt s)
                 (max_activating_image_values_pt s)
                 (max_activating_image_label_indices_pt s)
                 (sae_sparsity_pt s) (sae_mean_acts_pt s)
                 (png_files s ++ concat saved))
  else Raise AssertionError.

(** *** get_feature_data *)

(** The loop variables of the accumulation. *)
Record acc : Type := mk_acc {
  max_activating_image_values : tensor2 Qc;
  max_activating_image_indices : tensor2 nat;
  sae_sparsity : list Qc;
  sae_mean_acts : list Qc;
  number_of_images_processed : nat
}.

(** The local variables the function holds when it returns; the two
    statistics are bound on the fresh path only. *)
Record frame : Type := mk_frame {
  fr_indices : tensor2 nat;
  fr_values : tensor2 Qc;
  fr_sae_sparsity : option (list fval);
  fr_sae_mean_acts : option (list fval)
}.

Section Job.

(** [dataset] is the training split after [shuffle(seed)]. *)
Variable cfg : config.
Variable dataset : list datum.
Variable number_of_images : nat.
Variable number_of_max_activating_images : nat.
Variable max_number_of_images_per_iteration : nat.

(** [torch.zeros] makes both tables float32, and [torch.cat] in
    [get_new_top_k] promotes the int64 positions of a pass to float32 too.
    A float32 holds every integer up to [2^24] exactly, so the positions
    are kept as naturals; a statement that names an image by its persisted
    index assumes a dataset of at most [2^24] images. *)
Definition init_acc : acc :=
  mk_acc (zeros2 0%Qc (d_sae cfg) number_of_max_activating_images)
         (zeros2 0%nat (d_sae cfg) number_of_max_activating_images)
         (repeat 0%Qc (d_sae cfg)) (repeat 0%Qc (d_sae cfg)) 0.

(** The images of one pass: a slice of the dataset, which is shorter
    than asked, or empty, once the dataset runs out (a slice never
    raises [StopIteration]). *)
Definition chunk (processed : nat) : list Image :=
  map image
      (py_slice processed (processed + max_number_of_images_per_iteration)
                dataset).

(** [sae_activations] of one pass, of size [feature_idx x batch]. *)
Definition chunk_activations (processed : nat) : result (tensor2 Qc) :=
  model_activations <- get_all_model_activations (chunk processed) cfg ;;
  sae_rows <- get_sae_activations model_activations cfg ;;
  Ok (transpose sae_rows).

(** One pass of the [while] body. *)
Definition step (st : acc) : result acc :=
  let processed := number_of_images_processed st in
  sae_activations <- chunk_activations processed ;;
  mean_acts <- iadd (sae_mean_acts st) (sum1 sae_activations) ;;
  sparsity <- iadd (sae_sparsity st)
                   (map Qc_of_nat (count_pos1 sae_activations)) ;;
  '(values, indices) <- topk sae_activations number_of_max_activating_images ;;
  let indices := map (map (Nat.add processed)) indices in
  '(new_values, new_indices) <-
     get_new_top_k (max_activating_image_values st)
                   (max_activating_image_indices st)
                   values indices number_of_max_activating_images ;;
  Ok (mk_acc new_values new_indices sparsity mean_acts
             (processed + max_number_of_images_per_iteration)).

(** [while number_of_images_processed < number_of_images]; [None] when
    the fuel is spent before the loop leaves. *)
Fixpoint accumulate (fuel : nat) (st : acc) : option (result acc) :=
  if number_of_images_processed st <? number_of_images then
    match fuel with
    | O => None
    | S fuel' =>
        match step st with
        | Ok st' => accumulate fuel' st'
        | Raise e => Some (Raise e)
        end
    end
  else Some (Ok st).

(** What follows the loop on the fresh path: the two divisions, the
    label tensor, the five saved tensors. *)
Definition finish (st : acc) (s : store) : result (frame * store) :=
  mean_acts <- idiv (sae_mean_acts st) (sae_sparsity st) ;;
  let sparsity :=
    map (fun c => fdiv c (Qc_of_nat (number_of_images_processed st)))
        (sae_sparsity st) in
  labels <- mapM (mapM (fun index => d <- dataset_get dataset index ;; Ok (label d)))
                 (max_activating_image_indices st) ;;
  Ok (mk_frame (max_activating_image_indices st)
               (max_activating_image_values st)
               (Some sparsity) (Some mean_acts),
      mk_store (Some (max_activating_image_indices st))
               (Some (max_activating_image_values st))
               (Some labels) (Some sparsity) (Some mean_acts)
               (png_files s)).

Definition get_feature_data (load_pretrained : bool) (s : store)
  : option (result (frame * store)) :=
  let prepared :=
    if load_pretrained then
      Some (indices <- load (max_activating_image_indices_pt s) ;;
            values <- load (max_activating_image_values_pt s) ;;
            Ok (mk_frame indices values None None, s))
    else
      match accumulate number_of_images init_acc with
      | None => None
      | Some r => Some (st <- r ;; finish st s)
      end in
  match prepared with
  | None => None
  | Some r =>
      Some ('(fr, s') <- r ;;
            s'' <- save_highest_activating_images
                     (map (firstn 10) (firstn 1000 (fr_indices fr)))
                     (map (firstn 10) (firstn 1000 (fr_values fr)))
                     dataset s' ;;
            Ok (fr, s''))
  end.

End Job.

End Dashboard.

(** ** app: the highlight renderer and example assembly *)

(** [int(x)]: truncation towards zero. *)
Definition py_int (x : Qc) : Z := Z.quot (Qnum (this x)) (Zpos (Qden (this x))).

(** Storing a Python integer in a [uint8] array: a value outside
    [0 .. 255] is refused with [OverflowError]. *)
Definition to_uint8 (z : Z) : result Z :=
  if ((0 <=? z) && (z <=? 255))%Z then Ok z else Raise OverflowError.

(** [1e-9] *)
Definition eps : Qc := Q2Qc (1 # 1000000000).

Definition Qc_of_Z (z : Z) : Qc := Q2Qc (inject_Z z).

(** One cell of an [h x w x 4] [uint8] array. *)
Definition rgba : Type := (Z * Z * Z * Z)%type.

Definition zero_cell : rgba := (0, 0, 0, 0)%Z.

(** [np.zeros((n0, n1, 4), dtype=np.uint8)] *)
Definition np_zeros (n0 n1 : nat) : list (list rgba) :=
  repeat (repeat zero_cell n1) n0.

(** Apply [f] to the entries [l[a : a + n]]; a slice is clipped to the
    list.  The renderer only paints inside the overlay: once the two grid
    assertions hold, [grid * patch] is at most the width and the height. *)
Definition on_slice {A : Type} (a n : nat) (f : A -> A) (l : list A) : list A :=
  firstn a l ++ map f (firstn n (skipn a l)) ++ skipn (a + n) l.

(** [overlay[y : y + h, x : x + w, :] = patch] for a patch of one colour. *)
Definition paint (y h x w : nat) (cell : rgba) (overlay : list (list rgba))
  : list (list rgba) :=
  on_slice y h (on_slice x w (fun _ => cell)) overlay.

Section App.

(** The pyvips image and the operations the renderer calls on it. *)
Variable VImage : Type.
Variable width height : VImage -> nat.
Variable addalpha : VImage -> VImage.
Variable composite_over : VImage -> VImage -> VImage.
(** [pyvips.Image.new_from_array(a).copy(interpretation="srgb")] *)
Variable new_from_array : list (list rgba) -> VImage.

(** The patch written for one activation value, after normalisation:
    [patch[:, :, 0] = int(255 * val)], then [patch[:, :, 3] = int(128 * val)].
    The products are taken on exact values; float rounding can move a
    product across an integer, so the statements below fix a byte only for
    the value 0, and otherwise use no more than that a value between 0 and
    the upper bound fits both channels. *)
Definition patch_cell (val : Qc) : result rgba :=
  red <- to_uint8 (py_int (Qc_of_Z 255 * val)%Qc) ;;
  alpha <- to_uint8 (py_int (Qc_of_Z 128 * val)%Qc) ;;
  Ok (red, 0, 0, alpha)%Z.

(** The body of [for idx, val in enumerate(patches)], from index [idx]
    on.  The patch values are numpy scalars: a zero divisor makes the
    quotient infinite, or not-a-number for a zero value, and [int] refuses
    the one with [OverflowError], the other with [ValueError]. *)
Fixpoint paint_patches (upper : option Qc) (grid_w patch_w patch_h : nat)
    (idx : nat) (patches : list Qc) (overlay : list (list rgba))
  : result (list (list rgba)) :=
  match patches with
  | [] => Ok overlay
  | val :: rest =>
      match upper with
      | None => Raise AssertionError
      | Some u =>
          if Qceqb (u + eps)%Qc 0%Qc then
            Raise (if Qceqb val 0%Qc then ValueError else OverflowError)
          else
            let val := (val / (u + eps))%Qc in
            let x := (idx mod grid_w) * patch_w in
            let y := (idx / grid_w) * patch_h in
            patch <- patch_cell val ;;
            paint_patches upper grid_w patch_w patch_h (S idx) rest
                          (paint y patch_h x patch_w patch overlay)
      end
  end.

(** [upper] defaults to [None].  The keyword [opacity] is never read by the
    body and is left out.  [int(math.sqrt(n))] is the integer square root
    for every patch count a float holds exactly. *)
Definition add_highlights (img_v_sized : VImage) (patches : list Qc)
    (upper : option Qc) : result VImage :=
  if length patches =? 0 then Ok img_v_sized
  else
    let grid_w := Nat.sqrt (length patches) in
    let grid_h := grid_w in
    if negb (grid_w * grid_h =? length patches) then Raise AssertionError
    else
      let patch_w := width img_v_sized / grid_w in
      let patch_h := height img_v_sized / grid_h in
      if negb (patch_w =? patch_h) then Raise AssertionError
      else
        overlay <- paint_patches upper grid_w patch_w patch_h 0 patches
                     (np_zeros (width img_v_sized) (height img_v_sized)) ;;
        Ok (composite_over (addalpha img_v_sized) (new_from_array overlay)).

(** *** make_sae_activation *)

Variable Label Url : Type.
Variable to_sized : VImage -> VImage.
Variable vips_to_base64 : VImage -> Url.

(** [get_dataset_image(dataset_name, i)] on the dataset of the model. *)
Definition get_dataset_image (dataset : list (VImage * Label)) (i : nat)
  : result (VImage * Label) :=
  match nth_error dataset i with
  | Some e => Ok e
  | None => Raise IndexError
  end.

Record raw_example : Type := mk_raw {
  raw_i_im : nat;
  raw_img : VImage;
  raw_values_p : list Qc;
  raw_label : Label
}.

Record Example : Type := mk_example {
  orig_url : Url;
  highlighted_url : Url;
  ex_label : Label;
  (** the [i_im] of [inat21__train_mini__{i_im}] *)
  example_id : nat
}.

Record SaeActivation : Type := mk_sae_activation {
  sa_latent : nat;
  sa_activations : list Qc;
  sa_examples : list Example
}.

(** The loop over [zip(top_img_i, top_values)]: [seen_i_im] is the set of
    image indices used so far, [raw_examples] the list built so far. *)
Fixpoint collect_examples (dataset : list (VImage * Label))
    (seen_i_im : list nat) (raw_examples : list raw_example)
    (pairs : list (nat * list Qc)) : result (list raw_example) :=
  match pairs with
  | [] => Ok raw_examples
  | (i_im, values_p) :: rest =>
      if existsb (Nat.eqb i_im) seen_i_im then
        collect_examples dataset seen_i_im raw_examples rest
      else
        '(ex_img_v_raw, ex_label) <- get_dataset_image dataset i_im ;;
        let ex_img_v_sized := to_sized ex_img_v_raw in
        let raw_examples :=
          raw_examples ++ [mk_raw i_im ex_img_v_sized values_p ex_label] in
        let seen_i_im := i_im :: seen_i_im in
        if 4 <=? length seen_i_im then Ok raw_examples
        else collect_examples dataset seen_i_im raw_examples rest
  end.

Definition Qcmax (a b : Qc) : Qc := if Qcleb a b then b else a.

(** [t.max().item()]: refused on a tensor without entries. *)
Definition tensor_max (t : tensor2 Qc) : result Qc :=
  match concat t with
  | [] => Raise RuntimeError
  | x :: r => Ok (fold_left Qcmax r x)
  end.

(** The two encodings are handed to the worker pool and awaited; what
    comes back is the encoding of each image. *)
Definition render_example (upper : Qc) (r : raw_example) : result Example :=
  highlighted_img <- add_highlights (raw_img r) (raw_values_p r) (Some upper) ;;
  Ok (mk_example (vips_to_base64 (raw_img r)) (vips_to_base64 highlighted_img)
                 (raw_label r) (raw_i_im r)).

Definition make_sae_activation (dataset : list (VImage * Label))
    (latent : nat) (acts : list Qc) (top_img_i : list nat)
    (top_values : tensor2 Qc) : result SaeActivation :=
  raw_examples <- collect_examples dataset [] [] (combine top_img_i top_values) ;;
  upper <- tensor_max top_values ;;
  examples <- mapM (render_example upper) raw_examples ;;
  Ok (mk_sae_activation latent acts examples).

End App.

(** The first occurrence of every image index, in rank order: what "distinct
    top-activating images" names. *)
Fixpoint first_occurrences {A : Type} (l : list (nat * A)) : list (nat * A) :=
  match l with
  | [] => []
  | x :: t => x :: filter (fun y => negb (fst y =? fst x)) (first_occurrences t)
  end.

Definition distinct_count (l : list nat) : nat := length (nodup Nat.eq_dec l).

(** [x] before [y] in a row sorted largest first. *)
Definition Qcge' (x y : Qc) : Prop := (y <= x)%Qc.

Definition by_value (x y : Qc * nat) : Prop := Qcge' (fst x) (fst y).

(** What [select k] leaves behind. *)
Fixpoint leftover (k : nat) (l : list (Qc * nat)) : list (Qc * nat) :=
  match k with
  | O => l
  | S k' =>
      match extract_max l with
      | None => []
      | Some (_, r) => leftover k' r
      end
  end.

Definition join_rows {A : Type} (a b : tensor2 A) : tensor2 A :=
  map (fun p => fst p ++ snd p) (combine a b).

Definition selected (k : nat) (row : list Qc) : list (Qc * nat) :=
  select k (combine row (positions row)).

(** The image cut into a [g x g] grid of equal square patches, nothing left
    over. *)
Definition divides_into_square_patches (w h g : nat) : Prop :=
  w mod g = 0 /\ h mod g = 0 /\ w / g = h / g.

(** A stand-in raster for running the renderer: an image is its size, and
    compositing keeps the size of the base image. *)
Definition raster : Type := (nat * nat)%type.
Definition raster_of_array (a : list (list rgba)) : raster :=
  (length a, length (hd [] a)).
Definition raster_highlights : raster -> list Qc -> option Qc -> result raster :=
  add_highlights (@fst nat nat) (@snd nat nat) (fun i => i) (fun base _ => base)
                 raster_of_array.

(** An overlay whose every cell is [(0, 0, 0, 0)]: fully transparent. *)
Definition all_zero (overlay : list (list rgba)) : Prop :=
  Forall (Forall (fun c => c = zero_cell)) overlay.

(** The entries whose image index is not in [seen]. *)
Definition unseen {A : Type} (seen : list nat) (l : list (nat * A)) : list (nat * A) :=
  filter (fun p => negb (existsb (Nat.eqb (fst p)) seen)) l.

(** The rank entry a raw example was built from. *)
Definition raw_entry {VImage Label : Type} (r : raw_example VImage Label)
  : nat * list Qc :=
  (raw_i_im r, raw_values_p r).

(** ** What the accumulation holds after [i] passes *)

(** Number of passes of the loop: the least [n] with [n * B >= N]. *)
Definition rounds (number_of_images B : nat) : nat :=
  (number_of_images + B - 1) / B.

Section RunSpec.

Variable Image : Type.
Variable vit : Image -> list Qc.
Variable sae : list Qc -> list Qc.

(** The activation of latent [L] on one dataset entry. *)
Definition activation (L : nat) (d : datum Image) : Qc :=
  nth L (sae (vit (image d))) 0%Qc.

(** After [i] full-stride passes: the counter stands at [i * B], the two
    running statistics hold the sum and the firing count over the dataset
    entries below it, and the table has [d_sae] rows of [K] columns with
    every index inside the dataset. *)
Record loop_invariant (cfg : config) (dataset : list (datum Image))
    (K B i : nat) (st : acc) : Prop := mk_inv {
  inv_processed : number_of_images_processed st = i * B;
  inv_mean_len : length (sae_mean_acts st) = d_sae cfg;
  inv_sparsity_len : length (sae_sparsity st) = d_sae cfg;
  inv_mean : forall L, L < d_sae cfg ->
    nth_error (sae_mean_acts st) L
    = Some (Qcsum (map (activation L) (firstn (i * B) dataset)));
  inv_sparsity : forall L, L < d_sae cfg ->
    nth_error (sae_sparsity st) L
    = Some (Qc_of_nat (count_pos (map (activation L) (firstn (i * B) dataset))));
  inv_values_len : length (max_activating_image_values st) = d_sae cfg;
  inv_indices_len : length (max_activating_image_indices st) = d_sae cfg;
  inv_values_cols :
    Forall (fun r => length r = K) (max_activating_image_values st);
  inv_indices_cols :
    Forall (fun r => length r = K) (max_activating_image_indices st);
  inv_indices_range :
    Forall (Forall (fun j => j < length dataset))
           (max_activating_image_indices st)
}.

End RunSpec.

(** The dataset entries of pass [i] of the loop, for a stride [B]. *)
Definition pass_entries {Image : Type} (dataset : list (datum Image))
    (B i : nat) : list (datum Image) :=
  firstn B (skipn (i * B) dataset).

(** The dataset entries below the counter the loop leaves with. *)
Definition images_processed {Image : Type} (dataset : list (datum Image))
    (number_of_images B : nat) : list (datum Image) :=
  firstn (rounds number_of_images B * B) dataset.

(** An empty [dashboard] directory. *)
Definition empty_store (Image : Type) : store Image :=
  mk_store None None None None None [].

(** ** What the table holds after [i] passes *)

Section TableSpec.

Variable Image : Type.
Variable vit : Image -> list Qc.
Variable sae : list Qc -> list Qc.

(** A table entry [(v, j)] of latent [L] is either the initial [(0, 0)] or
    the activation [v] of latent [L] on dataset entry [j], an entry below
    [bound]. *)
Definition paired (dataset : list (datum Image)) (L bound : nat)
    (v : Qc) (j : nat) : Prop :=
  (v = 0%Qc /\ j = 0) \/
  (j < bound /\ exists d, nth_error dataset j = Some d /\ activation vit sae L d = v).

Record table_invariant (cfg : config) (dataset : list (datum Image))
    (K B i : nat) (st : acc) : Prop := mk_tinv {
  tinv_values : forall L, L < d_sae cfg ->
    nth_error (max_activating_image_values st) L
    = Some (sorted_top K (repeat 0%Qc K
                          ++ map (activation vit sae L) (firstn (i * B) dataset)));
  tinv_pairs : forall L row irow, L < d_sae cfg ->
    nth_error (max_activating_image_values st) L = Some row ->
    nth_error (max_activating_image_indices st) L = Some irow ->
    Forall2 (paired dataset L (i * B)) row irow
}.

End TableSpec.

(** ** The cells of the overlay *)




(** * Proofs *)

(** ** The result monad *)

Lemma bind_ok_inv : forall (A B : Type) (m : result A) (f : A -> result B) b,
  bind m f = Ok b -> exists a, m = Ok a /\ f a = Ok b.
Proof.
  intros A B [a | e] f b H; simpl in H; [eauto | discriminate].
Qed.

Ltac inv_bind H :=
  let a := fresh "a" in
  let Ha := fresh "Hstep" in
  apply bind_ok_inv in H; destruct H as [a [Ha H]].

Lemma mapM_ok_inv : forall (A B : Type) (f : A -> result B) l bs,
  mapM f l = Ok bs -> Forall2 (fun a b => f a = Ok b) l bs.
Proof.
  induction l as [| a l IH]; simpl; intros bs H.
  - inversion H; constructor.
  - inv_bind H. inv_bind H. inversion H; subst. constructor; auto.
Qed.

Lemma mapM_total : forall (A B : Type) (f : A -> result B) l,
  Forall (fun a => exists b, f a = Ok b) l -> exists bs, mapM f l = Ok bs.
Proof.
  induction 1 as [| a l [b Hb] _ [bs IH]]; simpl; [eauto |].
  rewrite Hb; simpl. rewrite IH; simpl. eauto.
Qed.

Lemma mapM_ok : forall (A B : Type) (f : A -> result B) (g : A -> B) l,
  Forall (fun a => f a = Ok (g a)) l -> mapM f l = Ok (map g l).
Proof.
  induction 1 as [| a l Ha _ IH]; simpl; [reflexivity |].
  rewrite Ha; simpl. rewrite IH; reflexivity.
Qed.

Lemma split_maps : forall (A B : Type) (l : list (A * B)),
  List.split l = (map fst l, map snd l).
Proof.
  induction l as [| [a b] l IH]; simpl; [reflexivity |].
  rewrite IH; reflexivity.
Qed.

(** ** Order on scalars *)

Lemma Qcleb_le : forall x y, Qcleb x y = true <-> (x <= y)%Qc.
Proof. intros x y; unfold Qcleb, Qcle; apply Qle_bool_iff. Qed.

Lemma Qcleb_false : forall x y, Qcleb x y = false -> (y <= x)%Qc.
Proof.
  intros x y H. apply Qclt_le_weak, Qcnot_le_lt.
  intro Hle; apply Qcleb_le in Hle; congruence.
Qed.

Lemma Qcltb_lt : forall x y, Qcltb x y = true <-> (x < y)%Qc.
Proof.
  intros x y; unfold Qcltb; rewrite negb_true_iff; split.
  - intro H. apply Qcnot_le_lt. intro Hle; apply Qcleb_le in Hle; congruence.
  - intro H. destruct (Qcleb y x) eqn:E; [| reflexivity].
    apply Qcleb_le in E. exfalso; exact (Qclt_not_le _ _ H E).
Qed.

Lemma Qceqb_eq : forall x y, Qceqb x y = true <-> x = y.
Proof.
  intros x y; unfold Qceqb; rewrite Qeq_bool_iff; split.
  - apply Qc_is_canon.
  - intros ->; reflexivity.
Qed.

(** A list sorted by an antisymmetric order is the only sorted arrangement
    of its elements. *)
Lemma sorted_perm_unique : forall (l1 l2 : list Qc),
  StronglySorted Qcge' l1 -> StronglySorted Qcge' l2 ->
  Permutation l1 l2 -> l1 = l2.
Proof.
  induction l1 as [| x l1 IH]; intros l2 S1 S2 P.
  - apply Permutation_nil in P; subst; reflexivity.
  - destruct l2 as [| y l2].
    + apply Permutation_sym, Permutation_nil in P; discriminate.
    + inversion S1 as [| ? ? S1' F1]; subst.
      inversion S2 as [| ? ? S2' F2]; subst.
      assert (x = y) as ->.
      { assert (Hx : In x (y :: l2)) by (eapply Permutation_in; [exact P | left; reflexivity]).
        assert (Hy : In y (x :: l1))
          by (eapply Permutation_in; [apply Permutation_sym; exact P | left; reflexivity]).
        destruct Hx as [-> | Hx]; [reflexivity |].
        destruct Hy as [-> | Hy]; [reflexivity |].
        rewrite Forall_forall in F1, F2.
        apply Qcle_antisym; [apply (F2 _ Hx) | apply (F1 _ Hy)]. }
      f_equal. apply IH; auto.
      eapply Permutation_cons_inv; exact P.
Qed.

(** ** Partial selection *)

Lemma extract_max_none : forall l, extract_max l = None -> l = [].
Proof.
  destruct l as [| x t]; simpl; [reflexivity |].
  destruct (extract_max t) as [[m r] |]; [| discriminate].
  destruct (Qcleb (fst m) (fst x)); discriminate.
Qed.

Lemma extract_max_spec : forall l m r,
  extract_max l = Some (m, r) ->
  Permutation l (m :: r) /\ Forall (fun y => by_value m y) r.
Proof.
  induction l as [| x t IH]; simpl; intros m r H; [discriminate |].
  destruct (extract_max t) as [[m' r'] |] eqn:E.
  - destruct (IH _ _ eq_refl) as [P F].
    destruct (Qcleb (fst m') (fst x)) eqn:C; inversion H; subst; clear H.
    + split; [reflexivity |].
      apply Qcleb_le in C.
      rewrite Forall_forall; intros y Hy.
      assert (Hy' : In y (m' :: r')) by (eapply Permutation_in; eauto).
      destruct Hy' as [-> | Hy']; [exact C |].
      rewrite Forall_forall in F. unfold by_value, Qcge' in *.
      eapply Qcle_trans; [apply (F _ Hy') | exact C].
    + split.
      * rewrite P. apply perm_swap.
      * constructor; [apply Qcleb_false in C; exact C | exact F].
  - inversion H; subst. apply extract_max_none in E; subst.
    split; [reflexivity | constructor].
Qed.

Lemma select_leftover_perm : forall k l,
  Permutation l (select k l ++ leftover k l).
Proof.
  induction k as [| k IH]; intros l; simpl; [reflexivity |].
  destruct (extract_max l) as [[m r] |] eqn:E.
  - destruct (extract_max_spec _ E) as [P _].
    rewrite P. simpl. constructor. apply IH.
  - apply extract_max_none in E; subst; reflexivity.
Qed.

Lemma select_length : forall k l, length (select k l) = Nat.min k (length l).
Proof.
  induction k as [| k IH]; intros l; simpl; [reflexivity |].
  destruct (extract_max l) as [[m r] |] eqn:E.
  - destruct (extract_max_spec _ E) as [P _].
    apply Permutation_length in P. simpl in *. rewrite IH, P. reflexivity.
  - apply extract_max_none in E; subst; reflexivity.
Qed.

(** The selected entries come out largest first, and nothing left behind
    beats any of them. *)
Lemma select_sorted : forall k l,
  StronglySorted by_value (select k l)
  /\ Forall (fun x => Forall (by_value x) (leftover k l)) (select k l).
Proof.
  induction k as [| k IH]; intros l; simpl.
  - split; constructor.
  - destruct (extract_max l) as [[m r] |] eqn:E; [| split; constructor].
    destruct (extract_max_spec _ E) as [_ F].
    destruct (IH r) as [S1 F1].
    assert (Hall : Forall (by_value m) (select k r ++ leftover k r)).
    { rewrite Forall_forall in *. intros y Hy. apply F.
      eapply Permutation_in; [apply Permutation_sym, select_leftover_perm | exact Hy]. }
    apply Forall_app in Hall. destruct Hall as [Hs Hl].
    split; constructor; auto.
Qed.

(** ** The reference sort *)

Lemma insert_desc_perm : forall x l, Permutation (x :: l) (insert_desc x l).
Proof.
  induction l as [| y t IH]; simpl; [reflexivity |].
  destruct (Qcleb y x); [reflexivity |].
  rewrite perm_swap. constructor. exact IH.
Qed.

Lemma sort_desc_perm : forall l, Permutation l (sort_desc l).
Proof.
  induction l as [| x t IH]; simpl; [reflexivity |].
  rewrite <- insert_desc_perm. constructor. exact IH.
Qed.

Lemma insert_desc_sorted : forall x l,
  StronglySorted Qcge' l -> StronglySorted Qcge' (insert_desc x l).
Proof.
  induction l as [| y t IH]; simpl; intros S.
  - constructor; constructor.
  - inversion S as [| ? ? S' F]; subst.
    destruct (Qcleb y x) eqn:C.
    + apply Qcleb_le in C. constructor; [exact S |].
      constructor; [exact C |].
      rewrite Forall_forall in *. intros z Hz.
      unfold Qcge' in *. eapply Qcle_trans; [apply (F _ Hz) | exact C].
    + apply Qcleb_false in C. constructor; [apply IH; exact S' |].
      rewrite Forall_forall in *. intros z Hz.
      assert (Hz' : In z (x :: t))
        by (eapply Permutation_in; [apply Permutation_sym, insert_desc_perm | exact Hz]).
      destruct Hz' as [-> | Hz']; [exact C | apply F; exact Hz'].
Qed.

Lemma sort_desc_sorted : forall l, StronglySorted Qcge' (sort_desc l).
Proof.
  induction l as [| x t IH]; simpl; [constructor | apply insert_desc_sorted; exact IH].
Qed.

Lemma sorted_app : forall (l1 l2 : list Qc),
  StronglySorted Qcge' l1 -> StronglySorted Qcge' l2 ->
  Forall (fun x => Forall (Qcge' x) l2) l1 ->
  StronglySorted Qcge' (l1 ++ l2).
Proof.
  induction l1 as [| x l1 IH]; simpl; intros l2 S1 S2 F; [exact S2 |].
  inversion S1 as [| ? ? S1' F1]; subst.
  inversion F as [| ? ? Fx F']; subst.
  constructor; [apply IH; auto |].
  apply Forall_app; split; assumption.
Qed.

Lemma sorted_map_fst : forall l,
  StronglySorted by_value l -> StronglySorted Qcge' (map fst l).
Proof.
  induction 1 as [| x l S IH F]; simpl; constructor; [exact IH |].
  rewrite Forall_forall in *. intros y Hy.
  apply in_map_iff in Hy. destruct Hy as [z [<- Hz]]. apply (F _ Hz).
Qed.

(** Selecting [k] entries is sorting everything and keeping the first
    [k]. *)
Lemma select_is_sorted_top : forall k l,
  map fst (select k l) = sorted_top k (map fst l).
Proof.
  intros k l. unfold sorted_top.
  destruct (select_sorted k l) as [S F].
  set (s := map fst (select k l)).
  set (r := sort_desc (map fst (leftover k l))).
  assert (E : s ++ r = sort_desc (map fst l)).
  { apply sorted_perm_unique.
    - apply sorted_app.
      + apply sorted_map_fst; exact S.
      + apply sort_desc_sorted.
      + subst s r. rewrite Forall_forall in *. intros x Hx.
        apply in_map_iff in Hx. destruct Hx as [x' [<- Hx']].
        specialize (F _ Hx'). rewrite Forall_forall in *. intros y Hy.
        assert (Hy' : In y (map fst (leftover k l)))
          by (eapply Permutation_in; [apply Permutation_sym, sort_desc_perm | exact Hy]).
        apply in_map_iff in Hy'. destruct Hy' as [y' [<- Hy']]. apply (F _ Hy').
    - apply sort_desc_sorted.
    - subst s r. rewrite <- !sort_desc_perm, <- map_app.
      apply Permutation_map, Permutation_sym, select_leftover_perm. }
  rewrite <- E.
  assert (Hlen : length s = Nat.min k (length l))
    by (subst s; rewrite length_map; apply select_length).
  destruct (Nat.le_ge_cases k (length l)) as [Hk | Hk].
  - rewrite Nat.min_l in Hlen by exact Hk.
    rewrite firstn_app, Hlen, Nat.sub_diag, firstn_O, app_nil_r.
    rewrite <- Hlen. symmetry; apply firstn_all.
  - rewrite Nat.min_r in Hlen by exact Hk.
    assert (Hr : r = []).
    { apply (f_equal (@length Qc)) in E.
      rewrite <- (Permutation_length (sort_desc_perm _)), length_map in E.
      rewrite length_app, Hlen in E.
      destruct r; [reflexivity | simpl in E; lia]. }
    rewrite Hr, app_nil_r. symmetry; apply firstn_all2. lia.
Qed.

(** ** Tensor primitives *)

Lemma nth_error_combine : forall (A B : Type) (a : list A) (b : list B) n,
  nth_error (combine a b) n =
  match nth_error a n, nth_error b n with
  | Some x, Some y => Some (x, y)
  | _, _ => None
  end.
Proof.
  induction a as [| x a IH]; intros b n.
  - destruct n; reflexivity.
  - destruct b as [| y b]; destruct n; simpl; try reflexivity.
    + destruct (nth_error a n); reflexivity.
    + apply IH.
Qed.

Lemma cat1_inv : forall (A : Type) (a b t : tensor2 A),
  cat1 a b = Ok t -> length a = length b /\ t = join_rows a b.
Proof.
  induction a as [| ra a IH]; intros [| rb b] t H; simpl in H; try discriminate.
  - inversion H; split; reflexivity.
  - inv_bind H. inversion H; subst. destruct (IH _ _ Hstep) as [L E].
    split; [simpl; congruence | unfold join_rows in *; simpl; congruence].
Qed.

Lemma cat1_ok : forall (A : Type) (a b : tensor2 A),
  length a = length b -> cat1 a b = Ok (join_rows a b).
Proof.
  induction a as [| ra a IH]; intros [| rb b] L; simpl in L; try discriminate.
  - reflexivity.
  - simpl. rewrite IH by congruence. reflexivity.
Qed.

Lemma nth_error_join_rows : forall (A : Type) (a b : tensor2 A) L ra rb,
  nth_error a L = Some ra -> nth_error b L = Some rb ->
  nth_error (join_rows a b) L = Some (ra ++ rb).
Proof.
  intros A a b L ra rb Ha Hb. unfold join_rows.
  rewrite nth_error_map, nth_error_combine, Ha, Hb. reflexivity.
Qed.

Lemma join_rows_length : forall (A : Type) (a b : tensor2 A),
  length a = length b -> length (join_rows a b) = length a.
Proof.
  intros A a b L. unfold join_rows. rewrite length_map, length_combine. lia.
Qed.

Lemma topk_row_inv : forall k row v p,
  topk_row k row = Ok (v, p) ->
  k <= length row /\ v = sorted_top k row /\ p = map snd (selected k row).
Proof.
  unfold topk_row; intros k row v p H.
  destruct (length row <? k) eqn:E; [discriminate |].
  apply Nat.ltb_ge in E. rewrite split_maps in H. inversion H; subst.
  split; [exact E |]. split; [| reflexivity].
  rewrite select_is_sorted_top. f_equal.
  unfold positions. clear. generalize 0.
  induction row as [| x row IH]; intros n; simpl; [reflexivity |].
  f_equal. apply IH.
Qed.

Lemma topk_row_ok : forall k row,
  k <= length row ->
  topk_row k row = Ok (sorted_top k row, map snd (selected k row)).
Proof.
  intros k row Hk.
  destruct (topk_row k row) as [[v p] | e] eqn:E.
  - destruct (topk_row_inv _ _ E) as [_ [-> ->]]. reflexivity.
  - unfold topk_row in E. apply Nat.ltb_ge in Hk. rewrite Hk in E. discriminate.
Qed.

Lemma topk_inv : forall t k v p,
  topk t k = Ok (v, p) ->
  Forall (fun row => k <= length row) t
  /\ v = map (sorted_top k) t
  /\ p = map (fun row => map snd (selected k row)) t.
Proof.
  unfold topk; intros t k v p H. inv_bind H.
  rewrite split_maps in H. inversion H; subst; clear H.
  apply mapM_ok_inv in Hstep.
  induction Hstep as [| row [v p] t rows Hrow _ IH]; simpl.
  - repeat split; constructor.
  - destruct IH as [F [Ev Ep]]. destruct (topk_row_inv _ _ Hrow) as [Hk [-> ->]].
    simpl. repeat split; [constructor; assumption | congruence | congruence].
Qed.

Lemma topk_ok : forall t k,
  Forall (fun row => k <= length row) t ->
  topk t k = Ok (map (sorted_top k) t,
                 map (fun row => map snd (selected k row)) t).
Proof.
  intros t k F. unfold topk.
  rewrite (mapM_ok (topk_row k)
             (fun row => (sorted_top k row, map snd (selected k row)))).
  - simpl. rewrite split_maps, !map_map. reflexivity.
  - rewrite Forall_forall in *. intros row Hrow. apply topk_row_ok, F, Hrow.
Qed.

Lemma gather_row_inv : forall (A : Type) (row : list A) idx out,
  gather_row row idx = Ok out ->
  Forall2 (fun j a => nth_error row j = Some a) idx out.
Proof.
  unfold gather_row; intros A row idx out H. apply mapM_ok_inv in H.
  induction H as [| j a idx out Hj _ IH]; constructor; [| exact IH].
  destruct (nth_error row j); [inversion Hj; reflexivity | discriminate].
Qed.

Lemma gather_row_ok : forall (A : Type) (row : list A) idx,
  Forall (fun j => j < length row) idx ->
  exists out, gather_row row idx = Ok out.
Proof.
  unfold gather_row; intros A row idx F.
  induction F as [| j idx Hj _ [out IH]]; simpl; [eauto |].
  destruct (nth_error row j) as [a |] eqn:E.
  - simpl. rewrite IH. simpl. eauto.
  - apply nth_error_None in E. lia.
Qed.

(** Row-wise reading of a gather that returned. *)
Lemma gather1_inv : forall (A : Type) (t : tensor2 A) idx out,
  gather1 t idx = Ok out ->
  length idx = length t /\ length out = length t /\
  forall L r i o,
    nth_error t L = Some r -> nth_error idx L = Some i ->
    nth_error out L = Some o ->
    Forall2 (fun j a => nth_error r j = Some a) i o.
Proof.
  induction t as [| r t IH]; intros [| i idx] out H; simpl in H; try discriminate.
  - inversion H; subst. repeat split; try reflexivity.
    intros [| L] ? ? ? ?; discriminate.
  - inv_bind H. inv_bind H. inversion H; subst; clear H.
    destruct (IH _ _ Hstep0) as [L1 [L2 R]].
    repeat split; simpl; try congruence.
    intros [| L] r' i' o' Hr Hi Ho; simpl in *.
    + inversion Hr; inversion Hi; inversion Ho; subst.
      apply gather_row_inv; exact Hstep.
    + eapply R; eauto.
Qed.

Lemma gather1_ok : forall (A : Type) (t : tensor2 A) idx,
  Forall2 (fun r i => Forall (fun j => j < length r) i) t idx ->
  exists out, gather1 t idx = Ok out.
Proof.
  induction 1 as [| r i t idx Hri _ [out IH]]; simpl; [eauto |].
  destruct (gather_row_ok _ Hri) as [o Ho].
  rewrite Ho; simpl. rewrite IH; simpl. eauto.
Qed.

(** Every selected entry is an entry of the row, at the position it
    carries. *)
Lemma selected_in_row : forall k row v j,
  In (v, j) (selected k row) -> nth_error row j = Some v.
Proof.
  unfold selected; intros k row v j H.
  assert (Hin : In (v, j) (combine row (positions row))).
  { eapply Permutation_in; [apply Permutation_sym, select_leftover_perm |].
    apply in_or_app; left; exact H. }
  clear H. unfold positions in Hin.
  assert (G : forall (l : list Qc) n, In (v, j) (combine l (seq n (length l))) ->
              n <= j /\ nth_error l (j - n) = Some v).
  { induction l as [| x l IH]; intros n Hl; simpl in Hl; [contradiction |].
    destruct Hl as [Hl | Hl].
    - inversion Hl; subst. rewrite Nat.sub_diag. split; [lia | reflexivity].
    - destruct (IH _ Hl) as [Hle Hn]. split; [lia |].
      replace (j - n) with (S (j - S n)) by lia. exact Hn. }
  destruct (G _ _ Hin) as [_ Hn]. rewrite Nat.sub_0_r in Hn. exact Hn.
Qed.

(** ** get_new_top_k *)

Lemma get_new_top_k_inv : forall fv fi sv si k nv ni,
  get_new_top_k fv fi sv si k = Ok (nv, ni) ->
  length fv = length sv /\
  nv = map (sorted_top k) (join_rows fv sv) /\
  Forall (fun row => k <= length row) (join_rows fv sv) /\
  gather1 (join_rows fi si)
          (map (fun row => map snd (selected k row)) (join_rows fv sv)) = Ok ni /\
  length fi = length si.
Proof.
  unfold get_new_top_k; intros fv fi sv si k nv ni H.
  inv_bind H. inv_bind H. inv_bind H. destruct a1 as [v p].
  inv_bind H. inversion H; subst; clear H.
  destruct (cat1_inv _ _ Hstep) as [L1 ->].
  destruct (cat1_inv _ _ Hstep0) as [L2 ->].
  destruct (topk_inv _ _ Hstep1) as [F [-> ->]].
  repeat split; assumption.
Qed.

Lemma selected_values : forall k row,
  map fst (selected k row) = sorted_top k row.
Proof.
  intros k row. unfold selected. rewrite select_is_sorted_top. f_equal.
  unfold positions. generalize 0.
  induction row as [| x row IH]; intros n; simpl; [reflexivity |].
  f_equal. apply IH.
Qed.

Lemma Forall2_of_nth_error : forall (A B : Type) (P : A -> B -> Prop) l1 l2,
  length l1 = length l2 ->
  (forall n a b, nth_error l1 n = Some a -> nth_error l2 n = Some b -> P a b) ->
  Forall2 P l1 l2.
Proof.
  induction l1 as [| a l1 IH]; intros [| b l2] L H; simpl in L; try discriminate.
  - constructor.
  - constructor.
    + apply (H 0); reflexivity.
    + apply IH; [congruence |]. intros n; apply (H (S n)).
Qed.

Lemma sorted_top_length : forall k row,
  k <= length row -> length (sorted_top k row) = k.
Proof.
  intros k row Hk. unfold sorted_top.
  rewrite length_firstn, <- (Permutation_length (sort_desc_perm row)). lia.
Qed.

Lemma Forall_nth_error : forall (A : Type) (P : A -> Prop) l n a,
  Forall P l -> nth_error l n = Some a -> P a.
Proof.
  intros A P l n a F H. rewrite Forall_forall in F.
  apply F. eapply nth_error_In; exact H.
Qed.

(** Under the shapes of the accumulation the merge returns. *)
Lemma get_new_top_k_ok : forall k fv fi sv si,
  length sv = length fv -> length fi = length fv -> length si = length fv ->
  (forall L f s a b,
      nth_error fv L = Some f -> nth_error sv L = Some s ->
      nth_error fi L = Some a -> nth_error si L = Some b ->
      k <= length (f ++ s) /\ length (a ++ b) = length (f ++ s)) ->
  exists nv ni, get_new_top_k fv fi sv si k = Ok (nv, ni).
Proof.
  intros k fv fi sv si L1 L2 L3 Hrows. unfold get_new_top_k.
  rewrite (cat1_ok fv sv) by congruence. simpl.
  rewrite (cat1_ok fi si) by congruence. simpl.
  assert (Hget : forall L row, nth_error (join_rows fv sv) L = Some row ->
            exists f s a b, row = f ++ s /\ nth_error fv L = Some f /\
              nth_error sv L = Some s /\ nth_error fi L = Some a /\
              nth_error si L = Some b).
  { intros L row Hrow. unfold join_rows in Hrow.
    rewrite nth_error_map, nth_error_combine in Hrow.
    destruct (nth_error fv L) as [f |] eqn:Ef; [| discriminate].
    destruct (nth_error sv L) as [s |] eqn:Es; [| discriminate].
    assert (HL : L < length fv) by (apply nth_error_Some; congruence).
    destruct (nth_error fi L) as [a |] eqn:Ea;
      [| apply nth_error_None in Ea; lia].
    destruct (nth_error si L) as [b |] eqn:Eb;
      [| apply nth_error_None in Eb; lia].
    inversion Hrow; subst. exists f, s, a, b. auto. }
  rewrite topk_ok.
  - simpl.
    destruct (@gather1_ok nat (join_rows fi si)
                (map (fun row => map snd (selected k row)) (join_rows fv sv)))
      as [ni Hni].
    + apply Forall2_of_nth_error.
      * rewrite length_map, !join_rows_length by congruence. congruence.
      * intros L r i Hr Hi. rewrite nth_error_map in Hi.
        destruct (nth_error (join_rows fv sv) L) as [row |] eqn:Erow;
          [| discriminate].
        inversion Hi; subst; clear Hi.
        destruct (Hget _ _ Erow) as [f [s [a [b [-> [Hf [Hs [Ha Hb]]]]]]]].
        rewrite (nth_error_join_rows _ _ _ Ha Hb) in Hr. inversion Hr; subst.
        destruct (Hrows _ _ _ _ _ Hf Hs Ha Hb) as [_ Hlen].
        rewrite Forall_forall. intros j Hj.
        apply in_map_iff in Hj. destruct Hj as [[v j'] [<- Hin]].
        apply selected_in_row in Hin. simpl. rewrite Hlen.
        apply nth_error_Some. congruence.
    + rewrite Hni. simpl. eauto.
  - rewrite Forall_forall. intros row Hin.
    apply In_nth_error in Hin. destruct Hin as [L Hrow].
    destruct (Hget _ _ Hrow) as [f [s [a [b [-> [Hf [Hs [Ha Hb]]]]]]]].
    apply (Hrows _ _ _ _ _ Hf Hs Ha Hb).
Qed.

(** Row [L] of a merge that returned: the values are the sorted top [k] of
    the joined row, and every new index sits next to its value in the joined
    rows. *)
Lemma get_new_top_k_row : forall k fv fi sv si nv ni L f s a b,
  get_new_top_k fv fi sv si k = Ok (nv, ni) ->
  nth_error fv L = Some f -> nth_error sv L = Some s ->
  nth_error fi L = Some a -> nth_error si L = Some b ->
  nth_error nv L = Some (sorted_top k (f ++ s)) /\
  exists irow,
    nth_error ni L = Some irow /\
    Forall2 (fun v i => In (v, i) (combine (f ++ s) (a ++ b)))
            (sorted_top k (f ++ s)) irow.
Proof.
  intros k fv fi sv si nv ni L f s a b H Hf Hs Ha Hb.
  destruct (get_new_top_k_inv _ _ _ _ _ H) as [L1 [-> [F [G L2]]]].
  pose proof (nth_error_join_rows _ _ _ Hf Hs) as Hrow.
  pose proof (nth_error_join_rows _ _ _ Ha Hb) as Hirow.
  split; [rewrite nth_error_map, Hrow; reflexivity |].
  destruct (gather1_inv _ _ G) as [G1 [G2 G3]].
  destruct (nth_error ni L) as [irow |] eqn:Ei.
  - exists irow. split; [reflexivity |].
    assert (Hp : nth_error (map (fun row => map snd (selected k row))
                                (join_rows fv sv)) L
                 = Some (map snd (selected k (f ++ s))))
      by (rewrite nth_error_map, Hrow; reflexivity).
    specialize (G3 _ _ _ _ Hirow Hp Ei).
    rewrite <- selected_values.
    assert (Hsel : Forall (fun e => nth_error (f ++ s) (snd e) = Some (fst e))
                          (selected k (f ++ s))).
    { rewrite Forall_forall. intros [v j] Hin. apply selected_in_row in Hin.
      exact Hin. }
    clear Ei. revert irow G3 Hsel. generalize (selected k (f ++ s)). clear.
    induction l as [| [v j] l IH]; intros irow G3 Hsel; simpl in *.
    + inversion G3; constructor.
    + inversion G3 as [| ? i ? irow' Hj G3']; subst.
      inversion Hsel as [| ? ? Hv Hsel']; subst. simpl in Hv.
      constructor; [| apply IH; auto].
      apply (@nth_error_In _ (combine (f ++ s) (a ++ b)) j).
      rewrite nth_error_combine, Hv, Hj. reflexivity.
  - apply nth_error_None in Ei.
    assert (L < length (join_rows fi si)) by (apply nth_error_Some; congruence).
    lia.
Qed.

(** C1.  Merging two top-k tables of [k] columns each, over the same
    latents, returns; and for every latent the new value row holds the same
    multiset of values as the first [k] entries of the joined [k + k] values
    sorted largest first.  Every new index is the index that stood next to
    its value in the joined rows. *)
Theorem merge_equals_sorted_union :
  forall (k : nat) (first_values second_values : tensor2 Qc)
         (first_indices second_indices : tensor2 nat),
    length second_values = length first_values ->
    length first_indices = length first_values ->
    length second_indices = length first_values ->
    Forall (fun r => length r = k) first_values ->
    Forall (fun r => length r = k) second_values ->
    Forall (fun r => length r = k) first_indices ->
    Forall (fun r => length r = k) second_indices ->
    exists new_values new_indices,
      get_new_top_k first_values first_indices
                    second_values second_indices k
        = Ok (new_values, new_indices) /\
      forall L f s a b,
        nth_error first_values L = Some f ->
        nth_error second_values L = Some s ->
        nth_error first_indices L = Some a ->
        nth_error second_indices L = Some b ->
        exists row irow,
          nth_error new_values L = Some row /\
          nth_error new_indices L = Some irow /\
          length row = k /\
          Permutation row (sorted_top k (f ++ s)) /\
          Forall2 (fun v i => In (v, i) (combine (f ++ s) (a ++ b))) row irow.
Proof.
  intros k fv sv fi si L1 L2 L3 Ff Fs Fa Fb.
  assert (Hshape : forall L f s a b,
            nth_error fv L = Some f -> nth_error sv L = Some s ->
            nth_error fi L = Some a -> nth_error si L = Some b ->
            k <= length (f ++ s) /\ length (a ++ b) = length (f ++ s)).
  { intros L f s a b Hf Hs Ha Hb.
    pose proof (@Forall_nth_error _ _ _ _ _ Ff Hf).
    pose proof (@Forall_nth_error _ _ _ _ _ Fs Hs).
    pose proof (@Forall_nth_error _ _ _ _ _ Fa Ha).
    pose proof (@Forall_nth_error _ _ _ _ _ Fb Hb).
    simpl in *. rewrite !length_app. lia. }
  destruct (@get_new_top_k_ok k fv fi sv si L1 L2 L3 Hshape) as [nv [ni H]].
  exists nv, ni. split; [exact H |].
  intros L f s a b Hf Hs Ha Hb.
  destruct (@get_new_top_k_row k fv fi sv si nv ni L f s a b H Hf Hs Ha Hb)
    as [Hrow [irow [Hi Hpairs]]].
  exists (sorted_top k (f ++ s)), irow.
  repeat split; auto.
  apply sorted_top_length. apply (Hshape _ _ _ _ _ Hf Hs Ha Hb).
Qed.


Lemma merge_equals_sorted_union_witness :
  exists new_values new_indices,
    get_new_top_k [[Qc_of_Z 3; Qc_of_Z 1]] [[0; 1]]
                  [[Qc_of_Z 5; Qc_of_Z 2]] [[7; 8]] 2
      = Ok (new_values, new_indices).
Proof.
  destruct (@merge_equals_sorted_union 2
              [[Qc_of_Z 3; Qc_of_Z 1]] [[Qc_of_Z 5; Qc_of_Z 2]]
              [[0; 1]] [[7; 8]])
    as [nv [ni [H _]]];
    [reflexivity | reflexivity | reflexivity
     | repeat constructor | repeat constructor
     | repeat constructor | repeat constructor |].
  exists nv, ni. exact H.
Defined.

(** ** The descending invariant *)

Lemma sorted_firstn : forall k (l : list Qc),
  StronglySorted Qcge' l -> StronglySorted Qcge' (firstn k l).
Proof.
  induction k as [| k IH]; intros l S; simpl; [constructor |].
  destruct l as [| x l]; [constructor |].
  inversion S as [| ? ? S' F]; subst. constructor; [apply IH; exact S' |].
  rewrite Forall_forall in *. intros y Hy. apply F.
  rewrite <- (firstn_skipn k l). apply in_or_app; left; exact Hy.
Qed.

Lemma sorted_nth_error : forall (l : list Qc) r1 r2 v1 v2,
  StronglySorted Qcge' l -> r1 < r2 ->
  nth_error l r1 = Some v1 -> nth_error l r2 = Some v2 ->
  (v2 <= v1)%Qc.
Proof.
  induction l as [| x l IH]; intros r1 r2 v1 v2 S Hr H1 H2.
  - destruct r1; discriminate.
  - inversion S as [| ? ? S' F]; subst.
    destruct r2 as [| r2]; [lia |]. simpl in H2.
    destruct r1 as [| r1]; simpl in H1.
    + inversion H1; subst. rewrite Forall_forall in F.
      apply F. eapply nth_error_In; exact H2.
    + apply (IH r1 r2 v1 v2 S' ltac:(lia) H1 H2).
Qed.

Lemma descending_sorted_rows : forall values,
  Forall (StronglySorted Qcge') values -> descending values.
Proof.
  intros values F L r1 r2 row v1 v2 Hrow Hr H1 H2.
  eapply sorted_nth_error; eauto.
  eapply Forall_nth_error; eauto.
Qed.

Lemma zeros_descending : forall d k, descending (zeros2 0%Qc d k).
Proof.
  intros d k L r1 r2 row v1 v2 Hrow _ H1 H2.
  apply nth_error_In, repeat_spec in Hrow. subst row.
  apply nth_error_In, repeat_spec in H1.
  apply nth_error_In, repeat_spec in H2. subst. apply Qcle_refl.
Qed.

(** Whatever it is given, a merge that returns hands back rows sorted
    largest first. *)
Lemma get_new_top_k_descending : forall fv fi sv si k nv ni,
  get_new_top_k fv fi sv si k = Ok (nv, ni) -> descending nv.
Proof.
  intros fv fi sv si k nv ni H.
  destruct (get_new_top_k_inv _ _ _ _ _ H) as [_ [-> _]].
  apply descending_sorted_rows. rewrite Forall_forall. intros row Hrow.
  apply in_map_iff in Hrow. destruct Hrow as [r [<- _]].
  apply sorted_firstn, sort_desc_sorted.
Qed.

(** C2.  A top-k table that starts as the zero table and is only ever
    replaced by the result of a merge keeps every value row sorted largest
    first: [values[L, r1] >= values[L, r2]] for all latents [L] and ranks
    [r1 < r2]. *)
Theorem accumulated_descending : forall d k t,
  accumulated d k t -> descending (tbl_values t).
Proof.
  intros d k t H. induction H as [| t values indices nv ni _ _ Hm]; simpl.
  - apply zeros_descending.
  - eapply get_new_top_k_descending; exact Hm.
Qed.

Lemma accumulated_descending_witness :
  descending [[Qc_of_Z 9; Qc_of_Z 4]].
Proof.
  apply (@accumulated_descending 1 2
           (mk_table [[Qc_of_Z 9; Qc_of_Z 4]] [[1; 0]])).
  apply (@acc_merge 1 2 (mk_table (zeros2 0%Qc 1 2) (zeros2 0 1 2))
           [[Qc_of_Z 4; Qc_of_Z 9]] [[0; 1]]).
  - apply acc_zero.
  - vm_compute. reflexivity.
Defined.

(** ** Mini batches *)

Lemma firstn_add : forall (A : Type) a b (l : list A),
  firstn (a + b) l = firstn a l ++ firstn b (skipn a l).
Proof.
  induction a as [| a IH]; intros b l; simpl; [reflexivity |].
  destruct l as [| x l]; simpl.
  - rewrite firstn_nil. reflexivity.
  - rewrite IH. reflexivity.
Qed.

Lemma full_batches_concat : forall (A : Type) (B : nat) (xs : list A) q,
  concat (map (fun m => py_slice (m * B) ((m + 1) * B) xs) (seq 0 q))
  = firstn (q * B) xs.
Proof.
  intros A B xs. induction q as [| q IH]; [reflexivity |].
  rewrite seq_S, map_app, concat_app, IH. simpl.
  rewrite app_nil_r. unfold py_slice.
  replace ((q + 1) * B - q * B) with B by nia.
  replace (B + q * B) with (q * B + B) by lia.
  symmetry; apply firstn_add.
Qed.

(** The batches, put end to end, are the input: nothing is left out and
    nothing is taken twice. *)
Lemma mini_batches_concat : forall (A : Type) (B : nat) (xs : list A),
  0 < B -> concat (mini_batches B xs) = xs.
Proof.
  intros A B xs HB. unfold mini_batches.
  rewrite concat_app, full_batches_concat.
  pose proof (Nat.div_mod_eq (length xs) B) as E.
  destruct (0 <? length xs mod B) eqn:R.
  - simpl. rewrite app_nil_r. unfold py_tail.
    replace (length xs - length xs mod B) with (length xs / B * B) by nia.
    apply firstn_skipn.
  - apply Nat.ltb_ge in R. simpl. rewrite app_nil_r.
    apply firstn_all2. nia.
Qed.

Lemma mini_batches_count : forall (A : Type) (B : nat) (xs : list A),
  length (mini_batches B xs)
  = length xs / B + (if 0 <? length xs mod B then 1 else 0).
Proof.
  intros A B xs. unfold mini_batches.
  rewrite length_app, length_map, length_seq.
  destruct (0 <? length xs mod B); reflexivity.
Qed.

(** Every full batch has [B] entries, the last batch the remainder. *)
Lemma mini_batches_sizes : forall (A : Type) (B : nat) (xs : list A) m b,
  0 < B -> nth_error (mini_batches B xs) m = Some b ->
  (m < length xs / B /\ length b = B /\ b = py_slice (m * B) ((m + 1) * B) xs)
  \/ (m = length xs / B /\ 0 < length xs mod B
      /\ length b = length xs mod B /\ b = py_tail (length xs mod B) xs).
Proof.
  intros A B xs m b HB H. unfold mini_batches in H.
  pose proof (Nat.div_mod_eq (length xs) B) as E.
  pose proof (Nat.mod_upper_bound (length xs) B ltac:(lia)) as U.
  destruct (Nat.lt_ge_cases m (length xs / B)) as [Hm | Hm].
  - left. rewrite nth_error_app1 in H by (rewrite length_map, length_seq; exact Hm).
    rewrite nth_error_map, nth_error_seq in H.
    apply Nat.ltb_lt in Hm. rewrite Hm in H. apply Nat.ltb_lt in Hm.
    simpl in H. inversion H; subst; clear H.
    repeat split; [exact Hm |].
    unfold py_slice. rewrite length_firstn, length_skipn. nia.
  - right. rewrite nth_error_app2 in H by (rewrite length_map, length_seq; exact Hm).
    rewrite length_map, length_seq in H.
    destruct (0 <? length xs mod B) eqn:R.
    + apply Nat.ltb_lt in R.
      destruct (m - length xs / B) as [| n] eqn:En; simpl in H.
      * inversion H; subst; clear H. repeat split; [lia | exact R |].
        unfold py_tail. rewrite length_skipn. lia.
      * destruct n; discriminate.
    + destruct (m - length xs / B); discriminate.
Qed.

Section ForwardPass.

Variable Image : Type.
Variable vit : Image -> list Qc.
Variable sae : list Qc -> list Qc.

(** For a positive batch size and a non-empty input the driver returns one
    activation row per image, in input order. *)
Lemma get_all_model_activations_ok : forall (cfg : config) (images : list Image),
  0 < max_batch_size_for_vit_forward_pass cfg -> images <> [] ->
  get_all_model_activations vit images cfg = Ok (map vit images).
Proof.
  intros cfg images HB Hne. unfold get_all_model_activations.
  destruct (max_batch_size_for_vit_forward_pass cfg =? 0) eqn:E;
    [apply Nat.eqb_eq in E; lia |].
  set (B := max_batch_size_for_vit_forward_pass cfg) in *.
  pose proof (mini_batches_concat images HB) as C.
  destruct (mini_batches B images) as [| b bs] eqn:M.
  - simpl in C. congruence.
  - unfold cat0. simpl map at 1.
    rewrite <- C, concat_map. reflexivity.
Qed.

Lemma get_sae_activations_ok : forall (cfg : config) (rows : tensor2 Qc),
  0 < max_batch_size_for_vit_forward_pass cfg -> rows <> [] ->
  get_sae_activations sae rows cfg = Ok (map sae rows).
Proof.
  intros cfg rows HB Hne. unfold get_sae_activations.
  destruct (max_batch_size_for_vit_forward_pass cfg =? 0) eqn:E;
    [apply Nat.eqb_eq in E; lia |].
  set (B := max_batch_size_for_vit_forward_pass cfg) in *.
  pose proof (mini_batches_concat rows HB) as C.
  destruct (mini_batches B rows) as [| b bs] eqn:M.
  - simpl in C. congruence.
  - unfold cat0. simpl map at 1.
    rewrite <- C, concat_map. reflexivity.
Qed.

(** C3.  When the batch size [B] does not divide the number [N] of
    images, the driver cuts the list into [N / B] full batches followed by
    one batch of the last [N mod B] images; the batches put end to end are
    the input list (no image dropped, none taken twice), and the
    concatenated output is one activation row per image, in input order,
    hence [N] rows. *)
Theorem partial_batch_is_processed : forall (cfg : config) (images : list Image),
  let B := max_batch_size_for_vit_forward_pass cfg in
  0 < B ->
  length images mod B <> 0 ->
  concat (mini_batches B images) = images /\
  length (mini_batches B images) = length images / B + 1 /\
  nth_error (mini_batches B images) (length images / B)
    = Some (py_tail (length images mod B) images) /\
  length (py_tail (length images mod B) images) = length images mod B /\
  get_all_model_activations vit images cfg = Ok (map vit images) /\
  length (map vit images) = length images.
Proof.
  intros cfg images B HB Hrem.
  assert (Hne : images <> []) by (intros ->; simpl in Hrem; rewrite Nat.Div0.mod_0_l in Hrem; lia).
  assert (R : (0 <? length images mod B) = true) by (apply Nat.ltb_lt; lia).
  split; [apply mini_batches_concat; exact HB |].
  split; [rewrite mini_batches_count, R; reflexivity |].
  split.
  { unfold mini_batches. rewrite R.
    rewrite nth_error_app2 by (rewrite length_map, length_seq; lia).
    rewrite length_map, length_seq, Nat.sub_diag. reflexivity. }
  split.
  { unfold py_tail. rewrite length_skipn.
    pose proof (Nat.Div0.mod_le (length images) B). lia. }
  split; [apply get_all_model_activations_ok; assumption | apply length_map].
Qed.

End ForwardPass.

Lemma partial_batch_is_processed_witness :
  get_all_model_activations (fun n : nat => [Qc_of_nat n]) [10; 11; 12]
                            (mk_config 1 2)
  = Ok [[Qc_of_nat 10]; [Qc_of_nat 11]; [Qc_of_nat 12]].
Proof.
  destruct (@partial_batch_is_processed nat (fun n : nat => [Qc_of_nat n])
              (mk_config 1 2) [10; 11; 12])
    as [_ [_ [_ [_ [H _]]]]]; [simpl; lia | simpl; lia |].
  exact H.
Defined.

(** ** The highlight renderer *)

Section Renderer.

Variable VImage : Type.
Variable width height : VImage -> nat.
Variable addalpha : VImage -> VImage.
Variable composite_over : VImage -> VImage -> VImage.
Variable new_from_array : list (list rgba) -> VImage.

Lemma paint_patches_none : forall g pw ph idx val rest overlay,
  paint_patches None g pw ph idx (val :: rest) overlay = Raise AssertionError.
Proof. reflexivity. Qed.

Lemma to_uint8_only : forall z e, to_uint8 z = Raise e -> e = OverflowError.
Proof.
  intros z e H. unfold to_uint8 in H.
  destruct ((0 <=? z) && (z <=? 255))%Z; [discriminate |].
  inversion H; reflexivity.
Qed.

Lemma patch_cell_only : forall val e, patch_cell val = Raise e -> e = OverflowError.
Proof.
  intros val e H. unfold patch_cell in H.
  destruct (to_uint8 (py_int (Qc_of_Z 255 * val))) as [r | e1] eqn:E1; simpl in H.
  - destruct (to_uint8 (py_int (Qc_of_Z 128 * val))) as [a | e2] eqn:E2;
      simpl in H; [discriminate |].
    inversion H; subst. exact (to_uint8_only _ E2).
  - inversion H; subst. exact (to_uint8_only _ E1).
Qed.

(** With an upper bound the loop has no assertion left to fail. *)
Lemma paint_patches_some_no_assert : forall u g pw ph patches idx overlay,
  paint_patches (Some u) g pw ph idx patches overlay <> Raise AssertionError.
Proof.
  induction patches as [| val rest IH]; intros idx overlay; simpl.
  - discriminate.
  - destruct (Qceqb (u + eps) 0).
    + destruct (Qceqb val 0); discriminate.
    + destruct (patch_cell (val / (u + eps))) as [cell | e] eqn:E; simpl.
      * apply IH.
      * rewrite (patch_cell_only _ E). discriminate.
Qed.

(** C10.  With a non-empty patch vector and no upper bound the renderer
    always stops on a failed assertion: one of the two grid assertions,
    or else [assert upper is not None] in the first pass of the loop.  So
    a call on a non-empty vector that returns an image was given an upper
    bound. *)
Theorem missing_upper_fails_assertion : forall (img : VImage) (patches : list Qc),
  patches <> [] ->
  add_highlights width height addalpha composite_over new_from_array img patches None = Raise AssertionError /\
  (forall upper out, add_highlights width height addalpha composite_over new_from_array img patches upper = Ok out ->
                     exists u, upper = Some u).
Proof.
  intros img patches Hne.
  assert (H : add_highlights width height addalpha composite_over new_from_array img patches None = Raise AssertionError).
  { unfold add_highlights.
    destruct patches as [| val rest]; [contradiction |].
    change (length (val :: rest) =? 0) with false. cbv iota.
    destruct (negb _); [reflexivity |].
    destruct (negb _); reflexivity. }
  split; [exact H |].
  intros [u |] out Hout; [eauto | congruence].
Qed.

(** C7, as the code has it.  On a non-empty patch vector the renderer
    stops on a failed assertion exactly when the patch count [n] is not
    the square of [g = isqrt n], or the two floor quotients [width / g]
    and [height / g] differ, or no upper bound was given.  So when [n] is
    a square, the two quotients agree and an upper bound is given, no
    assertion fires. *)
Theorem grid_assertions : forall (img : VImage) (patches : list Qc) (upper : option Qc),
  patches <> [] ->
  let n := length patches in
  let g := Nat.sqrt n in
  add_highlights width height addalpha composite_over new_from_array img patches upper = Raise AssertionError <->
  (g * g <> n \/ width img / g <> height img / g \/ upper = None).
Proof.
  intros img patches upper Hne n g.
  assert (Hn : (length patches =? 0) = false)
    by (destruct patches; [contradiction | reflexivity]).
  unfold add_highlights. rewrite Hn. fold n. fold g.
  destruct (Nat.eqb_spec (g * g) n) as [Hg | Hg]; simpl.
  - destruct (Nat.eqb_spec (width img / g) (height img / g)) as [Hp | Hp]; simpl.
    + destruct upper as [u |].
      * split.
        -- intro H. exfalso.
           destruct (paint_patches (Some u) g (width img / g) (height img / g)
                       0 patches (np_zeros (width img) (height img)))
             as [ov | e] eqn:E; simpl in H; [discriminate |].
           inversion H; subst.
           exact (@paint_patches_some_no_assert _ _ _ _ _ _ _ E).
        -- intros [H | [H | H]]; [contradiction | contradiction | discriminate].
      * destruct patches as [| val rest]; [contradiction |].
        simpl. split; [auto | reflexivity].
    + split; [auto | reflexivity].
  - split; [auto | reflexivity].
Qed.

(** *** All-zero activations *)

Lemma on_slice_id : forall (A : Type) (f : A -> A) a n (l : list A),
  Forall (fun x => f x = x) l -> on_slice a n f l = l.
Proof.
  intros A f a n l F. unfold on_slice.
  assert (E : map f (firstn n (skipn a l)) = firstn n (skipn a l)).
  { rewrite <- (map_id (firstn n (skipn a l))) at 2.
    apply map_ext_in. intros x Hx. rewrite Forall_forall in F. apply F.
    rewrite <- (firstn_skipn a l). apply in_or_app; right.
    rewrite <- (firstn_skipn n (skipn a l)). apply in_or_app; left.
    exact Hx. }
  rewrite E. rewrite Nat.add_comm, <- skipn_skipn, firstn_skipn.
  apply firstn_skipn.
Qed.

Lemma np_zeros_all_zero : forall n0 n1, all_zero (np_zeros n0 n1).
Proof.
  intros n0 n1. unfold all_zero, np_zeros. rewrite Forall_forall.
  intros row Hrow. apply repeat_spec in Hrow. subst row.
  rewrite Forall_forall. intros c Hc. apply repeat_spec in Hc. exact Hc.
Qed.

Lemma paint_zero : forall y h x w overlay,
  all_zero overlay -> paint y h x w zero_cell overlay = overlay.
Proof.
  intros y h x w overlay Z. unfold paint. apply on_slice_id.
  unfold all_zero in Z. rewrite Forall_forall in *. intros row Hrow.
  apply on_slice_id. specialize (Z _ Hrow). rewrite Forall_forall in *.
  intros c Hc. symmetry. apply Z. exact Hc.
Qed.

Lemma patch_cell_zero : forall d : Qc, patch_cell (0 / d)%Qc = Ok zero_cell.
Proof.
  intros d. unfold patch_cell, Qcdiv.
  rewrite Qcmult_0_l, !Qcmult_0_r. reflexivity.
Qed.

Lemma paint_zero_patches : forall u g pw ph patches idx overlay,
  (u + eps)%Qc <> 0%Qc ->
  Forall (fun v => v = 0%Qc) patches ->
  all_zero overlay ->
  paint_patches (Some u) g pw ph idx patches overlay = Ok overlay.
Proof.
  intros u g pw ph patches idx overlay Hu F Z.
  assert (E : Qceqb (u + eps) 0 = false).
  { destruct (Qceqb (u + eps) 0) eqn:E; [| reflexivity].
    apply Qceqb_eq in E. contradiction. }
  revert idx. induction F as [| val rest Hval _ IH]; intros idx; simpl.
  - reflexivity.
  - rewrite E. subst val. rewrite patch_cell_zero. simpl bind.
    rewrite paint_zero by exact Z. apply IH.
Qed.

(** C8.  On a 4 x 4 grid of sixteen zero activations every patch written
    into the overlay is the cell [(0, 0, 0, 0)], the overlay stays the
    all-zero array, and the image returned is the original composited
    with that fully transparent overlay.  The call returns for every image
    whose width and height have the same quotient by 4 and every upper
    bound [u] with [u + 1e-9 <> 0]. *)
Theorem zero_activations_transparent_overlay : forall (img : VImage) (u : Qc),
  width img / 4 = height img / 4 ->
  (u + eps)%Qc <> 0%Qc ->
  add_highlights width height addalpha composite_over new_from_array img (repeat 0%Qc 16) (Some u)
    = Ok (composite_over (addalpha img)
            (new_from_array (np_zeros (width img) (height img)))) /\
  all_zero (np_zeros (width img) (height img)) /\
  patch_cell (0 / (u + eps))%Qc = Ok zero_cell.
Proof.
  intros img u Hq Hu. split; [| split].
  - unfold add_highlights.
    change (length (repeat 0%Qc 16)) with 16.
    change (Nat.sqrt 16) with 4.
    change (16 =? 0) with false. change (4 * 4 =? 16) with true.
    cbv iota. simpl negb at 1. cbv iota.
    rewrite Hq, Nat.eqb_refl. simpl negb. cbv iota.
    rewrite paint_zero_patches.
    + reflexivity.
    + exact Hu.
    + apply Forall_forall. intros v Hv. apply repeat_spec in Hv. exact Hv.
    + apply np_zeros_all_zero.
  - apply np_zeros_all_zero.
  - apply patch_cell_zero.
Qed.

(** *** Calls that return *)

Lemma py_int_bounds : forall (k : Z) (q : Qc),
  (0 <= q)%Qc -> (q <= Qc_of_Z k)%Qc -> (0 <= py_int q <= k)%Z.
Proof.
  intros k q H0 Hk. unfold py_int. unfold Qcle in H0, Hk.
  assert (Hk' : (this q <= inject_Z k)%Q).
  { eapply Qle_trans; [exact Hk |].
    change (this (Qc_of_Z k)) with (Qred (inject_Z k)).
    apply Qle_lteq. right. apply Qred_correct. }
  clear Hk. rename Hk' into Hk.
  change (this 0%Qc) with (0 # 1)%Q in H0.
  destruct (this q) as [n d]. unfold Qle in H0, Hk. simpl in H0, Hk. simpl.
  rewrite Z.quot_div_nonneg by lia.
  split; [apply Z.div_pos; lia | apply Z.div_le_upper_bound; lia].
Qed.

Lemma Qcinv_pos : forall d : Qc, (0 < d)%Qc -> (0 < / d)%Qc.
Proof.
  intros d H. unfold Qclt in *.
  change (this (/ d)%Qc) with (Qred (/ this d)).
  change (this 0%Qc) with (0 # 1)%Q in *.
  eapply Qlt_le_trans; [apply Qinv_lt_0_compat; exact H |].
  apply Qle_lteq. right. symmetry. apply Qred_correct.
Qed.

Lemma Qc_div_unit : forall v d : Qc,
  (0 < d)%Qc -> (0 <= v)%Qc -> (v <= d)%Qc -> (0 <= v / d)%Qc /\ (v / d <= 1)%Qc.
Proof.
  intros v d Hd H0 Hv. unfold Qcdiv.
  assert (Hi : (0 <= / d)%Qc) by (apply Qclt_le_weak, Qcinv_pos; exact Hd).
  split.
  - rewrite <- (Qcmult_0_l (/ d)). apply Qcmult_le_compat_r; assumption.
  - rewrite <- (Qcmult_inv_r d).
    + apply Qcmult_le_compat_r; assumption.
    + intro E. rewrite E in Hd. exact (Qclt_not_eq _ _ Hd eq_refl).
Qed.

Lemma Qc_scale_unit : forall (k : Z) (x : Qc),
  (0 <= k)%Z -> (0 <= x)%Qc -> (x <= 1)%Qc ->
  (0 <= Qc_of_Z k * x)%Qc /\ (Qc_of_Z k * x <= Qc_of_Z k)%Qc.
Proof.
  intros k x Hk H0 H1.
  assert (Hk' : (0 <= Qc_of_Z k)%Qc).
  { unfold Qcle.
    change (this (Qc_of_Z k)) with (Qred (inject_Z k)).
    change (this 0%Qc) with (0 # 1)%Q.
    eapply Qle_trans; [| apply Qle_lteq; right; symmetry; apply Qred_correct].
    unfold Qle. simpl. lia. }
  split.
  - rewrite Qcmult_comm, <- (Qcmult_0_l (Qc_of_Z k)).
    apply Qcmult_le_compat_r; assumption.
  - rewrite Qcmult_comm. rewrite <- (Qcmult_1_l (Qc_of_Z k)) at 2.
    apply Qcmult_le_compat_r; assumption.
Qed.

Lemma to_uint8_ok : forall z, (0 <= z <= 255)%Z -> to_uint8 z = Ok z.
Proof.
  intros z [H0 H1]. unfold to_uint8.
  rewrite (proj2 (Z.leb_le 0 z) H0), (proj2 (Z.leb_le z 255) H1). reflexivity.
Qed.

(** A normalised value between 0 and 1 fits both channels. *)
Lemma patch_cell_ok : forall x : Qc,
  (0 <= x)%Qc -> (x <= 1)%Qc -> exists cell, patch_cell x = Ok cell.
Proof.
  intros x H0 H1. unfold patch_cell.
  destruct (@Qc_scale_unit 255 x ltac:(lia) H0 H1) as [A0 A1].
  destruct (@Qc_scale_unit 128 x ltac:(lia) H0 H1) as [B0 B1].
  pose proof (py_int_bounds A0 A1) as HA.
  pose proof (py_int_bounds B0 B1) as HB.
  rewrite to_uint8_ok by lia. simpl bind.
  rewrite to_uint8_ok by lia. simpl bind. eauto.
Qed.

Lemma upper_eps_pos : forall u : Qc, (0 <= u)%Qc -> (0 < u + eps)%Qc.
Proof.
  intros u Hu. apply Qclt_le_trans with (y := eps); [reflexivity |].
  rewrite <- (Qcplus_0_l eps) at 1. apply Qcplus_le_compat; [exact Hu |].
  apply Qcle_refl.
Qed.

Lemma normalised_in_unit : forall u v : Qc,
  (0 <= v)%Qc -> (v <= u)%Qc ->
  (0 <= v / (u + eps))%Qc /\ (v / (u + eps) <= 1)%Qc.
Proof.
  intros u v H0 Hv.
  assert (Hu : (0 <= u)%Qc) by (eapply Qcle_trans; eassumption).
  apply Qc_div_unit; [apply upper_eps_pos; exact Hu | exact H0 |].
  eapply Qcle_trans; [exact Hv |].
  rewrite <- (Qcplus_0_r u) at 1. apply Qcplus_le_compat; [apply Qcle_refl |].
  apply Qclt_le_weak. reflexivity.
Qed.

(** The loop returns on values between 0 and the upper bound. *)
Lemma paint_patches_ok : forall u g pw ph patches idx overlay,
  (0 <= u)%Qc ->
  Forall (fun v => (0 <= v)%Qc /\ (v <= u)%Qc) patches ->
  exists out, paint_patches (Some u) g pw ph idx patches overlay = Ok out.
Proof.
  intros u g pw ph patches idx overlay Hu F.
  assert (E : Qceqb (u + eps) 0 = false).
  { destruct (Qceqb (u + eps) 0) eqn:E; [| reflexivity].
    apply Qceqb_eq in E. pose proof (upper_eps_pos Hu) as Hpos.
    rewrite E in Hpos. exfalso. exact (Qclt_not_eq _ _ Hpos eq_refl). }
  revert idx overlay.
  induction F as [| val rest [H0 Hv] _ IH]; intros idx overlay; simpl.
  - eauto.
  - rewrite E.
    destruct (normalised_in_unit H0 Hv) as [N0 N1].
    destruct (patch_cell_ok N0 N1) as [cell Hcell].
    rewrite Hcell. simpl bind. apply IH.
Qed.

(** The renderer returns when the grid assertions hold and every value
    lies between 0 and the upper bound. *)
Lemma add_highlights_ok : forall (img : VImage) (patches : list Qc) (u : Qc),
  Nat.sqrt (length patches) * Nat.sqrt (length patches) = length patches ->
  width img / Nat.sqrt (length patches) = height img / Nat.sqrt (length patches) ->
  (0 <= u)%Qc ->
  Forall (fun v => (0 <= v)%Qc /\ (v <= u)%Qc) patches ->
  exists out,
    add_highlights width height addalpha composite_over new_from_array
                   img patches (Some u) = Ok out.
Proof.
  intros img patches u Hsq Hq Hu F. unfold add_highlights.
  destruct (length patches =? 0); [eauto |].
  rewrite (proj2 (Nat.eqb_eq _ _) Hsq). simpl negb. cbv iota.
  rewrite Hq, Nat.eqb_refl. simpl negb. cbv iota.
  destruct (@paint_patches_ok u (Nat.sqrt (length patches))
              (height img / Nat.sqrt (length patches))
              (height img / Nat.sqrt (length patches)) patches 0
              (np_zeros (width img) (height img)) Hu F) as [ov Hov].
  rewrite Hov. simpl. eauto.
Qed.

End Renderer.

Lemma missing_upper_fails_assertion_witness :
  raster_highlights (4, 4) [Qc_of_Z 1; Qc_of_Z 0; Qc_of_Z 0; Qc_of_Z 2] None
  = Raise AssertionError.
Proof.
  apply (@missing_upper_fails_assertion raster (@fst nat nat) (@snd nat nat)
           (fun i => i) (fun base _ => base) raster_of_array
           (4, 4) [Qc_of_Z 1; Qc_of_Z 0; Qc_of_Z 0; Qc_of_Z 2]).
  discriminate.
Defined.

Lemma Qc_neq_by_eval : forall x y : Qc, Qceqb x y = false -> x <> y.
Proof.
  intros x y H E. apply Qceqb_eq in E. congruence.
Qed.

Lemma grid_assertions_witness :
  raster_highlights (4, 3) [Qc_of_Z 1; Qc_of_Z 0; Qc_of_Z 0; Qc_of_Z 2]
                    (Some (Qc_of_Z 2)) = Raise AssertionError /\
  raster_highlights (4, 4) [Qc_of_Z 1; Qc_of_Z 0; Qc_of_Z 0; Qc_of_Z 2]
                    (Some (Qc_of_Z 2)) <> Raise AssertionError.
Proof.
  split.
  - apply (proj2 (@grid_assertions raster (@fst nat nat) (@snd nat nat)
                    (fun i => i) (fun base _ => base) raster_of_array
                    (4, 3) [Qc_of_Z 1; Qc_of_Z 0; Qc_of_Z 0; Qc_of_Z 2]
                    (Some (Qc_of_Z 2)) ltac:(discriminate))).
    right. left. simpl. discriminate.
  - intros H.
    apply (proj1 (@grid_assertions raster (@fst nat nat) (@snd nat nat)
                    (fun i => i) (fun base _ => base) raster_of_array
                    (4, 4) [Qc_of_Z 1; Qc_of_Z 0; Qc_of_Z 0; Qc_of_Z 2]
                    (Some (Qc_of_Z 2)) ltac:(discriminate))) in H.
    simpl in H. destruct H as [H | [H | H]];
      [apply H; reflexivity | apply H; reflexivity | discriminate].
Defined.

(** C7 as worded fails both ways.  A 5 x 5 image does not divide into a
    2 x 2 grid of equal patches, yet with four patches and an upper bound the
    renderer returns an image: it compares [5 / 2] with [5 / 2] and never
    looks at the remainder.  And a 4 x 4 image with four patches, which does
    divide evenly, still stops on an assertion when no upper bound is
    given. *)
Lemma grid_assertions_counterexample :
  (Nat.sqrt 4 * Nat.sqrt 4 = 4 /\
   ~ divides_into_square_patches 5 5 (Nat.sqrt 4) /\
   is_ok (raster_highlights (5, 5)
            [Qc_of_Z 1; Qc_of_Z 1; Qc_of_Z 1; Qc_of_Z 1] (Some (Qc_of_Z 1)))
     = true) /\
  (divides_into_square_patches 4 4 (Nat.sqrt 4) /\
   raster_highlights (4, 4)
     [Qc_of_Z 1; Qc_of_Z 1; Qc_of_Z 1; Qc_of_Z 1] None
     = Raise AssertionError).
Proof.
  split; [split; [reflexivity | split] | split].
  - unfold divides_into_square_patches. simpl. intros [H _]. discriminate.
  - vm_compute. reflexivity.
  - unfold divides_into_square_patches. simpl. auto.
  - vm_compute. reflexivity.
Qed.

Lemma zero_activations_transparent_overlay_witness :
  raster_highlights (8, 8) (repeat 0%Qc 16) (Some (Qc_of_Z 3)) = Ok (8, 8).
Proof.
  destruct (@zero_activations_transparent_overlay raster (@fst nat nat)
              (@snd nat nat) (fun i => i) (fun base _ => base) raster_of_array
              (8, 8) (Qc_of_Z 3)) as [H _];
    [reflexivity | apply Qc_neq_by_eval; vm_compute; reflexivity |].
  exact H.
Defined.

(** ** Example assembly *)

Lemma filter_filter : forall (A : Type) (p q : A -> bool) l,
  filter p (filter q l) = filter (fun x => q x && p x) l.
Proof.
  induction l as [| x l IH]; simpl; [reflexivity |].
  destruct (q x); simpl; [destruct (p x) |]; rewrite IH; reflexivity.
Qed.

Lemma unseen_nil : forall (A : Type) (l : list (nat * A)), unseen [] l = l.
Proof.
  intros A l. unfold unseen. simpl.
  induction l as [| x l IH]; simpl; [reflexivity | rewrite IH; reflexivity].
Qed.

Lemma unseen_first_occurrences_seen : forall (A : Type) seen i (v : A) t,
  existsb (Nat.eqb i) seen = true ->
  unseen seen (first_occurrences ((i, v) :: t)) = unseen seen (first_occurrences t).
Proof.
  intros A seen i v t Hin. unfold unseen. simpl. rewrite Hin. simpl.
  rewrite filter_filter. apply filter_ext_in. intros y _.
  destruct (Nat.eqb_spec (fst y) i) as [-> | _]; simpl; [| reflexivity].
  rewrite Hin. reflexivity.
Qed.

Lemma unseen_first_occurrences_new : forall (A : Type) seen i (v : A) t,
  existsb (Nat.eqb i) seen = false ->
  unseen seen (first_occurrences ((i, v) :: t))
  = (i, v) :: unseen (i :: seen) (first_occurrences t).
Proof.
  intros A seen i v t Hin. unfold unseen. simpl. rewrite Hin. simpl.
  f_equal. rewrite filter_filter. apply filter_ext. intros y.
  rewrite negb_orb. reflexivity.
Qed.

Lemma first_occurrences_in : forall (A : Type) (l : list (nat * A)) i,
  In i (map fst (first_occurrences l)) <-> In i (map fst l).
Proof.
  induction l as [| [j v] t IH]; intros i; simpl; [tauto |].
  rewrite <- IH. split.
  - intros [H | H]; [left; exact H | right].
    apply in_map_iff in H. destruct H as [y [Hy Hin]].
    apply filter_In in Hin. apply in_map_iff. exists y. tauto.
  - intros [H | H]; [left; exact H |].
    destruct (Nat.eq_dec j i) as [E | E]; [left; exact E | right].
    apply in_map_iff in H. destruct H as [y [Hy Hin]].
    apply in_map_iff. exists y. split; [exact Hy |].
    apply filter_In. split; [exact Hin |]. simpl.
    apply negb_true_iff, Nat.eqb_neq. congruence.
Qed.

Lemma NoDup_map_filter : forall (A B : Type) (f : A -> B) (p : A -> bool) l,
  NoDup (map f l) -> NoDup (map f (filter p l)).
Proof.
  induction l as [| x l IH]; simpl; intros H; [constructor |].
  inversion H as [| ? ? Hx H']; subst.
  destruct (p x); simpl; [| apply IH; exact H'].
  constructor; [| apply IH; exact H'].
  intro Hin. apply Hx. apply in_map_iff in Hin. destruct Hin as [y [Hy Hin]].
  apply filter_In in Hin. apply in_map_iff. exists y. tauto.
Qed.

Lemma first_occurrences_nodup : forall (A : Type) (l : list (nat * A)),
  NoDup (map fst (first_occurrences l)).
Proof.
  induction l as [| [j v] t IH]; simpl; constructor.
  - intro Hin. apply in_map_iff in Hin. destruct Hin as [y [Hy Hin]].
    apply filter_In in Hin. destruct Hin as [_ Hne]. simpl in Hne.
    apply negb_true_iff, Nat.eqb_neq in Hne. congruence.
  - apply NoDup_map_filter. exact IH.
Qed.

Lemma first_occurrences_count : forall (A : Type) (l : list (nat * A)),
  length (first_occurrences l) = distinct_count (map fst l).
Proof.
  intros A l. unfold distinct_count.
  rewrite <- (length_map fst (first_occurrences l)).
  apply Permutation_length, NoDup_Permutation.
  - apply first_occurrences_nodup.
  - apply NoDup_nodup.
  - intros i. rewrite first_occurrences_in, nodup_In. tauto.
Qed.

Section Assembly.

Variable VImage Label : Type.
Variable to_sized : VImage -> VImage.
Variable dataset : list (VImage * Label).

Lemma collect_examples_cons : forall i_im values_p rest seen raw,
  collect_examples to_sized dataset seen raw ((i_im, values_p) :: rest) =
  if existsb (Nat.eqb i_im) seen then
    collect_examples to_sized dataset seen raw rest
  else
    e <- get_dataset_image dataset i_im ;;
    let raw' := raw ++ [mk_raw i_im (to_sized (fst e)) values_p (snd e)] in
    if 4 <=? S (length seen) then Ok raw'
    else collect_examples to_sized dataset (i_im :: seen) raw' rest.
Proof.
  intros. simpl. destruct (existsb (Nat.eqb i_im) seen); [reflexivity |].
  destruct (get_dataset_image dataset i_im) as [[img lbl] | e]; reflexivity.
Qed.

(** The loop, started with fewer than four images used: it appends to the
    examples built so far one example for each first occurrence of an
    unused image index, in rank order, until four images are used. *)
Lemma collect_examples_spec : forall pairs seen raw,
  length seen < 4 ->
  Forall (fun p => fst p < length dataset) pairs ->
  exists more,
    collect_examples to_sized dataset seen raw pairs = Ok (raw ++ more) /\
    map raw_entry more
      = firstn (4 - length seen) (unseen seen (first_occurrences pairs)).
Proof.
  induction pairs as [| [i_im values_p] rest IH]; intros seen raw Hseen Hvalid.
  - exists []. rewrite app_nil_r. split; [reflexivity |].
    unfold unseen. simpl. rewrite firstn_nil. reflexivity.
  - inversion Hvalid as [| ? ? Hi Hrest]; subst. simpl in Hi.
    rewrite collect_examples_cons.
    destruct (existsb (Nat.eqb i_im) seen) eqn:Hin.
    + rewrite unseen_first_occurrences_seen by exact Hin.
      apply IH; assumption.
    + rewrite unseen_first_occurrences_new by exact Hin.
      unfold get_dataset_image.
      destruct (nth_error dataset i_im) as [[img lbl] |] eqn:E;
        [| apply nth_error_None in E; lia].
      cbn [bind fst snd]. cbv zeta.
      destruct (4 <=? S (length seen)) eqn:Hfull.
      * apply Nat.leb_le in Hfull.
        exists [mk_raw i_im (to_sized img) values_p lbl].
        split; [reflexivity |].
        replace (4 - length seen) with 1 by lia. reflexivity.
      * apply Nat.leb_gt in Hfull.
        destruct (IH (i_im :: seen)
                     (raw ++ [mk_raw i_im (to_sized img) values_p lbl]))
          as [more [Hrun Hmore]]; [simpl; lia | exact Hrest |].
        exists (mk_raw i_im (to_sized img) values_p lbl :: more).
        split.
        -- rewrite Hrun, <- app_assoc. reflexivity.
        -- simpl map. rewrite Hmore. simpl length.
           replace (4 - length seen) with (S (4 - S (length seen))) by lia.
           reflexivity.
Qed.

Lemma NoDup_firstn : forall (A : Type) n (l : list A),
  NoDup l -> NoDup (firstn n l).
Proof.
  intros A n l H. rewrite <- (firstn_skipn n l) in H.
  apply NoDup_app_remove_r in H. exact H.
Qed.

Lemma map_fst_combine : forall (A B : Type) (a : list A) (b : list B),
  length b = length a -> map fst (combine a b) = a.
Proof.
  induction a as [| x a IH]; intros [| y b] L; simpl in *;
    try discriminate; [reflexivity |].
  f_equal. apply IH. congruence.
Qed.

Variable Url : Type.
Variable width height : VImage -> nat.
Variable addalpha : VImage -> VImage.
Variable composite_over : VImage -> VImage -> VImage.
Variable new_from_array : list (list rgba) -> VImage.
Variable vips_to_base64 : VImage -> Url.

(** The examples returned are the raw examples, one for one and in
    order. *)
Lemma make_sae_activation_examples :
  forall latent acts top_img_i top_values sa raw_examples,
    make_sae_activation width height addalpha composite_over new_from_array
           to_sized vips_to_base64 dataset latent acts top_img_i top_values = Ok sa ->
    collect_examples to_sized dataset [] [] (combine top_img_i top_values)
      = Ok raw_examples ->
    map (@example_id Label Url) (sa_examples sa) = map (@raw_i_im VImage Label) raw_examples.
Proof.
  intros latent acts top_img_i top_values sa raw_examples H Hraw.
  unfold make_sae_activation in H. rewrite Hraw in H. simpl in H.
  inv_bind H. inv_bind H. inversion H; subst; clear H. simpl.
  apply mapM_ok_inv in Hstep0. clear Hraw.
  induction Hstep0 as [| r e raws exs Hr _ IH]; simpl; [reflexivity |].
  f_equal; [| exact IH].
  unfold render_example in Hr. inv_bind Hr. inversion Hr; reflexivity.
Qed.

Lemma fold_left_Qcmax_spec : forall (r : list Qc) (x : Qc),
  (fold_left Qcmax r x = x \/ In (fold_left Qcmax r x) r) /\
  (x <= fold_left Qcmax r x)%Qc /\
  (forall y, In y r -> (y <= fold_left Qcmax r x)%Qc).
Proof.
  induction r as [| a r IH]; intros x; simpl.
  - split; [left; reflexivity |]. split; [apply Qcle_refl | contradiction].
  - destruct (IH (Qcmax x a)) as [Hin [Hge Hall]].
    assert (Hx : (x <= Qcmax x a)%Qc /\ (a <= Qcmax x a)%Qc /\
                 (Qcmax x a = x \/ Qcmax x a = a)).
    { unfold Qcmax. destruct (Qcleb x a) eqn:C.
      - apply Qcleb_le in C. split; [exact C |].
        split; [apply Qcle_refl | right; reflexivity].
      - apply Qcleb_false in C. split; [apply Qcle_refl |].
        split; [exact C | left; reflexivity]. }
    destruct Hx as [Hx1 [Hx2 Hx3]].
    split; [| split].
    + destruct Hin as [E | Hin]; [| right; right; exact Hin].
      rewrite E. destruct Hx3 as [E' | E']; [left; exact E' | right; left; auto].
    + eapply Qcle_trans; eassumption.
    + intros y [<- | Hy]; [eapply Qcle_trans; eassumption | apply Hall; exact Hy].
Qed.

(** [t.max()] of a tensor with an entry is an entry no smaller than any
    other. *)
Lemma tensor_max_ok : forall t : tensor2 Qc,
  concat t <> [] ->
  exists u, tensor_max t = Ok u /\ In u (concat t) /\
            forall x, In x (concat t) -> (x <= u)%Qc.
Proof.
  intros t Hne. unfold tensor_max.
  destruct (concat t) as [| x r]; [contradiction |].
  destruct (fold_left_Qcmax_spec r x) as [Hin [Hge Hall]].
  exists (fold_left Qcmax r x). split; [reflexivity |]. split.
  - destruct Hin as [E | Hin]; [left; symmetry; exact E | right; exact Hin].
  - intros y [<- | Hy]; [exact Hge | apply Hall; exact Hy].
Qed.

(** Every raw example the loop adds holds a sized dataset image and the
    values of one rank. *)
Lemma collect_examples_sound : forall pairs seen raw out,
  collect_examples to_sized dataset seen raw pairs = Ok out ->
  exists more,
    out = raw ++ more /\
    Forall (fun r => (exists img, raw_img r = to_sized img) /\
                     In (raw_values_p r) (map snd pairs)) more.
Proof.
  induction pairs as [| [i_im values_p] rest IH]; intros seen raw out H.
  - simpl in H. inversion H; subst. exists []. rewrite app_nil_r. auto.
  - rewrite collect_examples_cons in H.
    destruct (existsb (Nat.eqb i_im) seen).
    + destruct (IH _ _ _ H) as [more [E F]]. exists more. split; [exact E |].
      eapply Forall_impl; [| exact F]. intros r [Hi Hv].
      split; [exact Hi | right; exact Hv].
    + destruct (get_dataset_image dataset i_im) as [[img lbl] | e];
        [| discriminate].
      cbn [bind fst snd] in H. cbv zeta in H.
      destruct (4 <=? S (length seen)).
      * inversion H; subst.
        exists [mk_raw i_im (to_sized img) values_p lbl].
        split; [reflexivity |]. constructor; [| constructor].
        split; [exists img; reflexivity | left; reflexivity].
      * destruct (IH _ _ _ H) as [more [E F]].
        exists (mk_raw i_im (to_sized img) values_p lbl :: more).
        split; [rewrite E, <- app_assoc; reflexivity |].
        constructor.
        -- split; [exists img; reflexivity | left; reflexivity].
        -- eapply Forall_impl; [| exact F]. intros r [Hi Hv].
           split; [exact Hi | right; exact Hv].
Qed.

(** C6.  For a top-k table with an entry, whose image indices lie inside
    the dataset, whose values are not negative and whose rows are square
    patch grids the sized images pass the grid assertions on,
    [make_sae_activation] returns.  Its examples are one for each of the
    first four distinct image indices of the top-k list: the first rank of
    each index, in rank order, later ranks of an index already used being
    skipped.  So a list with fewer than four distinct indices gives one
    example per distinct index and no more, and a list with four or more
    gives exactly four. *)
Theorem examples_are_first_distinct :
  forall (latent : nat) (acts : list Qc)
         (top_img_i : list nat) (top_values : tensor2 Qc),
    length top_values = length top_img_i ->
    Forall (fun i => i < length dataset) top_img_i ->
    concat top_values <> [] ->
    Forall (Forall (fun v => (0 <= v)%Qc)) top_values ->
    Forall (fun row =>
              Nat.sqrt (length row) * Nat.sqrt (length row) = length row /\
              forall img, width (to_sized img) / Nat.sqrt (length row)
                          = height (to_sized img) / Nat.sqrt (length row))
           top_values ->
    exists sa raw_examples,
      make_sae_activation width height addalpha composite_over new_from_array
        to_sized vips_to_base64 dataset latent acts top_img_i top_values = Ok sa /\
      sa_latent sa = latent /\ sa_activations sa = acts /\
      collect_examples to_sized dataset [] [] (combine top_img_i top_values)
        = Ok raw_examples /\
      map raw_entry raw_examples
        = firstn 4 (first_occurrences (combine top_img_i top_values)) /\
      map (@example_id Label Url) (sa_examples sa)
        = map (@raw_i_im VImage Label) raw_examples /\
      NoDup (map (@example_id Label Url) (sa_examples sa)) /\
      (forall i, In i (map (@example_id Label Url) (sa_examples sa)) ->
                 In i top_img_i) /\
      (distinct_count top_img_i < 4 ->
         length (sa_examples sa) = distinct_count top_img_i /\
         forall i, In i top_img_i ->
                   In i (map (@example_id Label Url) (sa_examples sa))) /\
      (4 <= distinct_count top_img_i -> length (sa_examples sa) = 4).
Proof.
  intros latent acts top_img_i top_values Hlen Hvalid Hentry Hpos Hgrid.
  set (pairs := combine top_img_i top_values).
  assert (Hfst : map fst pairs = top_img_i) by (apply map_fst_combine; exact Hlen).
  destruct (@collect_examples_spec pairs [] [])
    as [raw [Hrun Hraw]].
  { simpl; lia. }
  { rewrite Forall_forall in *. intros [i v] Hin. simpl.
    apply Hvalid. rewrite <- Hfst. apply in_map_iff. exists (i, v). auto. }
  change ([] ++ raw) with raw in Hrun.
  change (4 - length (@nil nat)) with 4 in Hraw. rewrite unseen_nil in Hraw.
  assert (Hids : map (@raw_i_im VImage Label) raw
                 = firstn 4 (map fst (first_occurrences pairs))).
  { rewrite firstn_map, <- Hraw, map_map. reflexivity. }
  assert (Hcount : length raw = Nat.min 4 (distinct_count top_img_i)).
  { rewrite <- (length_map raw_entry), Hraw, length_firstn,
      first_occurrences_count, Hfst. reflexivity. }
  destruct (@tensor_max_ok top_values Hentry) as [u [Hmax [Hu Hle]]].
  assert (Hall : forall row v, In row top_values -> In v row ->
                               (0 <= v)%Qc /\ (v <= u)%Qc).
  { intros row v Hrow Hv. split.
    - rewrite Forall_forall in Hpos. specialize (Hpos _ Hrow).
      rewrite Forall_forall in Hpos. apply Hpos. exact Hv.
    - apply Hle. apply in_concat. exists row. auto. }
  assert (Hu0 : (0 <= u)%Qc).
  { apply in_concat in Hu. destruct Hu as [row [Hrow Hv]].
    apply (Hall row u Hrow Hv). }
  destruct (@collect_examples_sound pairs [] [] raw Hrun) as [more [Emore Fmore]].
  change ([] ++ more) with more in Emore. subst more.
  destruct (@mapM_total _ _
              (render_example width height addalpha composite_over new_from_array
                              vips_to_base64 u) raw) as [examples Hex].
  { eapply Forall_impl; [| exact Fmore]. intros r [[img Himg] Hv].
    assert (Hrow : In (raw_values_p r) top_values).
    { apply in_map_iff in Hv. destruct Hv as [[i row] [E Hin]].
      simpl in E. subst row. apply in_combine_r in Hin. exact Hin. }
    rewrite Forall_forall in Hgrid. destruct (Hgrid _ Hrow) as [Hsq Hq].
    unfold render_example.
    destruct (@add_highlights_ok VImage width height addalpha composite_over
                new_from_array (raw_img r) (raw_values_p r) u Hsq
                ltac:(rewrite Himg; apply Hq) Hu0) as [hl Hhl].
    - apply Forall_forall. intros v Hin. exact (Hall _ _ Hrow Hin).
    - rewrite Hhl. simpl. eauto. }
  assert (Hsa : make_sae_activation width height addalpha composite_over
                  new_from_array to_sized vips_to_base64 dataset latent acts
                  top_img_i top_values
                = Ok (mk_sae_activation latent acts examples)).
  { unfold make_sae_activation. fold pairs. rewrite Hrun. simpl bind.
    rewrite Hmax. simpl bind. rewrite Hex. reflexivity. }
  pose proof (@make_sae_activation_examples latent acts top_img_i top_values _ raw Hsa Hrun) as Hmap.
  simpl in Hmap.
  assert (Hexlen : length examples = length raw).
  { rewrite <- (length_map (@example_id Label Url)), Hmap, length_map.
    reflexivity. }
  exists (mk_sae_activation latent acts examples), raw.
  split; [exact Hsa |]. split; [reflexivity |]. split; [reflexivity |].
  split; [exact Hrun |]. split; [exact Hraw |].
  cbn [sa_examples]. split; [exact Hmap |].
  rewrite Hmap, Hexlen.
  split; [rewrite Hids; apply NoDup_firstn, first_occurrences_nodup |].
  split.
  { intros i Hi. rewrite Hids in Hi. rewrite <- Hfst.
    apply first_occurrences_in.
    rewrite <- (firstn_skipn 4 (map fst (first_occurrences pairs))).
    apply in_or_app; left; exact Hi. }
  split.
  { intros Hfew. split; [lia |]. intros i Hi. rewrite Hids.
    rewrite firstn_all2.
    - apply first_occurrences_in. rewrite Hfst. exact Hi.
    - rewrite length_map, first_occurrences_count, Hfst. lia. }
  intros Hmany; lia.
Qed.

End Assembly.

Lemma examples_are_first_distinct_witness :
  exists sa,
    make_sae_activation (@fst nat nat) (@snd nat nat) (fun i => i)
      (fun base _ => base) raster_of_array (fun _ : raster => (4, 4))
      (fun img : raster => img) [((9, 6), 0); ((4, 4), 1); ((5, 8), 2)]
      7 [Qc_of_Z 1]
      [2; 2; 0]
      [[Qc_of_Z 5; Qc_of_Z 0; Qc_of_Z 0; Qc_of_Z 1];
       [Qc_of_Z 4; Qc_of_Z 0; Qc_of_Z 0; Qc_of_Z 0];
       [Qc_of_Z 3; Qc_of_Z 2; Qc_of_Z 0; Qc_of_Z 0]] = Ok sa /\
    map (@example_id nat raster) (sa_examples sa) = [2; 0] /\
    length (sa_examples sa) = 2.
Proof.
  destruct (@examples_are_first_distinct raster nat (fun _ : raster => (4, 4))
              [((9, 6), 0); ((4, 4), 1); ((5, 8), 2)] raster
              (@fst nat nat) (@snd nat nat) (fun i => i) (fun base _ => base)
              raster_of_array (fun img : raster => img)
              7 [Qc_of_Z 1] [2; 2; 0]
              [[Qc_of_Z 5; Qc_of_Z 0; Qc_of_Z 0; Qc_of_Z 1];
               [Qc_of_Z 4; Qc_of_Z 0; Qc_of_Z 0; Qc_of_Z 0];
               [Qc_of_Z 3; Qc_of_Z 2; Qc_of_Z 0; Qc_of_Z 0]])
    as [sa [raw [Hsa [_ [_ [_ [Hraw [Hmap [_ [_ [Hfew _]]]]]]]]]]].
  - reflexivity.
  - repeat constructor.
  - discriminate.
  - repeat constructor; apply Qcleb_le; reflexivity.
  - repeat constructor.
  - exists sa. split; [exact Hsa |]. split.
    + rewrite Hmap.
      assert (E : map (@raw_i_im raster nat) raw = map fst (map raw_entry raw))
        by (rewrite map_map; reflexivity).
      rewrite E, Hraw. reflexivity.
    + apply Hfew. unfold distinct_count. simpl. lia.
Defined.

(** ** Running sums *)

Lemma Qcsum_app : forall a b, Qcsum (a ++ b) = (Qcsum a + Qcsum b)%Qc.
Proof.
  induction a as [| x a IH]; intros b; simpl.
  - rewrite Qcplus_0_l. reflexivity.
  - rewrite IH. apply Qcplus_assoc.
Qed.

Lemma count_pos_app : forall a b, count_pos (a ++ b) = count_pos a + count_pos b.
Proof.
  intros a b. unfold count_pos. rewrite filter_app, length_app. reflexivity.
Qed.

Lemma Qc_of_nat_add : forall a b,
  Qc_of_nat (a + b) = (Qc_of_nat a + Qc_of_nat b)%Qc.
Proof.
  intros a b. apply Qc_is_canon.
  unfold Qc_of_nat, Qcplus, Q2Qc. cbn [this].
  rewrite !Qred_correct, Nat2Z.inj_add, inject_Z_plus. reflexivity.
Qed.


Lemma count_pos_zero : forall l,
  Forall (fun x => Qcltb 0%Qc x = false) l -> count_pos l = 0.
Proof.
  unfold count_pos. induction 1 as [| x l Hx _ IH]; simpl; [reflexivity |].
  rewrite Hx. exact IH.
Qed.

Lemma iadd_ok : forall a b,
  length a = length b ->
  exists r, iadd a b = Ok r /\ length r = length a /\
    forall L x y, nth_error a L = Some x -> nth_error b L = Some y ->
                  nth_error r L = Some (x + y)%Qc.
Proof.
  induction a as [| x a IH]; intros [| y b] Hlen; simpl in Hlen; try discriminate.
  - exists []. repeat split; auto. intros [| L] ? ? ?; discriminate.
  - destruct (IH b) as [r [Hr [Hl Hn]]]; [congruence |].
    exists ((x + y)%Qc :: r). simpl. rewrite Hr. simpl.
    repeat split; [congruence |].
    intros [| L] x' y' Hx Hy; simpl in *.
    + inversion Hx; inversion Hy; subst; reflexivity.
    + apply Hn; assumption.
Qed.

Lemma idiv_ok : forall a b,
  length a = length b ->
  exists r, idiv a b = Ok r /\ length r = length a /\
    forall L x y, nth_error a L = Some x -> nth_error b L = Some y ->
                  nth_error r L = Some (fdiv x y).
Proof.
  induction a as [| x a IH]; intros [| y b] Hlen; simpl in Hlen; try discriminate.
  - exists []. repeat split; auto. intros [| L] ? ? ?; discriminate.
  - destruct (IH b) as [r [Hr [Hl Hn]]]; [congruence |].
    exists (fdiv x y :: r). simpl. rewrite Hr. simpl.
    repeat split; [congruence |].
    intros [| L] x' y' Hx Hy; simpl in *.
    + inversion Hx; inversion Hy; subst; reflexivity.
    + apply Hn; assumption.
Qed.

Lemma transpose_length : forall rows, length (transpose rows) = length (hd [] rows).
Proof. intros rows. unfold transpose. rewrite length_map, length_seq. reflexivity. Qed.

Lemma transpose_row : forall rows L,
  L < length (hd [] rows) ->
  nth_error (transpose rows) L = Some (map (fun r => nth L r 0%Qc) rows).
Proof.
  intros rows L HL. unfold transpose.
  rewrite nth_error_map, nth_error_seq.
  apply Nat.ltb_lt in HL. rewrite HL. reflexivity.
Qed.

Lemma nth_error_exists : forall (A : Type) (l : list A) n,
  n < length l -> exists a, nth_error l n = Some a.
Proof.
  intros A l n H. destruct (nth_error l n) as [a |] eqn:E; [eauto |].
  apply nth_error_None in E. lia.
Qed.

Lemma Forall_of_nth_error : forall (A : Type) (P : A -> Prop) (l : list A),
  (forall n a, nth_error l n = Some a -> P a) -> Forall P l.
Proof.
  intros A P l H. rewrite Forall_forall. intros a Ha.
  apply In_nth_error in Ha. destruct Ha as [n Hn]. eapply H; exact Hn.
Qed.

Lemma selected_length : forall k row,
  length (selected k row) = Nat.min k (length row).
Proof.
  intros k row. unfold selected, positions.
  rewrite select_length, length_combine, length_seq. lia.
Qed.

(** A merge of two [d x k] tables whose indices lie below [bound] gives a
    [d x k] table whose indices lie below [bound]. *)
Lemma get_new_top_k_shape : forall k d bound fv fi sv si nv ni,
  get_new_top_k fv fi sv si k = Ok (nv, ni) ->
  length fv = d -> length fi = d -> length sv = d -> length si = d ->
  Forall (fun r => length r = k) fv -> Forall (fun r => length r = k) fi ->
  Forall (fun r => length r = k) sv -> Forall (fun r => length r = k) si ->
  Forall (Forall (fun j => j < bound)) fi ->
  Forall (Forall (fun j => j < bound)) si ->
  length nv = d /\ length ni = d /\
  Forall (fun r => length r = k) nv /\ Forall (fun r => length r = k) ni /\
  Forall (Forall (fun j => j < bound)) ni.
Proof.
  intros k d bound fv fi sv si nv ni H Lfv Lfi Lsv Lsi Cfv Cfi Csv Csi Rfi Rsi.
  destruct (get_new_top_k_inv _ _ _ _ _ H) as [_ [Env [Fk [G _]]]].
  destruct (gather1_inv _ _ G) as [_ [Lni _]].
  rewrite join_rows_length in Lni by congruence.
  assert (Lnv : length nv = d)
    by (rewrite Env, length_map, join_rows_length; congruence).
  assert (Hrow : forall L irow, nth_error ni L = Some irow ->
            length irow = k /\ Forall (fun j => j < bound) irow).
  { intros L irow Hi.
    assert (HL : L < d) by (rewrite <- Lfi, <- Lni; apply nth_error_Some; congruence).
    destruct (@nth_error_exists _ fv L) as [f Hf]; [lia |].
    destruct (@nth_error_exists _ sv L) as [s0 Hs]; [lia |].
    destruct (@nth_error_exists _ fi L) as [a Ha]; [lia |].
    destruct (@nth_error_exists _ si L) as [b Hb]; [lia |].
    destruct (@get_new_top_k_row k fv fi sv si nv ni L f s0 a b H Hf Hs Ha Hb)
      as [_ [irow' [Hi' Hp]]].
    rewrite Hi in Hi'. inversion Hi'; subst irow'.
    pose proof (@Forall_nth_error _ _ _ _ _ Cfv Hf) as Kf.
    pose proof (@Forall_nth_error _ _ _ _ _ Csv Hs) as Ks.
    pose proof (@Forall_nth_error _ _ _ _ _ Rfi Ha) as Ra.
    pose proof (@Forall_nth_error _ _ _ _ _ Rsi Hb) as Rb.
    simpl in Kf, Ks. split.
    - rewrite <- (Forall2_length Hp). apply sorted_top_length.
      rewrite length_app. lia.
    - clear Hi Hi'. induction Hp as [| v j vs js Hin _ IH]; constructor; [| exact IH].
      apply in_combine_r in Hin. apply in_app_or in Hin.
      rewrite Forall_forall in Ra, Rb. destruct Hin; auto. }
  split; [exact Lnv |]. split; [congruence |]. split; [| split].
  - rewrite Env. apply Forall_forall. intros row Hin.
    apply in_map_iff in Hin. destruct Hin as [r [<- Hr]].
    apply sorted_top_length. rewrite Forall_forall in Fk. apply Fk; exact Hr.
  - apply Forall_of_nth_error. intros L irow Hi. apply (Hrow L irow Hi).
  - apply Forall_of_nth_error. intros L irow Hi. apply (Hrow L irow Hi).
Qed.

Lemma in_firstn_in : forall (A : Type) n (l : list A) x,
  In x (firstn n l) -> In x l.
Proof.
  intros A n l x H. rewrite <- (firstn_skipn n l). apply in_or_app; left; exact H.
Qed.

Lemma map_length_same : forall (A B : Type) k (a : list (list A)) (b : list (list B)),
  length a = length b ->
  Forall (fun r => length r = k) a -> Forall (fun r => length r = k) b ->
  map (@length A) a = map (@length B) b.
Proof.
  induction a as [| x a IH]; intros [| y b] L Fa Fb; simpl in L; try discriminate.
  - reflexivity.
  - inversion Fa; inversion Fb; subst. simpl. f_equal; [congruence |].
    apply IH; auto.
Qed.

(** The slice [t[:1000, :10]] of a [d x k] table is a table again, with the
    entries of [t]. *)
Lemma head_slice_shape : forall (A : Type) k (t : tensor2 A),
  Forall (fun r => length r = k) t ->
  Forall (fun r => length r = Nat.min 10 k) (map (firstn 10) (firstn 1000 t)).
Proof.
  intros A k t F. rewrite Forall_forall in *. intros r Hr.
  apply in_map_iff in Hr. destruct Hr as [r' [<- Hr']].
  apply in_firstn_in in Hr'. rewrite length_firstn, (F _ Hr'). reflexivity.
Qed.

Lemma head_slice_range : forall (P : nat -> Prop) (t : tensor2 nat),
  Forall (Forall P) t -> Forall (Forall P) (map (firstn 10) (firstn 1000 t)).
Proof.
  intros P t F. rewrite Forall_forall in *. intros r Hr.
  apply in_map_iff in Hr. destruct Hr as [r' [<- Hr']].
  apply in_firstn_in in Hr'. specialize (F _ Hr'). rewrite Forall_forall in *.
  intros j Hj. apply F. eapply in_firstn_in; exact Hj.
Qed.

Section Saving.

Variable Image : Type.

(** Saving the images touches no tensor file; it returns when the two
    slices have one shape and every index is inside the dataset. *)
Lemma save_keeps_tensors : forall indices values (dataset : list (datum Image)) s s',
  save_highest_activating_images indices values dataset s = Ok s' ->
  max_activating_image_indices_pt s' = max_activating_image_indices_pt s /\
  max_activating_image_values_pt s' = max_activating_image_values_pt s /\
  max_activating_image_label_indices_pt s'
    = max_activating_image_label_indices_pt s /\
  sae_sparsity_pt s' = sae_sparsity_pt s /\
  sae_mean_acts_pt s' = sae_mean_acts_pt s.
Proof.
  intros indices values dataset s s' H.
  unfold save_highest_activating_images in H.
  destruct (list_eq_dec Nat.eq_dec _ _); [| discriminate].
  inv_bind H. inversion H; subst; simpl. repeat split; reflexivity.
Qed.

Lemma save_ok : forall indices values (dataset : list (datum Image)) s,
  map (@length Qc) values = map (@length nat) indices ->
  Forall (Forall (fun j => j < length dataset)) indices ->
  exists s', save_highest_activating_images indices values dataset s = Ok s'.
Proof.
  intros indices values dataset s Hsize Hrange.
  unfold save_highest_activating_images.
  destruct (list_eq_dec Nat.eq_dec _ _); [| contradiction].
  destruct (@mapM_total _ _
              (fun e => save_neuron dataset (fst e) (fst (snd e)) (snd (snd e)))
              (combine (seq 0 (length values)) (combine indices values)))
    as [saved Hsaved].
  - apply Forall_forall. intros [neuron [irow vrow]] Hin. simpl.
    apply in_combine_r, in_combine_l in Hin.
    rewrite Forall_forall in Hrange. specialize (Hrange _ Hin).
    unfold save_neuron. apply mapM_total. apply Forall_forall.
    intros [rank [index value]] He. simpl.
    unfold live_ranks in He. apply filter_In in He. destruct He as [He _].
    apply in_combine_r, in_combine_l in He.
    rewrite Forall_forall in Hrange. specialize (Hrange _ He).
    unfold dataset_get.
    destruct (nth_error dataset index) eqn:E;
      [simpl; eauto | apply nth_error_None in E; lia].
  - rewrite Hsaved. simpl. eauto.
Qed.

End Saving.

(** ** The accumulation loop *)

Section Accumulation.

Variable Image : Type.
Variable vit : Image -> list Qc.
Variable sae : list Qc -> list Qc.
Variable cfg : config.
Variable dataset : list (datum Image).
Variable N K B : nat.

(** The forward passes accept the batches, the autoencoder has [d_sae]
    latents, and every pass finds at least one image, and at least [K],
    left in the dataset. *)
Hypothesis Hbatch : 0 < max_batch_size_for_vit_forward_pass cfg.
Hypothesis Hlatents : forall x, length (sae x) = d_sae cfg.
Hypothesis Hstride : 0 < B.
Hypothesis Htop : K <= B.
Hypothesis Hrequested : 0 < N.
Hypothesis Hchunks : forall i, i * B < N -> i * B + Nat.max 1 K <= length dataset.

Abbreviation act := (activation vit sae).
Abbreviation invariant := (loop_invariant vit sae cfg dataset K B).

Abbreviation entries := (pass_entries dataset B).

Lemma chunk_entries : forall i, chunk dataset B (i * B) = map (@image Image) (entries i).
Proof.
  intros i. unfold chunk, py_slice, pass_entries.
  replace (i * B + B - i * B) with B by lia. reflexivity.
Qed.

Lemma entries_length : forall i,
  i * B < N -> Nat.max 1 K <= length (entries i) /\ length (entries i) <= B.
Proof.
  intros i Hi. unfold pass_entries. rewrite length_firstn, length_skipn.
  specialize (Hchunks i Hi). lia.
Qed.

Lemma firstn_next : forall i,
  firstn (S i * B) dataset = firstn (i * B) dataset ++ entries i.
Proof.
  intros i. unfold pass_entries. replace (S i * B) with (i * B + B) by lia.
  apply firstn_add.
Qed.

(** The activations of one pass: row [L] holds latent [L] on the entries
    of the pass, in order. *)
Lemma chunk_activations_ok : forall i,
  i * B < N ->
  exists t,
    chunk_activations vit sae cfg dataset B (i * B) = Ok t /\
    length t = d_sae cfg /\
    forall L, L < d_sae cfg -> nth_error t L = Some (map (act L) (entries i)).
Proof.
  intros i Hi. destruct (entries_length i Hi) as [Hmin _].
  unfold chunk_activations. rewrite chunk_entries.
  assert (Hne : entries i <> [])
    by (intro E; apply (f_equal (@length _)) in E; simpl in E; lia).
  rewrite get_all_model_activations_ok;
    [| exact Hbatch | destruct (entries i); [contradiction | discriminate]].
  simpl bind.
  rewrite get_sae_activations_ok;
    [| exact Hbatch | destruct (entries i); [contradiction | discriminate]].
  simpl bind.
  set (rows := map sae (map vit (map (@image Image) (entries i)))).
  assert (Hhd : length (hd [] rows) = d_sae cfg).
  { subst rows. destruct (entries i); [contradiction |]. simpl. apply Hlatents. }
  exists (transpose rows). split; [reflexivity |].
  split; [rewrite transpose_length; exact Hhd |].
  intros L HL. rewrite transpose_row by (rewrite Hhd; exact HL).
  subst rows. rewrite !map_map. reflexivity.
Qed.

(** One pass keeps the invariant and cannot raise. *)
Lemma step_ok : forall i st,
  invariant i st -> i * B < N ->
  exists st',
    step vit sae cfg dataset K B st = Ok st' /\
    invariant (S i) st' /\
    exists values indices,
      get_new_top_k (max_activating_image_values st)
                    (max_activating_image_indices st) values indices K
      = Ok (max_activating_image_values st', max_activating_image_indices st').
Proof.
  intros i st Hinv Hi. destruct Hinv.
  destruct (entries_length i Hi) as [Hmin Hmax].
  destruct (chunk_activations_ok i Hi) as [t [Ht [Htl Htr]]].
  assert (Et : t = map (fun L => map (act L) (entries i)) (seq 0 (d_sae cfg))).
  { apply nth_error_ext. intros L.
    destruct (Nat.lt_ge_cases L (d_sae cfg)) as [HL | HL].
    - rewrite (Htr L HL), nth_error_map, nth_error_seq.
      apply Nat.ltb_lt in HL. rewrite HL. reflexivity.
    - rewrite (proj2 (nth_error_None _ _)) by lia.
      rewrite (proj2 (nth_error_None _ _)); [reflexivity |].
      rewrite length_map, length_seq. exact HL. }
  assert (Hrows : Forall (fun row => length row = length (entries i)) t).
  { rewrite Et. apply Forall_forall. intros row Hin.
    apply in_map_iff in Hin. destruct Hin as [L [<- _]]. apply length_map. }
  unfold step. rewrite inv_processed0, Ht. simpl bind.
  destruct (@iadd_ok (sae_mean_acts st) (sum1 t)) as [mean [Hmean [Lmean Nmean]]].
  { unfold sum1. rewrite length_map. congruence. }
  rewrite Hmean. simpl bind.
  destruct (@iadd_ok (sae_sparsity st) (map Qc_of_nat (count_pos1 t)))
    as [spars [Hspars [Lspars Nspars]]].
  { unfold count_pos1. rewrite !length_map. congruence. }
  rewrite Hspars. simpl bind.
  rewrite topk_ok.
  2:{ rewrite Forall_forall in *. intros row Hin. rewrite (Hrows row Hin). lia. }
  simpl bind.
  set (values := map (sorted_top K) t).
  set (indices := map (map (Nat.add (i * B)))
                      (map (fun row => map snd (selected K row)) t)).
  assert (Lv : length values = d_sae cfg) by (subst values; rewrite length_map; exact Htl).
  assert (Li : length indices = d_sae cfg)
    by (subst indices; rewrite !length_map; exact Htl).
  assert (Cv : Forall (fun r => length r = K) values).
  { subst values. apply Forall_forall. intros r Hin.
    apply in_map_iff in Hin. destruct Hin as [row [<- Hrow]].
    apply sorted_top_length. rewrite Forall_forall in Hrows.
    rewrite (Hrows row Hrow). lia. }
  assert (Ci : Forall (fun r => length r = K) indices).
  { subst indices. apply Forall_forall. intros r Hin.
    apply in_map_iff in Hin. destruct Hin as [r' [<- Hin]].
    apply in_map_iff in Hin. destruct Hin as [row [<- Hrow]].
    rewrite !length_map, selected_length. rewrite Forall_forall in Hrows.
    rewrite (Hrows row Hrow). lia. }
  assert (Ri : Forall (Forall (fun j => j < length dataset)) indices).
  { subst indices. apply Forall_forall. intros r Hin.
    apply in_map_iff in Hin. destruct Hin as [r' [<- Hin]].
    apply in_map_iff in Hin. destruct Hin as [row [<- Hrow]].
    apply Forall_forall. intros j Hj.
    apply in_map_iff in Hj. destruct Hj as [pos [<- Hpos]].
    apply in_map_iff in Hpos. destruct Hpos as [[v pos'] [<- Hsel]].
    apply selected_in_row in Hsel. simpl.
    assert (pos' < length row) by (apply nth_error_Some; congruence).
    rewrite Forall_forall in Hrows. rewrite (Hrows row Hrow) in H.
    specialize (Hchunks i Hi).
    unfold pass_entries in H. rewrite length_firstn, length_skipn in H. lia. }
  destruct (@get_new_top_k_ok K (max_activating_image_values st)
              (max_activating_image_indices st) values indices)
    as [nv [ni Hmerge]]; try congruence.
  { intros L f s0 a b Hf Hs Ha Hb.
    pose proof (@Forall_nth_error _ _ _ _ _ inv_values_cols0 Hf).
    pose proof (@Forall_nth_error _ _ _ _ _ inv_indices_cols0 Ha).
    pose proof (@Forall_nth_error _ _ _ _ _ Cv Hs).
    pose proof (@Forall_nth_error _ _ _ _ _ Ci Hb).
    simpl in *. rewrite !length_app. lia. }
  rewrite Hmerge. simpl bind.
  destruct (@get_new_top_k_shape K (d_sae cfg) (length dataset) _ _ _ _ _ _ Hmerge)
    as [Lnv [Lni [Cnv [Cni Rni]]]]; try assumption.
  eexists. split; [reflexivity |]. split.
  - constructor;
      cbn [number_of_images_processed sae_mean_acts sae_sparsity
           max_activating_image_values max_activating_image_indices];
      try assumption; try congruence; try lia.
    + intros L HL. rewrite firstn_next, map_app, Qcsum_app.
      apply Nmean; [apply inv_mean0; exact HL |].
      unfold sum1. rewrite nth_error_map, (Htr L HL). reflexivity.
    + intros L HL. rewrite firstn_next, map_app, count_pos_app, Qc_of_nat_add.
      apply Nspars; [apply inv_sparsity0; exact HL |].
      unfold count_pos1. rewrite !nth_error_map, (Htr L HL). reflexivity.
  - exists values, indices. exact Hmerge.
Qed.

Lemma init_invariant : invariant 0 (init_acc cfg K).
Proof.
  pose proof (Hchunks 0 ltac:(lia)) as Hne.
  constructor; unfold init_acc; simpl.
  - reflexivity.
  - apply repeat_length.
  - apply repeat_length.
  - intros L HL. apply nth_error_repeat. exact HL.
  - intros L HL. apply nth_error_repeat. exact HL.
  - apply repeat_length.
  - apply repeat_length.
  - apply Forall_forall. intros r Hr. apply repeat_spec in Hr. subst r.
    apply repeat_length.
  - apply Forall_forall. intros r Hr. apply repeat_spec in Hr. subst r.
    apply repeat_length.
  - apply Forall_forall. intros r Hr. apply repeat_spec in Hr. subst r.
    apply Forall_forall. intros j Hj. apply repeat_spec in Hj. subst j. lia.
Qed.

(** The loop leaves after [rounds N B] passes, with fuel to spare. *)
Lemma accumulate_ok : forall fuel i st,
  invariant i st -> N <= fuel + i * B -> i * B < N + B ->
  exists j st',
    accumulate vit sae cfg dataset N K B fuel st = Some (Ok st') /\
    invariant j st' /\ N <= j * B /\ j * B < N + B.
Proof.
  induction fuel as [| fuel IH]; intros i st Hinv Hfuel Hi.
  - exists i, st. simpl. rewrite (inv_processed Hinv).
    destruct (Nat.ltb_spec (i * B) N); [lia |].
    split; [reflexivity |]. split; [exact Hinv |]. split; lia.
  - simpl. rewrite (inv_processed Hinv).
    destruct (Nat.ltb_spec (i * B) N) as [Hlt | Hge].
    + destruct (step_ok Hinv Hlt) as [st1 [Hstep [Hinv1 _]]].
      rewrite Hstep. apply (IH (S i) st1 Hinv1); lia.
    + exists i, st.
      split; [reflexivity |]. split; [exact Hinv |]. split; lia.
Qed.

Lemma rounds_unique : forall j, N <= j * B -> j * B < N + B -> j = rounds N B.
Proof.
  intros j H1 H2. unfold rounds.
  apply (Nat.div_unique (N + B - 1) B j (N + B - 1 - j * B)); lia.
Qed.

Lemma finish_ok : forall j st s,
  invariant j st ->
  exists means labels,
    finish dataset st s
      = Ok (mk_frame (max_activating_image_indices st)
                     (max_activating_image_values st)
                     (Some (map (fun c => fdiv c (Qc_of_nat (j * B)))
                                (sae_sparsity st)))
                     (Some means),
            mk_store (Some (max_activating_image_indices st))
                     (Some (max_activating_image_values st))
                     (Some labels)
                     (Some (map (fun c => fdiv c (Qc_of_nat (j * B)))
                                (sae_sparsity st)))
                     (Some means) (png_files s)) /\
    length means = d_sae cfg /\
    forall L, L < d_sae cfg ->
      nth_error means L
      = Some (fdiv (Qcsum (map (act L) (firstn (j * B) dataset)))
                   (Qc_of_nat (count_pos (map (act L) (firstn (j * B) dataset))))).
Proof.
  intros j st s Hinv. unfold finish.
  destruct (@idiv_ok (sae_mean_acts st) (sae_sparsity st))
    as [means [Hmeans [Lmeans Nmeans]]].
  { rewrite (inv_mean_len Hinv), (inv_sparsity_len Hinv). reflexivity. }
  rewrite Hmeans. simpl bind.
  destruct (@mapM_total _ _
              (mapM (fun index => d <- dataset_get dataset index ;; Ok (label d)))
              (max_activating_image_indices st)) as [labels Hlabels].
  { pose proof (inv_indices_range Hinv) as R.
    rewrite Forall_forall in *. intros irow Hin. specialize (R _ Hin).
    apply mapM_total. rewrite Forall_forall in *. intros index Hidx.
    specialize (R _ Hidx). unfold dataset_get.
    destruct (nth_error dataset index) eqn:E;
      [simpl; eauto | apply nth_error_None in E; lia]. }
  rewrite Hlabels. simpl bind. rewrite (inv_processed Hinv).
  exists means, labels. split; [reflexivity |].
  split; [rewrite Lmeans; apply (inv_mean_len Hinv) |].
  intros L HL. apply Nmeans; [apply (inv_mean Hinv) | apply (inv_sparsity Hinv)]; exact HL.
Qed.

(** The fresh run returns, and persists for every latent the accumulated
    sum over the firing count, and the firing count over the counter
    [rounds N B * B]. *)
Lemma get_feature_data_ok : forall s,
  exists fr s' means sparsities labels,
    get_feature_data vit sae cfg dataset N K B false s = Some (Ok (fr, s')) /\
    sae_mean_acts_pt s' = Some means /\
    sae_sparsity_pt s' = Some sparsities /\
    max_activating_image_indices_pt s' = Some (fr_indices fr) /\
    max_activating_image_values_pt s' = Some (fr_values fr) /\
    max_activating_image_label_indices_pt s' = Some labels /\
    length means = d_sae cfg /\ length sparsities = d_sae cfg /\
    forall L, L < d_sae cfg ->
      nth_error means L
      = Some (fdiv (Qcsum (map (act L) (images_processed dataset N B)))
                   (Qc_of_nat (count_pos (map (act L) (images_processed dataset N B)))))
      /\
      nth_error sparsities L
      = Some (fdiv (Qc_of_nat (count_pos (map (act L) (images_processed dataset N B))))
                   (Qc_of_nat (rounds N B * B))).
Proof.
  intros s. unfold get_feature_data.
  destruct (@accumulate_ok N 0 (init_acc cfg K) init_invariant)
    as [j [st [Hacc [Hinv [Hj1 Hj2]]]]]; [lia | lia |].
  rewrite Hacc. simpl bind at 2.
  pose proof (rounds_unique j Hj1 Hj2) as Ej.
  destruct (finish_ok s Hinv) as [means [labels [Hfin [Lmeans Nmeans]]]].
  rewrite Hfin. cbn [bind fr_indices fr_values].
  match goal with
  | |- context [save_highest_activating_images ?i ?v dataset ?st0] =>
      destruct (@save_ok Image i v dataset st0) as [s' Hsave]
  end.
  { symmetry. apply (@map_length_same _ _ (Nat.min 10 K)).
    - rewrite !length_map, !length_firstn,
        (inv_values_len Hinv), (inv_indices_len Hinv). reflexivity.
    - apply head_slice_shape, (inv_indices_cols Hinv).
    - apply head_slice_shape, (inv_values_cols Hinv). }
  { apply head_slice_range, (inv_indices_range Hinv). }
  rewrite Hsave. cbn [bind].
  destruct (@save_keeps_tensors _ _ _ _ _ _ Hsave) as [E1 [E2 [E3 [E4 E5]]]].
  simpl in E1, E2, E3, E4, E5.
  eexists _, s', means, _, labels.
  split; [reflexivity |].
  split; [exact E5 |]. split; [exact E4 |].
  split; [exact E1 |]. split; [exact E2 |]. split; [exact E3 |].
  split; [exact Lmeans |].
  split; [rewrite length_map; apply (inv_sparsity_len Hinv) |].
  intros L HL. unfold images_processed. rewrite <- Ej.
  split; [apply Nmeans; exact HL |].
  rewrite nth_error_map, (inv_sparsity Hinv HL). reflexivity.
Qed.



End Accumulation.

(** ** The sparsity divisor *)

Lemma fval_Fin_eq : forall a b : Qc, Qceqb a b = true -> Fin a = Fin b.
Proof. intros a b H. apply Qceqb_eq in H. congruence. Qed.

(** C4, at a dataset that runs out.  Three images, every one firing the
    single latent with activations 1, 2 and 3; four images requested, in
    passes of four.  The one pass handles the three images there are and
    advances the counter by four, so the persisted sparsity is [3 / 4], not
    the [3 / 3] of the images handled; the mean activation is the sum 6 over
    the firing count 3. *)
Theorem sparsity_divides_by_counter :
  exists fr s',
    get_feature_data (fun n : nat => [Qc_of_nat n]) (fun row => row)
                     (mk_config 1 4)
                     [mk_datum 1 0; mk_datum 2 0; mk_datum 3 0]
                     4 1 4 false (empty_store nat)
      = Some (Ok (fr, s')) /\
    sae_sparsity_pt s' = Some [Fin (Q2Qc (3 # 4))] /\
    sae_mean_acts_pt s' = Some [Fin (Qc_of_nat 2)] /\
    fdiv (Qc_of_nat 3) (Qc_of_nat 3) = Fin (Qc_of_nat 1) /\
    Q2Qc (3 # 4) <> Qc_of_nat 1.
Proof.
  eexists. eexists. split; [vm_compute; reflexivity |].
  split; [| split; [| split]].
  - cbn [sae_sparsity_pt]. do 2 f_equal;
      try (apply fval_Fin_eq; vm_compute; reflexivity).
  - cbn [sae_mean_acts_pt]. do 2 f_equal;
      try (apply fval_Fin_eq; vm_compute; reflexivity).
  - unfold fdiv. replace (Qceqb (Qc_of_nat 3) 0) with false by (vm_compute; reflexivity).
    apply fval_Fin_eq. vm_compute. reflexivity.
  - apply Qc_neq_by_eval. vm_compute. reflexivity.
Qed.


(** ** The two paths of the job *)

Section Paths.

Variable Image : Type.
Variable vit : Image -> list Qc.
Variable sae : list Qc -> list Qc.
Variable cfg : config.
Variable dataset : list (datum Image).
Variable N K B : nat.

(** Whatever a pass is given, the table it leaves is a merge of the table
    it found. *)
Lemma step_merges : forall st st',
  step vit sae cfg dataset K B st = Ok st' ->
  exists values indices,
    get_new_top_k (max_activating_image_values st)
                  (max_activating_image_indices st) values indices K
    = Ok (max_activating_image_values st', max_activating_image_indices st').
Proof.
  intros st st' H. unfold step in H.
  inv_bind H. inv_bind H. inv_bind H. inv_bind H. destruct a2 as [values indices].
  inv_bind H. destruct a2 as [nv ni]. inversion H; subst; clear H. simpl.
  eauto.
Qed.

Lemma accumulate_accumulated : forall fuel st st',
  accumulate vit sae cfg dataset N K B fuel st = Some (Ok st') ->
  accumulated (d_sae cfg) K
    (mk_table (max_activating_image_values st) (max_activating_image_indices st)) ->
  accumulated (d_sae cfg) K
    (mk_table (max_activating_image_values st') (max_activating_image_indices st')).
Proof.
  induction fuel as [| fuel IH]; intros st st' H Hacc; simpl in H.
  - destruct (number_of_images_processed st <? N); [discriminate |].
    inversion H; subst; exact Hacc.
  - destruct (number_of_images_processed st <? N).
    + destruct (step vit sae cfg dataset K B st) as [st1 | e] eqn:E;
        [| discriminate].
      apply (IH st1 st' H).
      destruct (step_merges _ E) as [values [indices Hm]].
      exact (@acc_merge (d_sae cfg) K
               (mk_table (max_activating_image_values st)
                         (max_activating_image_indices st))
               values indices _ _ Hacc Hm).
    + inversion H; subst; exact Hacc.
Qed.

(** The table a fresh run persists is one the accumulation can hold, and
    its value rows are sorted largest first. *)
Lemma persisted_table_accumulated : forall s fr s',
  get_feature_data vit sae cfg dataset N K B false s = Some (Ok (fr, s')) ->
  max_activating_image_values_pt s' = Some (fr_values fr) /\
  max_activating_image_indices_pt s' = Some (fr_indices fr) /\
  accumulated (d_sae cfg) K (mk_table (fr_values fr) (fr_indices fr)).
Proof.
  intros s fr s' H. unfold get_feature_data in H.
  destruct (accumulate vit sae cfg dataset N K B N (init_acc cfg K))
    as [[st | e] |] eqn:E; try discriminate.
  cbn [bind] in H. inversion H as [H']; clear H.
  inv_bind H'. destruct a as [fr0 s0]. inv_bind H'. inversion H'; subst; clear H'.
  unfold finish in Hstep. inv_bind Hstep. inv_bind Hstep.
  inversion Hstep; subst; clear Hstep.
  destruct (@save_keeps_tensors _ _ _ _ _ _ Hstep0) as [E1 [E2 _]].
  simpl in *. split; [exact E2 |]. split; [exact E1 |].
  apply (accumulate_accumulated _ _ E). apply acc_zero.
Qed.

(** C9.  On the resume path the job reads the two top-k files and nothing
    else.  What it does is: save the images of the slice [[:1000, :10]] of
    the two loaded tensors.  It runs no forward pass (the result does not
    depend on the networks or on the three sizes), it binds neither
    statistic, and it leaves every tensor file, the two statistics files
    included, as it found it. *)
Theorem resume_loads_only_top_k : forall (s : store Image) indices values,
  max_activating_image_indices_pt s = Some indices ->
  max_activating_image_values_pt s = Some values ->
  get_feature_data vit sae cfg dataset N K B true s
    = Some (s' <- save_highest_activating_images
                    (map (firstn 10) (firstn 1000 indices))
                    (map (firstn 10) (firstn 1000 values)) dataset s ;;
            Ok (mk_frame indices values None None, s')) /\
  forall fr s',
    get_feature_data vit sae cfg dataset N K B true s = Some (Ok (fr, s')) ->
    fr_indices fr = indices /\ fr_values fr = values /\
    fr_sae_sparsity fr = None /\ fr_sae_mean_acts fr = None /\
    max_activating_image_indices_pt s' = Some indices /\
    max_activating_image_values_pt s' = Some values /\
    max_activating_image_label_indices_pt s'
      = max_activating_image_label_indices_pt s /\
    sae_sparsity_pt s' = sae_sparsity_pt s /\
    sae_mean_acts_pt s' = sae_mean_acts_pt s.
Proof.
  intros s indices values Hi Hv.
  assert (E : get_feature_data vit sae cfg dataset N K B true s
              = Some (s' <- save_highest_activating_images
                              (map (firstn 10) (firstn 1000 indices))
                              (map (firstn 10) (firstn 1000 values)) dataset s ;;
                      Ok (mk_frame indices values None None, s'))).
  { unfold get_feature_data. rewrite Hi, Hv. reflexivity. }
  split; [exact E |].
  intros fr s' H. rewrite E in H. inversion H as [H']; clear H E.
  inv_bind H'. inversion H'; subst; clear H'.
  destruct (@save_keeps_tensors _ _ _ _ _ _ Hstep) as [E1 [E2 [E3 [E4 E5]]]].
  simpl. repeat split; congruence.
Qed.

End Paths.

Lemma resume_loads_only_top_k_witness :
  exists fr s',
    get_feature_data (fun n : nat => [Qc_of_nat n]) (fun row => row)
                     (mk_config 1 4) [mk_datum 7 0; mk_datum 8 0] 4 1 4 true
                     (mk_store (Some [[1]]) (Some [[Qc_of_nat 8]]) None None None [])
      = Some (Ok (fr, s')) /\
    fr_sae_sparsity fr = None /\ fr_sae_mean_acts fr = None /\
    sae_sparsity_pt s' = None /\ sae_mean_acts_pt s' = None.
Proof.
  destruct (@resume_loads_only_top_k nat (fun n : nat => [Qc_of_nat n])
              (fun row => row) (mk_config 1 4) [mk_datum 7 0; mk_datum 8 0]
              4 1 4
              (mk_store (Some [[1]]) (Some [[Qc_of_nat 8]]) None None None [])
              [[1]] [[Qc_of_nat 8]] eq_refl eq_refl) as [Hrun Hframe].
  eexists. eexists. split; [rewrite Hrun; vm_compute; reflexivity |].
  destruct (Hframe _ _ ltac:(rewrite Hrun; vm_compute; reflexivity))
    as [_ [_ [F1 [F2 [_ [_ [_ [F3 F4]]]]]]]].
  repeat split; assumption.
Defined.

(** * Further properties of the code *)

(** ** The two batched drivers *)

Section Drivers.

Variable Image : Type.
Variable vit : Image -> list Qc.
Variable sae : list Qc -> list Qc.

Lemma mini_batches_nil : forall (A : Type) (B : nat),
  0 < B -> mini_batches B (@nil A) = [].
Proof.
  intros A B HB. unfold mini_batches. simpl length.
  rewrite Nat.Div0.div_0_l, Nat.Div0.mod_0_l. reflexivity.
Qed.

(** What the image driver returns, case by case. *)
Lemma forward_cases : forall (cfg : config) (images : list Image),
  get_all_model_activations vit images cfg =
  if max_batch_size_for_vit_forward_pass cfg =? 0 then Raise ZeroDivisionError
  else match images with
       | [] => Raise ValueError
       | _ => Ok (map vit images)
       end.
Proof.
  intros cfg images.
  destruct (Nat.eqb_spec (max_batch_size_for_vit_forward_pass cfg) 0) as [E | E].
  - unfold get_all_model_activations. rewrite E. reflexivity.
  - destruct images as [| x images].
    + unfold get_all_model_activations.
      destruct (Nat.eqb_spec (max_batch_size_for_vit_forward_pass cfg) 0);
        [contradiction |].
      rewrite mini_batches_nil by lia. reflexivity.
    + apply get_all_model_activations_ok; [lia | discriminate].
Qed.

Lemma sae_cases : forall (cfg : config) (rows : tensor2 Qc),
  get_sae_activations sae rows cfg =
  if max_batch_size_for_vit_forward_pass cfg =? 0 then Raise ZeroDivisionError
  else match rows with
       | [] => Raise ValueError
       | _ => Ok (map sae rows)
       end.
Proof.
  intros cfg rows.
  destruct (Nat.eqb_spec (max_batch_size_for_vit_forward_pass cfg) 0) as [E | E].
  - unfold get_sae_activations. rewrite E. reflexivity.
  - destruct rows as [| x rows].
    + unfold get_sae_activations.
      destruct (Nat.eqb_spec (max_batch_size_for_vit_forward_pass cfg) 0);
        [contradiction |].
      rewrite mini_batches_nil by lia. reflexivity.
    + apply get_sae_activations_ok; [lia | discriminate].
Qed.

(** X1.  The image driver gives the same answer for every positive batch
    size: one activation row per image, in input order, for a non-empty
    list, and [ValueError] (a concatenation of no tensors) for the empty
    list.  A batch size of zero raises [ZeroDivisionError] whatever the
    list. *)
Theorem forward_pass_ignores_batch_size :
  forall (d1 d2 b1 b2 : nat) (images : list Image),
    0 < b1 -> 0 < b2 ->
    get_all_model_activations vit images (mk_config d1 b1)
      = get_all_model_activations vit images (mk_config d2 b2) /\
    (images <> [] ->
       get_all_model_activations vit images (mk_config d1 b1) = Ok (map vit images)) /\
    get_all_model_activations vit [] (mk_config d1 b1) = Raise ValueError /\
    get_all_model_activations vit images (mk_config d1 0) = Raise ZeroDivisionError.
Proof.
  intros d1 d2 b1 b2 images H1 H2. rewrite !forward_cases. simpl.
  destruct (Nat.eqb_spec b1 0); [lia |]. destruct (Nat.eqb_spec b2 0); [lia |].
  repeat split. intros Hne. destruct images; [contradiction | reflexivity].
Qed.

(** X2.  The autoencoder driver likewise: for a positive batch size it maps
    the autoencoder over the rows it is given, in order, and composed with
    the image driver it yields the autoencoder activation of every image;
    it raises [ValueError] on a tensor with no rows and
    [ZeroDivisionError] for a batch size of zero. *)
Theorem sae_pass_ignores_batch_size :
  forall (d b : nat) (images : list Image),
    0 < b ->
    (images <> [] ->
       (acts <- get_all_model_activations vit images (mk_config d b) ;;
        get_sae_activations sae acts (mk_config d b))
       = Ok (map (fun img => sae (vit img)) images)) /\
    get_sae_activations sae [] (mk_config d b) = Raise ValueError /\
    (forall rows, get_sae_activations sae rows (mk_config d 0)
                  = Raise ZeroDivisionError).
Proof.
  intros d b images Hb. split; [| split].
  - intros Hne. rewrite forward_cases. simpl.
    destruct (Nat.eqb_spec b 0); [lia |].
    destruct images as [| x images]; [contradiction |].
    simpl bind. rewrite sae_cases. simpl.
    destruct (Nat.eqb_spec b 0); [lia |]. rewrite map_map. reflexivity.
  - rewrite sae_cases. simpl. destruct (Nat.eqb_spec b 0); [lia | reflexivity].
  - intros rows. rewrite sae_cases. reflexivity.
Qed.

(** X3.  No batch handed to a forward pass is empty and none holds more
    than the batch size. *)
Theorem mini_batches_bounded : forall (A : Type) (B : nat) (xs : list A),
  0 < B ->
  Forall (fun b => 0 < length b /\ length b <= B) (mini_batches B xs).
Proof.
  intros A B xs HB. apply Forall_of_nth_error. intros m b Hb.
  destruct (@mini_batches_sizes _ _ _ _ _ HB Hb) as [[_ [Hl _]] | [_ [Hr [Hl _]]]].
  - lia.
  - pose proof (Nat.mod_upper_bound (length xs) B ltac:(lia)). lia.
Qed.

End Drivers.

Lemma forward_pass_ignores_batch_size_witness :
  get_all_model_activations (fun n : nat => [Qc_of_nat n]) [4; 5; 6] (mk_config 1 2)
  = get_all_model_activations (fun n : nat => [Qc_of_nat n]) [4; 5; 6] (mk_config 1 3).
Proof.
  destruct (@forward_pass_ignores_batch_size nat (fun n : nat => [Qc_of_nat n])
              1 1 2 3 [4; 5; 6]) as [H _]; [lia | lia | exact H].
Defined.

Lemma sae_pass_ignores_batch_size_witness :
  get_sae_activations (fun row : list Qc => row) [] (mk_config 1 2)
  = Raise ValueError.
Proof.
  destruct (@sae_pass_ignores_batch_size nat (fun n : nat => [Qc_of_nat n])
              (fun row : list Qc => row) 1 2 [4; 5]) as [_ [H _]]; [lia | exact H].
Defined.

Lemma mini_batches_bounded_witness :
  Forall (fun b => 0 < length b /\ length b <= 2) (mini_batches 2 [1; 2; 3; 4; 5]).
Proof.
  apply (@mini_batches_bounded nat 2 [1; 2; 3; 4; 5]). lia.
Defined.

(** ** More on the merge *)

Lemma sort_desc_perm_invariant : forall l1 l2,
  Permutation l1 l2 -> sort_desc l1 = sort_desc l2.
Proof.
  intros l1 l2 P. apply sorted_perm_unique; try apply sort_desc_sorted.
  rewrite <- !sort_desc_perm. exact P.
Qed.

Lemma sorted_top_perm_invariant : forall k l1 l2,
  Permutation l1 l2 -> sorted_top k l1 = sorted_top k l2.
Proof.
  intros k l1 l2 P. unfold sorted_top. rewrite (sort_desc_perm_invariant P).
  reflexivity.
Qed.

Lemma sort_desc_of_sorted : forall l, StronglySorted Qcge' l -> sort_desc l = l.
Proof.
  intros l S. apply sorted_perm_unique;
    [apply sort_desc_sorted | exact S | apply Permutation_sym, sort_desc_perm].
Qed.

Lemma filter_all : forall (A : Type) (p : A -> bool) l,
  Forall (fun x => p x = true) l -> filter p l = l.
Proof.
  induction 1 as [| x l Hx _ IH]; simpl; [reflexivity |].
  rewrite Hx, IH. reflexivity.
Qed.

Lemma filter_none : forall (A : Type) (p : A -> bool) l,
  Forall (fun x => p x = false) l -> filter p l = [].
Proof.
  induction 1 as [| x l Hx _ IH]; simpl; [reflexivity |].
  rewrite Hx. exact IH.
Qed.

Lemma filter_length_le : forall (A : Type) (p : A -> bool) l,
  length (filter p l) <= length l.
Proof.
  induction l as [| x l IH]; simpl; [lia |].
  destruct (p x); simpl; lia.
Qed.

Lemma filter_length_lt : forall (A : Type) (p : A -> bool) l x,
  In x l -> p x = false -> length (filter p l) < length l.
Proof.
  induction l as [| y l IH]; simpl; intros x Hin Hp; [contradiction |].
  destruct Hin as [-> | Hin].
  - rewrite Hp. pose proof (filter_length_le p l). lia.
  - specialize (IH x Hin Hp). destruct (p y); simpl; lia.
Qed.

Lemma filter_perm : forall (A : Type) (p : A -> bool) l1 l2,
  Permutation l1 l2 -> Permutation (filter p l1) (filter p l2).
Proof.
  induction 1 as [| x l1 l2 _ IH | x y l | l1 l2 l3 _ IH1 _ IH2]; simpl.
  - constructor.
  - destruct (p x); [constructor |]; exact IH.
  - destruct (p x), (p y); try reflexivity. apply perm_swap.
  - etransitivity; eassumption.
Qed.

Lemma sorted_split : forall k (l : list Qc),
  StronglySorted Qcge' l ->
  Forall (fun x => Forall (Qcge' x) (skipn k l)) (firstn k l).
Proof.
  induction k as [| k IH]; intros l S; simpl; [constructor |].
  destruct l as [| x l]; [constructor |].
  inversion S as [| ? ? S' F]; subst. constructor.
  - rewrite Forall_forall in *. intros y Hy. apply F.
    rewrite <- (firstn_skipn k l). apply in_or_app; right; exact Hy.
  - apply IH. exact S'.
Qed.

Lemma sorted_skipn : forall k (l : list Qc),
  StronglySorted Qcge' l -> StronglySorted Qcge' (skipn k l).
Proof.
  induction k as [| k IH]; intros l S; simpl; [exact S |].
  destruct l as [| x l]; [constructor |].
  inversion S; subst. apply IH. assumption.
Qed.

(** Entries that are beaten by [k] entries of a list do not reach its top
    [k]. *)
Lemma sorted_top_drop_small : forall k (top rest small : list Qc),
  length top = k ->
  Forall (fun x => Forall (Qcge' x) small) top ->
  sorted_top k (top ++ rest ++ small) = sorted_top k (top ++ rest).
Proof.
  intros k top rest small Hlen Hsmall.
  set (S := sort_desc (top ++ rest)).
  assert (HS : StronglySorted Qcge' S) by apply sort_desc_sorted.
  assert (HP : Permutation (top ++ rest) S) by apply sort_desc_perm.
  assert (HlenS : k <= length S).
  { rewrite <- (Permutation_length HP), length_app. lia. }
  assert (Hbeat : Forall (fun x => Forall (Qcge' x) small) (firstn k S)).
  { rewrite Forall_forall. intros m Hm. rewrite Forall_forall. intros x Hx.
    unfold Qcge'. apply Qcnot_lt_le. intro Hlt.
    set (p := fun z : Qc => Qcltb m z).
    assert (Htop : Forall (fun z => p z = true) top).
    { rewrite Forall_forall in *. intros z Hz. unfold p. apply Qcltb_lt.
      specialize (Hsmall z Hz). rewrite Forall_forall in Hsmall.
      eapply Qclt_le_trans; [exact Hlt | apply (Hsmall x Hx)]. }
    assert (Hcount : k <= length (filter p (top ++ rest))).
    { rewrite filter_app, length_app, (filter_all _ Htop). lia. }
    rewrite (Permutation_length (filter_perm p HP)) in Hcount.
    rewrite <- (firstn_skipn k S), filter_app, length_app in Hcount.
    assert (Hlow : filter p (skipn k S) = []).
    { apply filter_none. pose proof (sorted_split k HS) as Hsp.
      rewrite Forall_forall in Hsp. specialize (Hsp m Hm).
      rewrite Forall_forall in *. intros z Hz. unfold p, Qcltb.
      apply negb_false_iff, Qcleb_le. apply (Hsp z Hz). }
    rewrite Hlow in Hcount. simpl in Hcount.
    assert (Hm' : p m = false).
    { unfold p, Qcltb. apply negb_false_iff, Qcleb_le, Qcle_refl. }
    pose proof (filter_length_lt p _ _ Hm Hm') as Hlt'.
    rewrite length_firstn in Hlt'. lia. }
  unfold sorted_top at 1.
  assert (E : sort_desc (top ++ rest ++ small)
              = firstn k S ++ sort_desc (skipn k S ++ small)).
  { apply sorted_perm_unique.
    - apply sort_desc_sorted.
    - apply sorted_app.
      + apply sorted_firstn. exact HS.
      + apply sort_desc_sorted.
      + pose proof (sorted_split k HS) as Hsp.
        rewrite Forall_forall in *. intros x Hx. rewrite Forall_forall.
        intros y Hy.
        assert (Hy' : In y (skipn k S ++ small))
          by (eapply Permutation_in; [apply Permutation_sym, sort_desc_perm | exact Hy]).
        apply in_app_or in Hy'. destruct Hy' as [Hy' | Hy'].
        * specialize (Hsp x Hx). rewrite Forall_forall in Hsp. apply Hsp; exact Hy'.
        * specialize (Hbeat x Hx). rewrite Forall_forall in Hbeat.
          apply Hbeat; exact Hy'.
    - rewrite <- !sort_desc_perm, app_assoc, app_assoc.
      apply Permutation_app_tail. rewrite HP.
      rewrite (firstn_skipn k S). reflexivity. }
  rewrite E, firstn_app, length_firstn.
  replace (k - Nat.min k (length S)) with 0 by lia.
  rewrite firstn_O, app_nil_r.
  rewrite firstn_firstn, Nat.min_id. reflexivity.
Qed.

(** The streaming law: keeping only the top [k] of what was seen loses
    nothing for the top [k] of what is seen later. *)
Lemma sorted_top_absorb : forall k a b,
  sorted_top k (sorted_top k a ++ b) = sorted_top k (a ++ b).
Proof.
  intros k a b.
  set (A := sort_desc a).
  assert (HA : StronglySorted Qcge' A) by apply sort_desc_sorted.
  destruct (Nat.le_gt_cases (length A) k) as [Hshort | Hlong].
  - unfold sorted_top at 2. fold A. rewrite firstn_all2 by exact Hshort.
    apply sorted_top_perm_invariant, Permutation_app_tail.
    apply Permutation_sym, sort_desc_perm.
  - transitivity (sorted_top k (firstn k A ++ b ++ skipn k A)).
    + symmetry. apply sorted_top_drop_small.
      * unfold sorted_top. fold A. rewrite length_firstn. lia.
      * unfold sorted_top. fold A. apply sorted_split. exact HA.
    + apply sorted_top_perm_invariant.
      rewrite (Permutation_app_comm b), app_assoc, (firstn_skipn k A).
      apply Permutation_app_tail. apply Permutation_sym, sort_desc_perm.
Qed.

Lemma get_new_top_k_values : forall fv fi sv si k nv ni L f s,
  get_new_top_k fv fi sv si k = Ok (nv, ni) ->
  nth_error fv L = Some f -> nth_error sv L = Some s ->
  nth_error nv L = Some (sorted_top k (f ++ s)).
Proof.
  intros fv fi sv si k nv ni L f s H Hf Hs.
  destruct (get_new_top_k_inv _ _ _ _ _ H) as [_ [-> _]].
  rewrite nth_error_map, (nth_error_join_rows _ _ _ Hf Hs). reflexivity.
Qed.

(** X4.  The values of a merge do not depend on which table comes first:
    when both orders return, they return the same value table. *)
Theorem merge_values_symmetric : forall fv fi sv si k nv ni nv' ni',
  get_new_top_k fv fi sv si k = Ok (nv, ni) ->
  get_new_top_k sv si fv fi k = Ok (nv', ni') ->
  nv = nv'.
Proof.
  intros fv fi sv si k nv ni nv' ni' H H'.
  destruct (get_new_top_k_inv _ _ _ _ _ H) as [L1 [-> _]].
  destruct (get_new_top_k_inv _ _ _ _ _ H') as [_ [-> _]].
  apply nth_error_ext. intros L. unfold join_rows.
  rewrite !nth_error_map, !nth_error_combine.
  destruct (nth_error fv L) as [f |], (nth_error sv L) as [s |]; simpl;
    try reflexivity.
  f_equal. apply sorted_top_perm_invariant, Permutation_app_comm.
Qed.

Lemma merge_values_symmetric_witness :
  [[Qc_of_Z 5; Qc_of_Z 3]] = [[Qc_of_Z 5; Qc_of_Z 3]].
Proof.
  apply (@merge_values_symmetric
           [[Qc_of_Z 3; Qc_of_Z 1]] [[0; 1]] [[Qc_of_Z 5; Qc_of_Z 2]] [[7; 8]] 2
           [[Qc_of_Z 5; Qc_of_Z 3]] [[7; 0]] [[Qc_of_Z 5; Qc_of_Z 3]] [[7; 0]]);
    vm_compute; reflexivity.
Defined.

(** X5.  Merging batch after batch gives, for every latent, the top [k] of
    everything merged: the values of [merge (merge a b) c] are the first [k]
    of the three rows joined and sorted largest first. *)
Theorem merge_twice_is_top_k_of_all :
  forall a ai b bi c ci k ab abi r ri L ra rb rc,
    get_new_top_k a ai b bi k = Ok (ab, abi) ->
    get_new_top_k ab abi c ci k = Ok (r, ri) ->
    nth_error a L = Some ra -> nth_error b L = Some rb ->
    nth_error c L = Some rc ->
    nth_error r L = Some (sorted_top k (ra ++ rb ++ rc)).
Proof.
  intros a ai b bi c ci k ab abi r ri L ra rb rc H1 H2 Ha Hb Hc.
  pose proof (@get_new_top_k_values _ _ _ _ _ _ _ L _ _ H1 Ha Hb) as Hab.
  rewrite (@get_new_top_k_values _ _ _ _ _ _ _ L _ _ H2 Hab Hc).
  rewrite sorted_top_absorb, app_assoc. reflexivity.
Qed.

Lemma merge_twice_is_top_k_of_all_witness :
  nth_error [[Qc_of_Z 9; Qc_of_Z 5]] 0
  = Some (sorted_top 2 ([Qc_of_Z 3; Qc_of_Z 1] ++ [Qc_of_Z 5; Qc_of_Z 2]
                        ++ [Qc_of_Z 9; Qc_of_Z 0])).
Proof.
  apply (@merge_twice_is_top_k_of_all
           [[Qc_of_Z 3; Qc_of_Z 1]] [[0; 1]] [[Qc_of_Z 5; Qc_of_Z 2]] [[7; 8]]
           [[Qc_of_Z 9; Qc_of_Z 0]] [[4; 6]] 2
           [[Qc_of_Z 5; Qc_of_Z 3]] [[7; 0]] [[Qc_of_Z 9; Qc_of_Z 5]] [[4; 7]] 0);
    vm_compute; reflexivity.
Defined.

(** *** What the merge raises *)

Lemma mapM_only : forall (A B : Type) (f : A -> result B) (x : exn) l e,
  (forall a e', f a = Raise e' -> e' = x) -> mapM f l = Raise e -> e = x.
Proof.
  induction l as [| a l IH]; simpl; intros e Hf H; [discriminate |].
  destruct (f a) as [b |e'] eqn:E; simpl in H.
  - remember (mapM f l) as m eqn:Hm. destruct m as [bs | e'']; simpl in H;
      [discriminate |].
    inversion H; subst. apply (IH e Hf). reflexivity.
  - inversion H; subst. apply (Hf a e E).
Qed.

Lemma cat1_only : forall (A : Type) (a b : tensor2 A) e,
  cat1 a b = Raise e -> e = RuntimeError.
Proof.
  induction a as [| ra a IH]; intros [| rb b] e H; simpl in H;
    try discriminate; try (inversion H; reflexivity).
  destruct (cat1 a b) as [t | e'] eqn:E; simpl in H; [discriminate |].
  inversion H; subst. apply (IH _ _ E).
Qed.

Lemma topk_only : forall t k e, topk t k = Raise e -> e = RuntimeError.
Proof.
  unfold topk. intros t k e H.
  destruct (mapM (topk_row k) t) as [rows | e'] eqn:E; simpl in H; [discriminate |].
  inversion H; subst. eapply mapM_only; [| exact E].
  intros row e''. unfold topk_row. destruct (length row <? k); [| discriminate].
  intros H'; inversion H'; reflexivity.
Qed.

Lemma gather1_only : forall (A : Type) (t : tensor2 A) idx e,
  gather1 t idx = Raise e -> e = RuntimeError.
Proof.
  induction t as [| r t IH]; intros [| i idx] e H; simpl in H;
    try discriminate; try (inversion H; reflexivity).
  destruct (gather_row r i) as [r' | e'] eqn:E; simpl in H.
  - destruct (gather1 t idx) as [rest | e''] eqn:E'; simpl in H; [discriminate |].
    inversion H; subst. apply (IH _ _ E').
  - inversion H; subst. unfold gather_row in E. eapply mapM_only; [| exact E].
    intros j e'' H'. simpl in H'.
    destruct (nth_error r j); [discriminate | inversion H'; reflexivity].
Qed.

Lemma get_new_top_k_only : forall fv fi sv si k e,
  get_new_top_k fv fi sv si k = Raise e -> e = RuntimeError.
Proof.
  unfold get_new_top_k. intros fv fi sv si k e H.
  destruct (cat1 fv sv) as [tv | e1] eqn:E1; simpl in H;
    [| inversion H; subst; apply (cat1_only _ _ E1)].
  destruct (cat1 fi si) as [ti | e2] eqn:E2; simpl in H;
    [| inversion H; subst; apply (cat1_only _ _ E2)].
  destruct (topk tv k) as [[v p] | e3] eqn:E3; simpl in H;
    [| inversion H; subst; apply (topk_only _ _ E3)].
  destruct (gather1 ti p) as [ni | e4] eqn:E4; simpl in H; [discriminate |].
  inversion H; subst. apply (gather1_only _ _ E4).
Qed.

(** X6.  The merge raises nothing but [RuntimeError], and it does raise it
    when the two value tables differ in their number of rows, when the two
    index tables do, and when some joined row has fewer than [k]
    entries. *)
Theorem merge_raises_runtime_error : forall fv fi sv si k,
  (forall e, get_new_top_k fv fi sv si k = Raise e -> e = RuntimeError) /\
  (length fv <> length sv ->
     get_new_top_k fv fi sv si k = Raise RuntimeError) /\
  (length fi <> length si ->
     get_new_top_k fv fi sv si k = Raise RuntimeError) /\
  (forall L f s, nth_error fv L = Some f -> nth_error sv L = Some s ->
                 length (f ++ s) < k ->
     get_new_top_k fv fi sv si k = Raise RuntimeError).
Proof.
  intros fv fi sv si k.
  assert (Honly := @get_new_top_k_only fv fi sv si k).
  assert (Hnot : (forall nv ni, get_new_top_k fv fi sv si k <> Ok (nv, ni)) ->
                 get_new_top_k fv fi sv si k = Raise RuntimeError).
  { intros Hno. destruct (get_new_top_k fv fi sv si k) as [[nv ni] | e] eqn:E.
    - exfalso. apply (Hno nv ni). reflexivity.
    - rewrite (Honly e eq_refl). reflexivity. }
  split; [exact Honly |]. split; [| split].
  - intros Hlen. apply Hnot. intros nv ni H.
    destruct (get_new_top_k_inv _ _ _ _ _ H) as [L1 _]. contradiction.
  - intros Hlen. apply Hnot. intros nv ni H.
    destruct (get_new_top_k_inv _ _ _ _ _ H) as [_ [_ [_ [_ L2]]]]. contradiction.
  - intros L f s Hf Hs Hshort. apply Hnot. intros nv ni H.
    destruct (get_new_top_k_inv _ _ _ _ _ H) as [_ [_ [F _]]].
    pose proof (nth_error_join_rows _ _ _ Hf Hs) as Hrow.
    pose proof (@Forall_nth_error _ _ _ _ _ F Hrow). simpl in *. lia.
Qed.

Lemma merge_raises_runtime_error_witness :
  get_new_top_k [[Qc_of_Z 3]] [[0]] [[Qc_of_Z 5]] [[7]] 3 = Raise RuntimeError.
Proof.
  destruct (@merge_raises_runtime_error [[Qc_of_Z 3]] [[0]] [[Qc_of_Z 5]] [[7]] 3)
    as [_ [_ [_ H]]].
  apply (H 0 [Qc_of_Z 3] [Qc_of_Z 5]); [reflexivity | reflexivity | simpl; lia].
Defined.

(** ** The table of a fresh run *)

Lemma combine_app : forall (A B : Type) (a1 a2 : list A) (b1 b2 : list B),
  length a1 = length b1 ->
  combine (a1 ++ a2) (b1 ++ b2) = combine a1 b1 ++ combine a2 b2.
Proof.
  induction a1 as [| x a1 IH]; intros a2 [| y b1] b2 L; simpl in L;
    try discriminate; [reflexivity |].
  simpl. f_equal. apply IH. congruence.
Qed.

Lemma Forall2_in_combine : forall (A B : Type) (P : A -> B -> Prop) l1 l2 x y,
  Forall2 P l1 l2 -> In (x, y) (combine l1 l2) -> P x y.
Proof.
  induction 1 as [| a b l1 l2 Hab _ IH]; simpl; intros Hin; [contradiction |].
  destruct Hin as [E | Hin]; [inversion E; subst; exact Hab | apply IH; exact Hin].
Qed.

Lemma Forall2_impl : forall (A B : Type) (P Q : A -> B -> Prop) l1 l2,
  (forall x y, P x y -> Q x y) -> Forall2 P l1 l2 -> Forall2 Q l1 l2.
Proof.
  intros A B P Q l1 l2 H F. induction F; constructor; auto.
Qed.

Lemma nth_error_firstn_skipn : forall (A : Type) (l : list A) a n j x,
  nth_error (firstn n (skipn a l)) j = Some x ->
  nth_error l (a + j) = Some x /\ j < n.
Proof.
  intros A l a n j x H.
  assert (Hj : j < n).
  { assert (j < length (firstn n (skipn a l))) by (apply nth_error_Some; congruence).
    rewrite length_firstn in H0. lia. }
  split; [| exact Hj].
  rewrite nth_error_firstn in H.
  destruct (Nat.ltb_spec j n); [| discriminate].
  rewrite nth_error_skipn in H. exact H.
Qed.

Lemma repeat_zero_pairs : forall (Image : Type) (vit : Image -> list Qc) sae
    (dataset : list (datum Image)) L bound K,
  Forall2 (paired vit sae dataset L bound) (repeat 0%Qc K) (repeat 0 K).
Proof.
  intros. induction K as [| K IH]; simpl; constructor; [left; auto | exact IH].
Qed.

Section Streaming.

Variable Image : Type.
Variable vit : Image -> list Qc.
Variable sae : list Qc -> list Qc.
Variable cfg : config.
Variable dataset : list (datum Image).
Variable N K B : nat.

Hypothesis Hbatch : 0 < max_batch_size_for_vit_forward_pass cfg.
Hypothesis Hlatents : forall x, length (sae x) = d_sae cfg.
Hypothesis Hstride : 0 < B.
Hypothesis Htop : K <= B.
Hypothesis Hrequested : 0 < N.
Hypothesis Hchunks : forall i, i * B < N -> i * B + Nat.max 1 K <= length dataset.

Lemma init_table_invariant :
  table_invariant vit sae cfg dataset K B 0 (init_acc cfg K).
Proof.
  constructor; unfold init_acc; simpl.
  - intros L HL. unfold zeros2. rewrite nth_error_repeat by exact HL.
    rewrite app_nil_r. f_equal. unfold sorted_top.
    rewrite sort_desc_of_sorted.
    + symmetry. apply firstn_all2. rewrite repeat_length. lia.
    + clear. induction K as [| k IH]; simpl; constructor; [exact IH |].
      apply Forall_forall. intros x Hx. apply repeat_spec in Hx. subst.
      apply Qcle_refl.
  - intros L row irow HL Hrow Hirow. unfold zeros2 in *.
    rewrite nth_error_repeat in Hrow, Hirow by exact HL.
    inversion Hrow; inversion Hirow; subst. apply repeat_zero_pairs.
Qed.

(** One pass keeps what the table is known to hold. *)
Lemma step_table : forall i st st',
  loop_invariant vit sae cfg dataset K B i st ->
  table_invariant vit sae cfg dataset K B i st ->
  i * B < N ->
  step vit sae cfg dataset K B st = Ok st' ->
  table_invariant vit sae cfg dataset K B (S i) st'.
Proof.
  intros i st st' Hinv Htab Hi H.
  destruct (@chunk_activations_ok Image vit sae cfg dataset N K B Hbatch Hlatents
              Hstride Htop Hrequested Hchunks i Hi) as [t [Ht [Htl Htr]]].
  destruct (@entries_length Image cfg dataset N K B Hbatch Hstride Htop Hrequested
              Hchunks i Hi) as [Hmin Hmax].
  pose proof (@firstn_next Image cfg dataset N K B Hbatch Hstride Htop Hrequested i)
    as Hnext.
  unfold step in H. rewrite (inv_processed Hinv), Ht in H. simpl bind in H.
  inv_bind H. inv_bind H. inv_bind H. destruct a1 as [values positions].
  inv_bind H. destruct a1 as [nv ni]. inversion H; subst st'; clear H.
  destruct (topk_inv _ _ Hstep1) as [_ [Ev Ep]]. subst values positions.
  cbn [max_activating_image_values max_activating_image_indices].
  assert (Hnew : forall L, L < d_sae cfg ->
            nth_error (map (sorted_top K) t) L
            = Some (sorted_top K (map (activation vit sae L) (pass_entries dataset B i)))).
  { intros L HL. rewrite nth_error_map, (Htr L HL). reflexivity. }
  constructor;
    cbn [max_activating_image_values max_activating_image_indices].
  - intros L HL.
    rewrite (@get_new_top_k_values _ _ _ _ _ _ _ L _ _ Hstep2
               (tinv_values Htab HL) (Hnew L HL)).
    f_equal. rewrite Hnext, map_app.
    set (Z := repeat 0%Qc K).
    set (prev := map (activation vit sae L) (firstn (i * B) dataset)).
    set (cur := map (activation vit sae L) (pass_entries dataset B i)).
    rewrite sorted_top_absorb.
    rewrite (sorted_top_perm_invariant K
               (Permutation_app_comm (Z ++ prev) (sorted_top K cur))).
    rewrite sorted_top_absorb.
    apply sorted_top_perm_invariant.
    rewrite (Permutation_app_comm cur). rewrite app_assoc. reflexivity.
  - intros L row irow HL Hrow Hirow.
    destruct (@nth_error_exists _ (max_activating_image_indices st) L)
      as [arow Ha]; [rewrite (inv_indices_len Hinv); exact HL |].
    pose proof (tinv_values Htab HL) as Hf.
    set (cur := map (activation vit sae L) (pass_entries dataset B i)) in *.
    assert (Hb : nth_error
                   (map (map (Nat.add (i * B)))
                        (map (fun row => map snd (selected K row)) t)) L
                 = Some (map (Nat.add (i * B)) (map snd (selected K cur)))).
    { rewrite !nth_error_map, (Htr L HL). reflexivity. }
    destruct (@get_new_top_k_row K _ _ _ _ nv ni L _ _ _ _ Hstep2 Hf (Hnew L HL) Ha Hb)
      as [Hrow' [irow' [Hirow' Hpairs]]].
    rewrite Hrow in Hrow'. rewrite Hirow in Hirow'.
    inversion Hrow'; inversion Hirow'; subst row irow'. clear Hrow' Hirow'.
    pose proof (tinv_pairs Htab HL Hf Ha) as Hold.
    eapply Forall2_impl; [| exact Hpairs].
    intros v j Hin. rewrite combine_app in Hin by (apply (Forall2_length Hold)).
    apply in_app_or in Hin. destruct Hin as [Hin | Hin].
    + pose proof (@Forall2_in_combine _ _ _ _ _ _ _ Hold Hin) as Hp.
      unfold paired in Hp.
      destruct Hp as [Hz | [Hj Hd]].
      * left; exact Hz.
      * right. split; [lia | exact Hd].
    + right. rewrite <- selected_values in Hin.
      rewrite map_map in Hin.
      assert (Hsel : exists e, In e (selected K cur)
                               /\ fst e = v /\ i * B + snd e = j).
      { revert Hin. unfold cur.
        generalize (selected K (map (activation vit sae L)
                                    (pass_entries dataset B i))).
        clear.
        induction l as [| e l IH]; simpl; intros Hin; [contradiction |].
        destruct Hin as [E | Hin].
        - inversion E; subst. exists e. auto.
        - destruct (IH Hin) as [e' [He' Hrest]]. exists e'. auto. }
      destruct Hsel as [[v' j'] [He [Ev Ej]]]. simpl in Ev, Ej. subst v' j.
      apply selected_in_row in He. unfold cur in He.
      rewrite nth_error_map in He.
      destruct (nth_error (pass_entries dataset B i) j') as [d |] eqn:Ed;
        [| discriminate].
      inversion He; subst v. unfold pass_entries in Ed.
      destruct (nth_error_firstn_skipn _ _ _ _ Ed) as [Hd Hj].
      split; [lia |]. exists d. split; [exact Hd | reflexivity].
Qed.

Lemma accumulate_table : forall fuel i st st',
  loop_invariant vit sae cfg dataset K B i st ->
  table_invariant vit sae cfg dataset K B i st ->
  i * B < N + B ->
  accumulate vit sae cfg dataset N K B fuel st = Some (Ok st') ->
  exists j,
    loop_invariant vit sae cfg dataset K B j st' /\
    table_invariant vit sae cfg dataset K B j st' /\
    N <= j * B /\ j * B < N + B.
Proof.
  induction fuel as [| fuel IH]; intros i st st' Hinv Htab Hi H; simpl in H;
    rewrite (inv_processed Hinv) in H.
  - destruct (Nat.ltb_spec (i * B) N) as [Hlt | Hge]; [discriminate |].
    inversion H; subst st'. exists i.
    split; [exact Hinv |]. split; [exact Htab |]. split; lia.
  - destruct (Nat.ltb_spec (i * B) N) as [Hlt | Hge].
    + destruct (@step_ok Image vit sae cfg dataset N K B Hbatch Hlatents Hstride
                  Htop Hrequested Hchunks i st Hinv Hlt) as [st1 [Hstep [Hinv1 _]]].
      rewrite Hstep in H.
      apply (IH (S i) st1 st' Hinv1); [| lia | exact H].
      apply (step_table Hinv Htab Hlt Hstep).
    + inversion H; subst st'. exists i.
      split; [exact Hinv |]. split; [exact Htab |]. split; lia.
Qed.

(** A fresh run returns, persists the table it leaves the loop with, and
    that table holds what [table_invariant] says after [rounds N B]
    passes. *)
Lemma fresh_run_table : forall s : store Image,
  exists fr s',
    get_feature_data vit sae cfg dataset N K B false s = Some (Ok (fr, s')) /\
    max_activating_image_values_pt s' = Some (fr_values fr) /\
    max_activating_image_indices_pt s' = Some (fr_indices fr) /\
    length (fr_values fr) = d_sae cfg /\
    length (fr_indices fr) = d_sae cfg /\
    (forall L, L < d_sae cfg ->
       nth_error (fr_values fr) L
       = Some (sorted_top K (repeat 0%Qc K
                 ++ map (activation vit sae L) (images_processed dataset N B)))) /\
    (forall L row irow, L < d_sae cfg ->
       nth_error (fr_values fr) L = Some row ->
       nth_error (fr_indices fr) L = Some irow ->
       Forall2 (paired vit sae dataset L (rounds N B * B)) row irow).
Proof.
  intros s.
  destruct (@accumulate_ok Image vit sae cfg dataset N K B Hbatch Hlatents Hstride
              Htop Hrequested Hchunks N 0 (init_acc cfg K)
              (@init_invariant Image vit sae cfg dataset N K B Hbatch Hstride Htop
                 Hrequested Hchunks))
    as [j0 [st [Hacc _]]]; [lia | lia |].
  destruct (@accumulate_table N 0 (init_acc cfg K) st
              (@init_invariant Image vit sae cfg dataset N K B Hbatch Hstride Htop
                 Hrequested Hchunks)
              init_table_invariant ltac:(lia) Hacc)
    as [j [Hinv [Htab [Hj1 Hj2]]]].
  assert (Ej : j = rounds N B).
  { unfold rounds. apply (Nat.div_unique (N + B - 1) B j (N + B - 1 - j * B)); lia. }
  unfold get_feature_data. rewrite Hacc. simpl bind at 2.
  destruct (@finish_ok Image vit sae cfg dataset N K B Hbatch Hstride Htop
              Hrequested j st s Hinv)
    as [means [labels [Hfin _]]].
  rewrite Hfin. cbn [bind fr_indices fr_values].
  match goal with
  | |- context [save_highest_activating_images ?i ?v dataset ?st0] =>
      destruct (@save_ok Image i v dataset st0) as [s' Hsave]
  end.
  { symmetry. apply (@map_length_same _ _ (Nat.min 10 K)).
    - rewrite !length_map, !length_firstn,
        (inv_values_len Hinv), (inv_indices_len Hinv). reflexivity.
    - apply head_slice_shape, (inv_indices_cols Hinv).
    - apply head_slice_shape, (inv_values_cols Hinv). }
  { apply head_slice_range, (inv_indices_range Hinv). }
  rewrite Hsave. cbn [bind].
  destruct (@save_keeps_tensors _ _ _ _ _ _ Hsave) as [E1 [E2 _]].
  simpl in E1, E2.
  eexists. exists s'. split; [reflexivity |]. cbn [fr_values fr_indices].
  split; [exact E2 |]. split; [exact E1 |].
  split; [apply (inv_values_len Hinv) |].
  split; [apply (inv_indices_len Hinv) |].
  unfold images_processed. rewrite <- Ej. split.
  - intros L HL. apply (tinv_values Htab HL).
  - intros L row irow HL. apply (tinv_pairs Htab HL).
Qed.

Lemma Forall2_nth_error : forall (A C : Type) (P : A -> C -> Prop) l1 l2 r x y,
  Forall2 P l1 l2 -> nth_error l1 r = Some x -> nth_error l2 r = Some y -> P x y.
Proof.
  intros A C P l1 l2 r x y F. revert r.
  induction F as [| a c l1 l2 Hac _ IH]; intros [| r] H1 H2; simpl in *;
    try discriminate.
  - inversion H1; inversion H2; subst; exact Hac.
  - eapply IH; eassumption.
Qed.

(** X7.  For a run whose forward passes go through, the value row a fresh
    run persists for a latent is the [K] largest among the [K] initial
    zeros and the activations of that latent on all the images processed,
    sorted largest first: streaming the dataset pass by pass loses nothing
    against sorting everything at once. *)
Theorem persisted_values_are_top_k : forall (s : store Image) (L : nat),
  L < d_sae cfg ->
  exists fr s' values,
    get_feature_data vit sae cfg dataset N K B false s = Some (Ok (fr, s')) /\
    max_activating_image_values_pt s' = Some values /\
    nth_error values L
    = Some (sorted_top K (repeat 0%Qc K
              ++ map (activation vit sae L) (images_processed dataset N B))).
Proof.
  intros s L HL.
  destruct (fresh_run_table s) as [fr [s' [Hrun [Hv [_ [_ [_ [Hvals _]]]]]]]].
  exists fr, s', (fr_values fr). split; [exact Hrun |]. split; [exact Hv |].
  apply Hvals; exact HL.
Qed.

(** X8.  For a dataset of at most [2^24] images, whose positions the
    float32 index table holds exactly: in the table a fresh run persists,
    the index at every rank of a latent names the image whose activation is
    the value at that rank.  The entry is either an untouched initial
    [(0, 0)], or its index lies among the images processed and the latent's
    activation on that image is the value. *)
Theorem persisted_indices_match_values : forall (s : store Image) (L : nat),
  L < d_sae cfg ->
  (Z.of_nat (length dataset) <= 16777216)%Z ->
  exists fr s' values indices row irow,
    get_feature_data vit sae cfg dataset N K B false s = Some (Ok (fr, s')) /\
    max_activating_image_values_pt s' = Some values /\
    max_activating_image_indices_pt s' = Some indices /\
    nth_error values L = Some row /\ nth_error indices L = Some irow /\
    length irow = length row /\
    forall r v j,
      nth_error row r = Some v -> nth_error irow r = Some j ->
      (v = 0%Qc /\ j = 0) \/
      (j < rounds N B * B /\ (Z.of_nat j < 16777216)%Z /\
       exists d, nth_error dataset j = Some d /\ activation vit sae L d = v).
Proof.
  intros s L HL Hexact.
  destruct (fresh_run_table s)
    as [fr [s' [Hrun [Hv [Hi [Lv [Li [_ Hpairs]]]]]]]].
  destruct (@nth_error_exists _ (fr_values fr) L) as [row Hrow]; [lia |].
  destruct (@nth_error_exists _ (fr_indices fr) L) as [irow Hirow]; [lia |].
  pose proof (Hpairs L row irow HL Hrow Hirow) as F.
  exists fr, s', (fr_values fr), (fr_indices fr), row, irow.
  repeat (split; [assumption |]).
  split; [symmetry; apply (Forall2_length F) |].
  intros r v j Hr Hj.
  destruct (Forall2_nth_error r F Hr Hj) as [Hzero | [Hj1 [d [Hd Hact]]]];
    [left; exact Hzero | right].
  split; [exact Hj1 |]. split.
  - assert (j < length dataset) by (apply nth_error_Some; congruence). lia.
  - exists d. split; assumption.
Qed.

(** X9.  A fresh run handles [rounds N B * B] dataset entries, at least the
    [N] requested and fewer than [N + B].  When the dataset holds that many,
    the sparsity persisted for a latent is its firing count over the number
    of images processed. *)
Theorem sparsity_over_images_processed : forall (s : store Image) (L : nat),
  L < d_sae cfg ->
  rounds N B * B <= length dataset ->
  exists fr s' sparsities,
    get_feature_data vit sae cfg dataset N K B false s = Some (Ok (fr, s')) /\
    sae_sparsity_pt s' = Some sparsities /\
    nth_error sparsities L
    = Some (fdiv (Qc_of_nat (count_pos (map (activation vit sae L)
                                            (images_processed dataset N B))))
                 (Qc_of_nat (length (images_processed dataset N B)))) /\
    N <= length (images_processed dataset N B) /\
    length (images_processed dataset N B) < N + B.
Proof.
  intros s L HL Hfull.
  destruct (@get_feature_data_ok Image vit sae cfg dataset N K B Hbatch Hlatents
              Hstride Htop Hrequested Hchunks s)
    as [fr [s' [means [sparsities [labels [Hrun [_ [Hsp [_ [_ [_ [_ [_ Hrows]]]]]]]]]]]]].
  destruct (Hrows L HL) as [_ HspL].
  assert (Hlen : length (images_processed dataset N B) = rounds N B * B).
  { unfold images_processed. rewrite length_firstn. lia. }
  exists fr, s', sparsities. split; [exact Hrun |]. split; [exact Hsp |].
  rewrite Hlen. split; [exact HspL |].
  unfold rounds.
  pose proof (Nat.div_mod_eq (N + B - 1) B) as E.
  pose proof (Nat.mod_upper_bound (N + B - 1) B ltac:(lia)) as U.
  split; nia.
Qed.

End Streaming.

Lemma persisted_values_are_top_k_witness :
  exists fr s' values,
    get_feature_data (fun n : nat => [Qc_of_nat n])
                     (fun row => [hd 0%Qc row; 0%Qc])
                     (mk_config 2 2)
                     [mk_datum 1 0; mk_datum 2 0; mk_datum 3 0; mk_datum 4 0]
                     4 1 2 false (empty_store nat)
      = Some (Ok (fr, s')) /\
    max_activating_image_values_pt s' = Some values /\
    nth_error values 0
    = Some (sorted_top 1 ([0%Qc] ++ [Qc_of_nat 1; Qc_of_nat 2; Qc_of_nat 3; Qc_of_nat 4])).
Proof.
  apply (@persisted_values_are_top_k nat (fun n : nat => [Qc_of_nat n])
           (fun row => [hd 0%Qc row; 0%Qc]) (mk_config 2 2)
           [mk_datum 1 0; mk_datum 2 0; mk_datum 3 0; mk_datum 4 0] 4 1 2).
  - simpl; lia.
  - intros x; reflexivity.
  - lia.
  - lia.
  - lia.
  - intros i Hi. simpl in *. lia.
  - simpl; lia.
Defined.

Lemma persisted_indices_match_values_witness :
  exists fr s',
    get_feature_data (fun n : nat => [Qc_of_nat n])
                     (fun row => [hd 0%Qc row; 0%Qc])
                     (mk_config 2 2)
                     [mk_datum 1 0; mk_datum 2 0; mk_datum 3 0; mk_datum 4 0]
                     4 1 2 false (empty_store nat)
      = Some (Ok (fr, s')).
Proof.
  destruct (@persisted_indices_match_values nat (fun n : nat => [Qc_of_nat n])
              (fun row => [hd 0%Qc row; 0%Qc]) (mk_config 2 2)
              [mk_datum 1 0; mk_datum 2 0; mk_datum 3 0; mk_datum 4 0] 4 1 2)
    with (s := empty_store nat) (L := 0)
    as [fr [s' [values [indices [row [irow [Hrun _]]]]]]].
  - simpl; lia.
  - intros x; reflexivity.
  - lia.
  - lia.
  - lia.
  - intros i Hi. simpl in *. lia.
  - simpl; lia.
  - simpl; lia.
  - exists fr, s'. exact Hrun.
Defined.

Lemma sparsity_over_images_processed_witness :
  exists fr s' sparsities,
    get_feature_data (fun n : nat => [Qc_of_nat n])
                     (fun row => [hd 0%Qc row; 0%Qc])
                     (mk_config 2 2)
                     [mk_datum 1 0; mk_datum 2 0; mk_datum 3 0; mk_datum 4 0]
                     3 1 2 false (empty_store nat)
      = Some (Ok (fr, s')) /\
    sae_sparsity_pt s' = Some sparsities.
Proof.
  destruct (@sparsity_over_images_processed nat (fun n : nat => [Qc_of_nat n])
              (fun row => [hd 0%Qc row; 0%Qc]) (mk_config 2 2)
              [mk_datum 1 0; mk_datum 2 0; mk_datum 3 0; mk_datum 4 0] 3 1 2)
    with (s := empty_store nat) (L := 0)
    as [fr [s' [sparsities [Hrun [Hsp _]]]]].
  - simpl; lia.
  - intros x; reflexivity.
  - lia.
  - lia.
  - lia.
  - intros i Hi. simpl in *. lia.
  - simpl; lia.
  - vm_compute. lia.
  - exists fr, s', sparsities. auto.
Defined.

(** ** How a fresh run fails *)

Lemma iadd_only : forall a b e, iadd a b = Raise e -> e = RuntimeError.
Proof.
  induction a as [| x a IH]; intros [| y b] e H; simpl in H;
    try discriminate; try (inversion H; reflexivity).
  destruct (iadd a b) as [r | e'] eqn:E; simpl in H; [discriminate |].
  inversion H; subst. apply (IH _ _ E).
Qed.

Section Failures.

Variable Image : Type.
Variable vit : Image -> list Qc.
Variable sae : list Qc -> list Qc.
Variable cfg : config.
Variable dataset : list (datum Image).
Variable N K B : nat.

Hypothesis Hbatch : 0 < max_batch_size_for_vit_forward_pass cfg.

Lemma chunk_activations_cases : forall p,
  chunk_activations vit sae cfg dataset B p =
  match chunk dataset B p with
  | [] => Raise ValueError
  | images => Ok (transpose (map sae (map vit images)))
  end.
Proof.
  intros p. unfold chunk_activations. rewrite forward_cases.
  destruct (Nat.eqb_spec (max_batch_size_for_vit_forward_pass cfg) 0); [lia |].
  destruct (chunk dataset B p) as [| x images]; [reflexivity |].
  simpl bind. rewrite sae_cases.
  destruct (Nat.eqb_spec (max_batch_size_for_vit_forward_pass cfg) 0); [lia |].
  reflexivity.
Qed.

Lemma bind_raise_inv : forall (A C : Type) (m : result A) (f : A -> result C) e,
  bind m f = Raise e -> m = Raise e \/ exists a, m = Ok a /\ f a = Raise e.
Proof.
  intros A C [a | e'] f e H; simpl in H;
    [right; eauto | left; inversion H; reflexivity].
Qed.

(** A pass that finds an image in its slice fails with [RuntimeError] only. *)
Lemma step_only : forall st e,
  chunk dataset B (number_of_images_processed st) <> [] ->
  step vit sae cfg dataset K B st = Raise e -> e = RuntimeError.
Proof.
  intros st e Hne H. unfold step in H. rewrite chunk_activations_cases in H.
  apply bind_raise_inv in H. destruct H as [H | [t [_ H]]].
  { destruct (chunk dataset B (number_of_images_processed st));
      [contradiction | discriminate]. }
  apply bind_raise_inv in H. destruct H as [H | [m [_ H]]];
    [apply (iadd_only _ _ H) |].
  apply bind_raise_inv in H. destruct H as [H | [sp [_ H]]];
    [apply (iadd_only _ _ H) |].
  apply bind_raise_inv in H. destruct H as [H | [[v p] [_ H]]];
    [apply (topk_only _ _ H) |].
  apply bind_raise_inv in H. destruct H as [H | [[nv ni] [_ H]]];
    [apply (get_new_top_k_only _ _ _ _ _ H) | discriminate].
Qed.

(** A pass whose slice starts at or beyond the end of the dataset has no
    image to concatenate. *)
Lemma step_exhausted : forall st,
  length dataset <= number_of_images_processed st ->
  step vit sae cfg dataset K B st = Raise ValueError.
Proof.
  intros st Hlen. unfold step. rewrite chunk_activations_cases.
  unfold chunk, py_slice. rewrite skipn_all2 by exact Hlen.
  rewrite firstn_nil. reflexivity.
Qed.

Lemma accumulate_S : forall fuel st,
  accumulate vit sae cfg dataset N K B (S fuel) st =
  if number_of_images_processed st <? N then
    match step vit sae cfg dataset K B st with
    | Ok st' => accumulate vit sae cfg dataset N K B fuel st'
    | Raise e => Some (Raise e)
    end
  else Some (Ok st).
Proof. reflexivity. Qed.

End Failures.

Section Exhausted.

Variable Image : Type.
Variable vit : Image -> list Qc.
Variable sae : list Qc -> list Qc.
Variable cfg : config.
Variable dataset : list (datum Image).
Variable N K B : nat.

Hypothesis Hbatch : 0 < max_batch_size_for_vit_forward_pass cfg.
Hypothesis Hlatents : forall x, length (sae x) = d_sae cfg.
Hypothesis Hstride : 0 < B.
Hypothesis Htop : K <= B.

Lemma accumulate_exhausted : forall m,
  m * B < N -> length dataset <= m * B ->
  (forall i, i < m -> i * B + Nat.max 1 K <= length dataset) ->
  forall fuel i st,
    loop_invariant vit sae cfg dataset K B i st ->
    i <= m -> m - i < fuel ->
    accumulate vit sae cfg dataset N K B fuel st = Some (Raise ValueError).
Proof.
  intros m HmN Hlen Hfull.
  induction fuel as [| fuel IH]; intros i st Hinv Him Hfuel; [lia |].
  rewrite accumulate_S. rewrite (inv_processed Hinv).
  destruct (Nat.ltb_spec (i * B) N) as [_ | Hge]; [| nia].
  destruct (Nat.eq_dec i m) as [Eim | Hne].
  - rewrite (@step_exhausted Image vit sae cfg dataset K B Hbatch st);
      [reflexivity |].
    rewrite (inv_processed Hinv), Eim. exact Hlen.
  - assert (Hm : 0 < m * B) by nia.
    assert (Hchunks : forall j, j * B < m * B ->
                                j * B + Nat.max 1 K <= length dataset).
    { intros j Hj. apply Hfull. nia. }
    assert (Hi : i * B < m * B) by nia.
    destruct (@step_ok Image vit sae cfg dataset (m * B) K B Hbatch Hlatents
                Hstride Htop Hm Hchunks i st Hinv Hi) as [st1 [Hstep [Hinv1 _]]].
    rewrite Hstep. apply (IH (S i) st1 Hinv1); lia.
Qed.

(** X10.  A dataset that runs out before the counter reaches
    [number_of_images] does not end the loop early.  When every pass that
    starts inside the dataset goes through (it finds an image, and at least
    [number_of_max_activating_images] of them), the pass that starts at or
    beyond the end gets an empty slice, which is no [StopIteration], and the
    run raises the [ValueError] of a concatenation of no tensors. *)
Theorem exhausted_dataset_raises : forall (s : store Image) (m : nat),
  m * B < N ->
  length dataset <= m * B ->
  (forall i, i < m -> i * B + Nat.max 1 K <= length dataset) ->
  get_feature_data vit sae cfg dataset N K B false s = Some (Raise ValueError).
Proof.
  intros s m HmN Hlen Hfull. unfold get_feature_data.
  assert (Hacc : accumulate vit sae cfg dataset N K B N (init_acc cfg K)
                 = Some (Raise ValueError)).
  { destruct (Nat.eq_dec m 0) as [Em | Em].
    - destruct N as [| n] eqn:EN; [lia |].
      rewrite accumulate_S. change (number_of_images_processed (init_acc cfg K)) with 0.
      destruct (Nat.ltb_spec 0 (S n)) as [_ | Hge]; [| lia].
      rewrite (@step_exhausted Image vit sae cfg dataset K B Hbatch (init_acc cfg K));
        [reflexivity |].
      change (number_of_images_processed (init_acc cfg K)) with 0.
      rewrite Em in Hlen. simpl in Hlen. exact Hlen.
    - assert (Hm : 0 < m * B) by nia.
      assert (Hchunks : forall j, j * B < m * B ->
                                  j * B + Nat.max 1 K <= length dataset).
      { intros j Hj. apply Hfull. nia. }
      apply (@accumulate_exhausted m HmN Hlen Hfull N 0 (init_acc cfg K));
        [| lia | nia].
      exact (@init_invariant Image vit sae cfg dataset (m * B) K B Hbatch Hstride
               Htop Hm Hchunks). }
  rewrite Hacc. reflexivity.
Qed.

End Exhausted.

Lemma exhausted_dataset_raises_witness :
  get_feature_data (fun n : nat => [Qc_of_nat n]) (fun row => [hd 0%Qc row])
                   (mk_config 1 4) [mk_datum 1 0; mk_datum 2 0]
                   4 1 2 false (empty_store nat)
  = Some (Raise ValueError).
Proof.
  apply (@exhausted_dataset_raises nat (fun n : nat => [Qc_of_nat n])
           (fun row => [hd 0%Qc row]) (mk_config 1 4) [mk_datum 1 0; mk_datum 2 0] 4 1 2)
    with (m := 1).
  - simpl; lia.
  - intros x; reflexivity.
  - lia.
  - lia.
  - simpl; lia.
  - simpl; lia.
  - intros i Hi. assert (i = 0) by lia. subst i. simpl. lia.
Defined.

Section TooManyRanks.

Variable Image : Type.
Variable vit : Image -> list Qc.
Variable sae : list Qc -> list Qc.
Variable cfg : config.
Variable dataset : list (datum Image).
Variable N K B : nat.

Hypothesis Hbatch : 0 < max_batch_size_for_vit_forward_pass cfg.
Hypothesis Hlatents : forall x, length (sae x) = d_sae cfg.
Hypothesis Hwidth : 0 < d_sae cfg.
Hypothesis Hrequested : 0 < N.
Hypothesis Hstride : 0 < B.
Hypothesis Hdata : dataset <> [].
Hypothesis Hranks : B < K.

Lemma first_chunk_not_empty : chunk dataset B 0 <> [].
Proof.
  unfold chunk, py_slice. destruct dataset as [| d ds]; [contradiction |].
  destruct B as [| b]; [lia |]. simpl. discriminate.
Qed.

Lemma first_step_fails : forall st,
  number_of_images_processed st = 0 ->
  step vit sae cfg dataset K B st = Raise RuntimeError.
Proof.
  intros st Hp.
  assert (Hne : chunk dataset B (number_of_images_processed st) <> [])
    by (rewrite Hp; exact first_chunk_not_empty).
  destruct (step vit sae cfg dataset K B st) as [st' | e] eqn:E;
    [| rewrite (@step_only Image vit sae cfg dataset K B Hbatch st e Hne E);
       reflexivity].
  exfalso. unfold step in E.
  rewrite (@chunk_activations_cases Image vit sae cfg dataset B Hbatch) in E.
  inv_bind E. inv_bind E. inv_bind E. inv_bind E. destruct a2 as [v p].
  destruct (topk_inv _ _ Hstep2) as [F _].
  unfold chunk, py_slice in Hstep.
  set (ds := firstn (number_of_images_processed st + B - number_of_images_processed st)
                    (skipn (number_of_images_processed st) dataset)) in *.
  assert (Hds : length ds <= B)
    by (subst ds; rewrite length_firstn; lia).
  destruct (map (@image Image) ds) as [| x images] eqn:Eimg; [discriminate |].
  inversion Hstep; subst a; clear Hstep.
  assert (Hrow : nth_error (transpose (map sae (map vit (x :: images)))) 0
                 = Some (map (fun r => nth 0 r 0%Qc) (map sae (map vit (x :: images))))).
  { apply transpose_row. simpl. rewrite Hlatents. exact Hwidth. }
  pose proof (@Forall_nth_error _ _ _ _ _ F Hrow) as Hk. simpl in Hk.
  rewrite !length_map in Hk.
  apply (f_equal (@length Image)) in Eimg. rewrite length_map in Eimg.
  simpl in Eimg. lia.
Qed.

(** X11.  Asking for more top images than one pass holds
    ([number_of_max_activating_images] above a positive
    [max_number_of_images_per_iteration]) makes every fresh run over at
    least one image of a non-empty dataset fail, for an autoencoder with at
    least one latent: the first pass raises [RuntimeError], because the
    per-pass top-k is taken over at most one stride of images. *)
Theorem more_ranks_than_stride_raises : forall s : store Image,
  get_feature_data vit sae cfg dataset N K B false s = Some (Raise RuntimeError).
Proof.
  intros s. unfold get_feature_data.
  assert (Hacc : forall fuel, 0 < fuel ->
            accumulate vit sae cfg dataset N K B fuel (init_acc cfg K)
            = Some (Raise RuntimeError)).
  { intros [| fuel] Hfuel; [lia |]. simpl.
    destruct (Nat.ltb_spec 0 N) as [_ | Hge]; [| lia].
    rewrite first_step_fails; reflexivity. }
  rewrite (Hacc N Hrequested). reflexivity.
Qed.

End TooManyRanks.

Lemma more_ranks_than_stride_raises_witness :
  get_feature_data (fun n : nat => [Qc_of_nat n]) (fun row => [hd 0%Qc row])
                   (mk_config 1 4) [mk_datum 1 0; mk_datum 2 0; mk_datum 3 0]
                   2 3 2 false (empty_store nat)
  = Some (Raise RuntimeError).
Proof.
  apply (@more_ranks_than_stride_raises nat (fun n : nat => [Qc_of_nat n])
           (fun row => [hd 0%Qc row]) (mk_config 1 4)
           [mk_datum 1 0; mk_datum 2 0; mk_datum 3 0] 2 3 2).
  - simpl; lia.
  - intros x; reflexivity.
  - simpl; lia.
  - lia.
  - lia.
  - discriminate.
  - lia.
Defined.

(** ** Labels, and the files the resume path needs *)

Section Persisted.

Variable Image : Type.
Variable vit : Image -> list Qc.
Variable sae : list Qc -> list Qc.
Variable cfg : config.
Variable dataset : list (datum Image).
Variable N K B : nat.

(** X12.  Whenever a fresh run returns, the label tensor it persists is
    aligned with the index tensor it persists: the label at every latent
    and rank is the label of the dataset entry the index at that latent and
    rank names. *)
Theorem persisted_labels_match_indices : forall (s : store Image) fr s',
  get_feature_data vit sae cfg dataset N K B false s = Some (Ok (fr, s')) ->
  exists indices labels,
    max_activating_image_indices_pt s' = Some indices /\
    max_activating_image_label_indices_pt s' = Some labels /\
    Forall2 (Forall2 (fun j lab =>
                        exists d, nth_error dataset j = Some d /\ label d = lab))
            indices labels.
Proof.
  intros s fr s' H. unfold get_feature_data in H.
  destruct (accumulate vit sae cfg dataset N K B N (init_acc cfg K))
    as [[st | e] |] eqn:E; try discriminate.
  cbn [bind] in H. inversion H as [H']; clear H.
  inv_bind H'. destruct a as [fr0 s0]. inv_bind H'. inversion H'; subst; clear H'.
  unfold finish in Hstep. inv_bind Hstep. inv_bind Hstep.
  inversion Hstep; subst; clear Hstep.
  destruct (@save_keeps_tensors _ _ _ _ _ _ Hstep0) as [E1 [_ [E3 _]]].
  simpl in E1, E3.
  eexists. eexists.
  split; [exact E1 |]. split; [exact E3 |].
  match goal with
  | Hm : mapM _ (max_activating_image_indices st) = Ok _ |- _ =>
      apply mapM_ok_inv in Hm; eapply Forall2_impl; [| exact Hm]
  end.
  intros irow lrow Hrow. simpl in Hrow. apply mapM_ok_inv in Hrow.
  eapply Forall2_impl; [| exact Hrow].
  intros j lab Hj. simpl in Hj. inv_bind Hj. inversion Hj; subst.
  unfold dataset_get in Hstep.
  destruct (nth_error dataset j) as [d |]; [| discriminate].
  inversion Hstep; subst. eauto.
Qed.

(** X13.  The resume path needs both top-k files: without the index file,
    or with it but without the value file, the job raises
    [FileNotFoundError]; and when the [[:1000, :10]] slices of the two
    loaded tensors differ in shape it raises [AssertionError].  In none of
    these cases is anything computed or saved. *)
Theorem resume_failures : forall (s : store Image),
  (max_activating_image_indices_pt s = None ->
     get_feature_data vit sae cfg dataset N K B true s
     = Some (Raise FileNotFoundError)) /\
  (forall indices,
     max_activating_image_indices_pt s = Some indices ->
     max_activating_image_values_pt s = None ->
     get_feature_data vit sae cfg dataset N K B true s
     = Some (Raise FileNotFoundError)) /\
  (forall indices values,
     max_activating_image_indices_pt s = Some indices ->
     max_activating_image_values_pt s = Some values ->
     map (@length Qc) (map (firstn 10) (firstn 1000 values))
       <> map (@length nat) (map (firstn 10) (firstn 1000 indices)) ->
     get_feature_data vit sae cfg dataset N K B true s
     = Some (Raise AssertionError)).
Proof.
  intros s. unfold get_feature_data. split; [| split].
  - intros ->. reflexivity.
  - intros indices -> ->. reflexivity.
  - intros indices values -> -> Hshape. simpl.
    unfold save_highest_activating_images.
    destruct (list_eq_dec Nat.eq_dec _ _); [contradiction | reflexivity].
Qed.

End Persisted.

Lemma persisted_labels_match_indices_witness :
  exists indices labels,
    indices = [[2]] /\ labels = [[7]] /\
    Forall2 (Forall2 (fun j lab =>
                        exists d, nth_error [mk_datum 1 5; mk_datum 2 6; mk_datum 3 7] j
                                  = Some d /\ label d = lab))
            indices labels.
Proof.
  destruct (get_feature_data (fun n : nat => [Qc_of_nat n]) (fun row => row)
              (mk_config 1 4) [mk_datum 1 5; mk_datum 2 6; mk_datum 3 7]
              3 1 3 false (empty_store nat)) as [[[fr s'] | e] |] eqn:E;
    try (vm_compute in E; discriminate).
  destruct (@persisted_labels_match_indices nat (fun n : nat => [Qc_of_nat n])
              (fun row => row) (mk_config 1 4)
              [mk_datum 1 5; mk_datum 2 6; mk_datum 3 7] 3 1 3
              (empty_store nat) fr s' E) as [indices [labels [Hi [Hl F]]]].
  vm_compute in E. inversion E; subst; clear E.
  simpl in Hi, Hl. inversion Hi; inversion Hl; subst.
  exists [[2]], [[7]]. auto.
Defined.

Lemma resume_failures_witness :
  get_feature_data (fun n : nat => [Qc_of_nat n]) (fun row => row)
                   (mk_config 1 4) [mk_datum 1 5] 3 1 3 true
                   (mk_store (Some [[0]]) None None None None [])
  = Some (Raise FileNotFoundError).
Proof.
  destruct (@resume_failures nat (fun n : nat => [Qc_of_nat n]) (fun row => row)
              (mk_config 1 4) [mk_datum 1 5] 3 1 3
              (mk_store (Some [[0]]) None None None None [])) as [_ [H _]].
  apply (H [[0]]); reflexivity.
Defined.

(** ** The images saved *)

Lemma in_combine_seq : forall (A : Type) (l : list A) a n r x,
  In (r, x) (combine (seq a n) l) ->
  a <= r /\ nth_error l (r - a) = Some x.
Proof.
  induction l as [| y l IH]; intros a n r x H.
  - destruct (seq a n); simpl in H; contradiction.
  - destruct n as [| n]; simpl in H; [contradiction |].
    destruct H as [H | H].
    + inversion H; subst. rewrite Nat.sub_diag. split; [lia | reflexivity].
    + destruct (IH _ _ _ _ H) as [Hle Hn]. split; [lia |].
      replace (r - a) with (S (r - S a)) by lia. exact Hn.
Qed.

Lemma nth_error_in_combine_seq : forall (A : Type) (l : list A) a r x,
  nth_error l r = Some x -> In (a + r, x) (combine (seq a (length l)) l).
Proof.
  induction l as [| y l IH]; intros a r x H; [destruct r; discriminate |].
  destruct r as [| r]; simpl in *.
  - inversion H; subst. left. f_equal. lia.
  - right. replace (a + S r) with (S a + r) by lia. apply IH. exact H.
Qed.

Lemma Forall2_in_r : forall (A C : Type) (P : A -> C -> Prop) l1 l2 y,
  Forall2 P l1 l2 -> In y l2 -> exists x, In x l1 /\ P x y.
Proof.
  induction 1 as [| a c l1 l2 Hac _ IH]; simpl; intros Hin; [contradiction |].
  destruct Hin as [<- | Hin]; [eauto |].
  destruct (IH Hin) as [x [Hx Hp]]. eauto.
Qed.

Lemma Forall2_in_l : forall (A C : Type) (P : A -> C -> Prop) l1 l2 x,
  Forall2 P l1 l2 -> In x l1 -> exists y, In y l2 /\ P x y.
Proof.
  induction 1 as [| a c l1 l2 Hac _ IH]; simpl; intros Hin; [contradiction |].
  destruct Hin as [<- | Hin]; [eauto |].
  destruct (IH Hin) as [y [Hy Hp]]. eauto.
Qed.

Lemma live_ranks_length : forall (indices : list nat) (values : list Qc),
  length indices = length values ->
  length (live_ranks indices values) = count_pos values.
Proof.
  intros indices values. unfold live_ranks, count_pos. generalize 0.
  revert indices. induction values as [| v values IH]; intros [| i indices] a L;
    simpl in L; try discriminate; [reflexivity |].
  simpl. destruct (Qcltb 0 v); simpl; rewrite (IH indices (S a)); congruence.
Qed.

Section SavedImages.

Variable Image : Type.
Variable dataset : list (datum Image).

Lemma save_neuron_inv : forall neuron irow vrow pngs,
  save_neuron dataset neuron irow vrow = Ok pngs ->
  Forall2 (fun e f =>
             exists d, nth_error dataset (fst (snd e)) = Some d /\
                       f = mk_png neuron (fst e) (fst (snd e)) (snd (snd e)) (image d))
          (live_ranks irow vrow) pngs.
Proof.
  intros neuron irow vrow pngs H. unfold save_neuron in H.
  apply mapM_ok_inv in H. eapply Forall2_impl; [| exact H].
  intros e f Hf. simpl in Hf. inv_bind Hf. inversion Hf; subst.
  unfold dataset_get in Hstep.
  destruct (nth_error dataset (fst (snd e))) as [d |]; [| discriminate].
  inversion Hstep; subst. eauto.
Qed.

Lemma live_ranks_in : forall (irow : list nat) (vrow : list Qc) r i v,
  In (r, (i, v)) (live_ranks irow vrow) ->
  nth_error irow r = Some i /\ nth_error vrow r = Some v /\ (0 < v)%Qc.
Proof.
  intros irow vrow r i v H. unfold live_ranks in H.
  apply filter_In in H. destruct H as [Hin Hpos]. simpl in Hpos.
  apply Qcltb_lt in Hpos.
  assert (Hc : nth_error (combine irow vrow) r = Some (i, v)).
  { destruct (in_combine_seq _ _ _ _ _ Hin) as [_ Hn].
    rewrite Nat.sub_0_r in Hn. exact Hn. }
  rewrite nth_error_combine in Hc.
  destruct (nth_error irow r), (nth_error vrow r); try discriminate.
  inversion Hc; subst. auto.
Qed.

(** X14.  When [save_highest_activating_images] returns, it has written one
    image for every strictly positive value of the table and nothing else:
    the number of files written is the number of positive values, every
    file carries the neuron, rank, index and value of a table entry with a
    positive value together with the dataset image that index names, and
    no tensor file is touched. *)
Theorem saved_images_are_positive_entries :
  forall (indices : tensor2 nat) (values : tensor2 Qc) (s s' : store Image),
    save_highest_activating_images indices values dataset s = Ok s' ->
    exists saved,
      png_files s' = png_files s ++ saved /\
      length saved = list_sum (map count_pos values) /\
      (forall f, In f saved ->
         exists irow vrow d,
           nth_error indices (png_neuron f) = Some irow /\
           nth_error values (png_neuron f) = Some vrow /\
           nth_error irow (png_rank f) = Some (png_index f) /\
           nth_error vrow (png_rank f) = Some (png_value f) /\
           (0 < png_value f)%Qc /\
           nth_error dataset (png_index f) = Some d /\
           png_image f = image d) /\
      max_activating_image_indices_pt s' = max_activating_image_indices_pt s /\
      max_activating_image_values_pt s' = max_activating_image_values_pt s /\
      sae_sparsity_pt s' = sae_sparsity_pt s /\
      sae_mean_acts_pt s' = sae_mean_acts_pt s.
Proof.
  intros indices values s s' H.
  destruct (@save_keeps_tensors _ _ _ _ _ _ H) as [E1 [E2 [_ [E4 E5]]]].
  unfold save_highest_activating_images in H.
  destruct (list_eq_dec Nat.eq_dec _ _) as [Hshape |]; [| discriminate].
  inv_bind H. inversion H; subst s'; clear H. simpl.
  exists (concat a). split; [reflexivity |].
  apply mapM_ok_inv in Hstep. simpl in Hstep.
  assert (Hlen : length values = length indices).
  { apply (f_equal (@length nat)) in Hshape. rewrite !length_map in Hshape.
    exact Hshape. }
  assert (Hrows : forall n irow vrow,
            nth_error indices n = Some irow -> nth_error values n = Some vrow ->
            length irow = length vrow).
  { intros n irow vrow Hi Hv.
    assert (nth_error (map (@length Qc) values) n = Some (length vrow))
      by (rewrite nth_error_map, Hv; reflexivity).
    rewrite Hshape, nth_error_map, Hi in H. inversion H; reflexivity. }
  split; [| split; [| repeat split; assumption]].
  - assert (G : forall (l : list (nat * (list nat * list Qc))) savedL,
              Forall2 (fun e pngs =>
                         save_neuron dataset (fst e) (fst (snd e)) (snd (snd e))
                         = Ok pngs) l savedL ->
              Forall (fun e => length (fst (snd e)) = length (snd (snd e))) l ->
              length (concat savedL)
              = list_sum (map (fun e => count_pos (snd (snd e))) l)).
    { induction 1 as [| e pngs l savedL He _ IH]; intros Fl; simpl; [reflexivity |].
      inversion Fl as [| ? ? Hl Fl']; subst.
      rewrite length_app, (IH Fl'). f_equal.
      rewrite <- (Forall2_length (save_neuron_inv _ _ _ He)).
      apply live_ranks_length. exact Hl. }
    rewrite (G _ _ Hstep).
    + f_equal. rewrite <- (map_map (fun e => snd (snd e)) count_pos). f_equal.
      clear - Hlen. generalize 0. revert indices Hlen.
      induction values as [| v values IH]; intros [| i indices] Hlen a;
        simpl in Hlen; try discriminate; [reflexivity |].
      simpl. f_equal. apply IH. congruence.
    + apply Forall_forall. intros [n [irow vrow]] Hin. simpl.
      destruct (in_combine_seq _ _ _ _ _ Hin) as [_ Hn].
      rewrite nth_error_combine in Hn.
      destruct (nth_error indices (n - 0)) eqn:Ei, (nth_error values (n - 0)) eqn:Ev;
        try discriminate.
      inversion Hn; subst. eapply Hrows; eassumption.
  - intros f Hf. apply in_concat in Hf. destruct Hf as [pngs [Hpngs Hf]].
    destruct (Forall2_in_r _ Hstep Hpngs) as [[n [irow vrow]] [He Hsave]].
    simpl in Hsave.
    destruct (Forall2_in_r _ (save_neuron_inv _ _ _ Hsave) Hf)
      as [[r [i v]] [Hlive [d [Hd ->]]]].
    simpl in *. destruct (live_ranks_in _ _ _ _ _ Hlive) as [Hi [Hv Hpos]].
    exists irow, vrow, d.
    assert (Hn : nth_error (combine indices values) n = Some (irow, vrow)).
    { destruct (in_combine_seq _ _ _ _ _ He) as [_ Hn].
      rewrite Nat.sub_0_r in Hn. exact Hn. }
    rewrite nth_error_combine in Hn.
    destruct (nth_error indices n), (nth_error values n); try discriminate.
    inversion Hn; subst. repeat split; auto.
Qed.

End SavedImages.


Lemma saved_images_are_positive_entries_witness :
  exists saved : list (png nat),
    length saved
    = list_sum (map count_pos [[Qc_of_Z 3; Qc_of_Z 0]; [Qc_of_Z 0; Qc_of_Z 0]]).
Proof.
  destruct (save_highest_activating_images [[1; 0]; [0; 0]]
              [[Qc_of_Z 3; Qc_of_Z 0]; [Qc_of_Z 0; Qc_of_Z 0]]
              [mk_datum 10 0; mk_datum 11 0] (empty_store nat))
    as [s' | e] eqn:E; [| vm_compute in E; discriminate].
  destruct (@saved_images_are_positive_entries nat [mk_datum 10 0; mk_datum 11 0]
              [[1; 0]; [0; 0]] [[Qc_of_Z 3; Qc_of_Z 0]; [Qc_of_Z 0; Qc_of_Z 0]]
              (empty_store nat) s' E) as [saved [_ [Hlen _]]].
  exists saved. exact Hlen.
Defined.

(** ** When saving fails *)

Lemma mapM_raises : forall (A C : Type) (f : A -> result C) (x : exn) l a e,
  (forall a' e', f a' = Raise e' -> e' = x) ->
  In a l -> f a = Raise e -> mapM f l = Raise x.
Proof.
  intros A C f x l a e Honly Hin Ha.
  destruct (mapM f l) as [bs | e'] eqn:E.
  - apply mapM_ok_inv in E.
    destruct (Forall2_in_l _ E Hin) as [b [_ Hb]]. congruence.
  - rewrite (@mapM_only _ _ _ _ _ _ Honly E). reflexivity.
Qed.

Lemma nth_error_in_combine_seq_lt : forall (A : Type) (l : list A) a n r x,
  nth_error l r = Some x -> r < n -> In (a + r, x) (combine (seq a n) l).
Proof.
  induction l as [| y l IH]; intros a n r x H Hr; [destruct r; discriminate |].
  destruct n as [| n]; [lia |].
  destruct r as [| r]; simpl in *.
  - inversion H; subst. left. f_equal. lia.
  - right. replace (a + S r) with (S a + r) by lia. apply IH; [exact H | lia].
Qed.

Lemma live_ranks_intro : forall (irow : list nat) (vrow : list Qc) r i v,
  nth_error irow r = Some i -> nth_error vrow r = Some v -> (0 < v)%Qc ->
  In (r, (i, v)) (live_ranks irow vrow).
Proof.
  intros irow vrow r i v Hi Hv Hpos. unfold live_ranks.
  apply filter_In. split; [| simpl; apply Qcltb_lt; exact Hpos].
  change r with (0 + r). apply nth_error_in_combine_seq_lt.
  - rewrite nth_error_combine, Hi, Hv. reflexivity.
  - apply nth_error_Some. congruence.
Qed.

Section SavingFails.

Variable Image : Type.
Variable dataset : list (datum Image).

Lemma save_entry_only : forall neuron (a : nat * (nat * Qc)) e,
  (d <- dataset_get dataset (fst (snd a)) ;;
   Ok (mk_png neuron (fst a) (fst (snd a)) (snd (snd a)) (image d)))
  = Raise e -> e = IndexError.
Proof.
  intros neuron a e Ha. unfold dataset_get in Ha.
  destruct (nth_error dataset (fst (snd a))); simpl in Ha;
    [discriminate | inversion Ha; reflexivity].
Qed.

Lemma save_neuron_only : forall neuron irow vrow e,
  save_neuron dataset neuron irow vrow = Raise e -> e = IndexError.
Proof.
  intros neuron irow vrow e H. unfold save_neuron in H.
  eapply mapM_only; [| exact H].
  intros a e' Ha. exact (save_entry_only _ _ Ha).
Qed.

(** X15.  [save_highest_activating_images] raises [AssertionError] when the
    two tensors differ in shape.  With equal shapes it looks up only the
    indices of strictly positive values: it returns when each of those lies
    inside the dataset, whatever the indices of the other entries, and
    raises [IndexError] when one of them does not. *)
Theorem saving_looks_up_positive_entries_only :
  forall (indices : tensor2 nat) (values : tensor2 Qc) (s : store Image),
    (map (@length Qc) values <> map (@length nat) indices ->
       save_highest_activating_images indices values dataset s
       = Raise AssertionError) /\
    (map (@length Qc) values = map (@length nat) indices ->
       (forall n irow vrow r i v,
          nth_error indices n = Some irow -> nth_error values n = Some vrow ->
          nth_error irow r = Some i -> nth_error vrow r = Some v ->
          (0 < v)%Qc -> i < length dataset) ->
       exists s', save_highest_activating_images indices values dataset s = Ok s') /\
    (map (@length Qc) values = map (@length nat) indices ->
       forall n irow vrow r i v,
         nth_error indices n = Some irow -> nth_error values n = Some vrow ->
         nth_error irow r = Some i -> nth_error vrow r = Some v ->
         (0 < v)%Qc -> length dataset <= i ->
         save_highest_activating_images indices values dataset s
         = Raise IndexError).
Proof.
  intros indices values s. unfold save_highest_activating_images.
  split; [| split].
  - intros Hne. destruct (list_eq_dec Nat.eq_dec _ _); [contradiction | reflexivity].
  - intros Hshape Hvalid.
    destruct (list_eq_dec Nat.eq_dec _ _); [| contradiction].
    destruct (@mapM_total _ _
                (fun e => save_neuron dataset (fst e) (fst (snd e)) (snd (snd e)))
                (combine (seq 0 (length values)) (combine indices values)))
      as [saved Hsaved].
    + apply Forall_forall. intros [n [irow vrow]] Hin. simpl.
      destruct (in_combine_seq _ _ _ _ _ Hin) as [_ Hn].
      rewrite Nat.sub_0_r, nth_error_combine in Hn.
      destruct (nth_error indices n) eqn:Ei, (nth_error values n) eqn:Ev;
        try discriminate.
      inversion Hn; subst.
      unfold save_neuron. apply mapM_total. apply Forall_forall.
      intros [r [i v]] Hlive. simpl.
      destruct (live_ranks_in _ _ _ _ _ Hlive) as [Hi [Hv Hpos]].
      pose proof (Hvalid _ _ _ _ _ _ Ei Ev Hi Hv Hpos) as Hlt.
      unfold dataset_get.
      destruct (nth_error dataset i) eqn:E;
        [simpl; eauto | apply nth_error_None in E; lia].
    + rewrite Hsaved. simpl. eauto.
  - intros Hshape n irow vrow r i v Ei Ev Hi Hv Hpos Hout.
    destruct (list_eq_dec Nat.eq_dec _ _); [| contradiction].
    assert (Hraise : save_neuron dataset n irow vrow = Raise IndexError).
    { unfold save_neuron.
      apply (@mapM_raises _ _ _ IndexError _ (r, (i, v)) IndexError).
      - intros a e' Ha. exact (save_entry_only _ _ Ha).
      - apply live_ranks_intro; assumption.
      - simpl. unfold dataset_get.
        destruct (nth_error dataset i) eqn:E; [| reflexivity].
        assert (i < length dataset) by (apply nth_error_Some; congruence). lia. }
    rewrite (@mapM_raises _ _
               (fun e => save_neuron dataset (fst e) (fst (snd e)) (snd (snd e)))
               IndexError _ (n, (irow, vrow)) IndexError).
    + reflexivity.
    + intros a e' Ha. exact (save_neuron_only _ _ _ Ha).
    + change n with (0 + n). apply nth_error_in_combine_seq_lt.
      * rewrite nth_error_combine, Ei, Ev. reflexivity.
      * apply nth_error_Some. congruence.
    + exact Hraise.
Qed.

End SavingFails.

Lemma saving_looks_up_positive_entries_only_witness :
  save_highest_activating_images [[1]] [[Qc_of_Z 3; Qc_of_Z 0]]
    [mk_datum 10 0; mk_datum 11 0] (empty_store nat) = Raise AssertionError /\
  (exists s', save_highest_activating_images [[1; 99]] [[Qc_of_Z 3; Qc_of_Z 0]]
                [mk_datum 10 0; mk_datum 11 0] (empty_store nat) = Ok s') /\
  save_highest_activating_images [[1; 99]] [[Qc_of_Z 3; Qc_of_Z 1]]
    [mk_datum 10 0; mk_datum 11 0] (empty_store nat) = Raise IndexError.
Proof.
  split; [| split].
  - apply (@saving_looks_up_positive_entries_only nat
             [mk_datum 10 0; mk_datum 11 0] [[1]] [[Qc_of_Z 3; Qc_of_Z 0]]
             (empty_store nat)).
    simpl. discriminate.
  - apply (@saving_looks_up_positive_entries_only nat
             [mk_datum 10 0; mk_datum 11 0] [[1; 99]] [[Qc_of_Z 3; Qc_of_Z 0]]
             (empty_store nat)); [reflexivity |].
    intros n irow vrow r i v Hi Hv Hr Hrv Hpos.
    destruct n as [| n]; [| destruct n; discriminate].
    simpl in Hi, Hv. inversion Hi; subst irow. inversion Hv; subst vrow.
    destruct r as [| [| r]]; simpl in Hr, Hrv.
    + inversion Hr; subst. simpl. lia.
    + inversion Hrv; subst. apply Qcltb_lt in Hpos. vm_compute in Hpos.
      discriminate.
    + destruct r; discriminate.
  - apply (proj2 (proj2 (@saving_looks_up_positive_entries_only nat
             [mk_datum 10 0; mk_datum 11 0] [[1; 99]] [[Qc_of_Z 3; Qc_of_Z 1]]
             (empty_store nat))) eq_refl 0 [1; 99] [Qc_of_Z 3; Qc_of_Z 1] 1 99
             (Qc_of_Z 1)); try reflexivity.
    simpl. lia.
Defined.

(** ** The cells the renderer paints *)








Section Overlay.

Variable VImage : Type.
Variable width height : VImage -> nat.
Variable addalpha : VImage -> VImage.
Variable composite_over : VImage -> VImage -> VImage.
Variable new_from_array : list (list rgba) -> VImage.


End Overlay.

